(** * rtsp-to-wyoming: the utterance segmenter, the transcription client,
      the command matcher and the action dispatcher

    Shallow embedding of [onvif-voice-assistant/rootfs/app/app.py] (the
    add-on) and of the legacy client of [app.py].  Python integers are [Z],
    byte strings are lists of [byte], text is [string] (a character is a
    code point below U+0100), the process environment is a finite map, and
    an exception is an explicit [Raise]. *)

From Stdlib Require Import ZArith List String Ascii Bool Lia QArith Qminmax Lqa
  Sorted.
From Stdlib Require SpecFloat.
From Stdlib.Strings Require Import Byte.
From stdpp Require Import base option list gmap strings.
Import ListNotations.

Local Open Scope Z_scope.

(** ** Exceptions *)

Inductive exn : Type :=
  | ValueError
  | KeyError
  | AttributeError
  | ZeroDivisionError
  | TimeoutError
  | OSError.

Inductive result (A : Type) : Type :=
  | Ok (a : A)
  | Raise (e : exn).

Arguments Ok {A} a.
Arguments Raise {A} e.

(** Sequencing: an exception raised by [m] leaves by the whole block. *)
Definition bind {A B : Type} (m : result A) (k : A -> result B) : result B :=
  match m with
  | Ok a => k a
  | Raise e => Raise e
  end.

Notation "'let*' x ':=' m 'in' k" := (bind m (fun x => k))
  (at level 10, x pattern, m at level 100, k at level 200).

Abbreviation bytes := (list byte).

(** [bytes.join] on the empty separator: the chunks put end to end. *)
Definition join (chunks : list bytes) : bytes := concat chunks.

(** ** AudioBuffer: the utterance segmenter *)

Module Segmenter.

(** One item of [array.array('h', ...)]: a signed 16-bit integer in the
    machine's byte order (little-endian on the targets of the add-on). *)
Definition int16 (lo hi : byte) : Z :=
  let u := Z.of_N (Byte.to_N lo) + 256 * Z.of_N (Byte.to_N hi) in
  if u <? 32768 then u else u - 65536.

(** [array.array('h', frame)]: raises [ValueError] when the length of the
    frame is not a multiple of the item size. *)
Fixpoint array_h (frame : bytes) : result (list Z) :=
  match frame with
  | [] => Ok []
  | [_] => Raise ValueError
  | lo :: hi :: rest => let* samples := array_h rest in Ok (int16 lo hi :: samples)
  end.

(** The float returned by [_calculate_energy] is
    [(sum_squares / len(samples)) ** 0.5], or [0] without samples.  It is
    kept here as the exact pair it is computed from: the only use of it is
    the comparison with the integer threshold, which [energy_lt] decides on
    the squares, as on the real numbers (the rounding of the float is taken
    not to carry the value across the threshold). *)
Record energy : Type := Energy { sum_squares : Z; n_samples : Z }.

Definition _calculate_energy (frame : bytes) : result energy :=
  let* samples := array_h frame in
  Ok (Energy (fold_right (fun s acc => s * s + acc) 0 samples)
             (Z.of_nat (length samples))).

(** [energy < threshold] *)
Definition energy_lt (e : energy) (threshold : Z) : bool :=
  if n_samples e =? 0 then 0 <? threshold
  else (0 <? threshold) && (sum_squares e <? threshold * threshold * n_samples e).

Record AudioBuffer : Type := mkAudioBuffer {
  sample_rate : Z;
  buffer : list bytes;
  vad_threshold : Q;
  is_speaking : bool;
  silence_frames : Z;
  max_silence_frames : Z;
  max_recording_frames : Z;
  recorded_frames : Z;
  min_energy_threshold : Z
}.

(** [AudioBuffer.__init__] *)
Definition init (sample_rate : Z) (vad_threshold : Q) : AudioBuffer :=
  {| sample_rate := sample_rate;
     buffer := [];
     vad_threshold := vad_threshold;
     is_speaking := false;
     silence_frames := 0;
     max_silence_frames := 30;
     max_recording_frames := 1000;
     recorded_frames := 0;
     min_energy_threshold := 500 |}.

(** The mutable part of the object, written at once. *)
Definition update (self : AudioBuffer) (buf : list bytes) (speaking : bool)
    (silence recorded : Z) : AudioBuffer :=
  {| sample_rate := sample_rate self;
     buffer := buf;
     vad_threshold := vad_threshold self;
     is_speaking := speaking;
     silence_frames := silence;
     max_silence_frames := max_silence_frames self;
     max_recording_frames := max_recording_frames self;
     recorded_frames := recorded;
     min_energy_threshold := min_energy_threshold self |}.

(** [AudioBuffer.reset] *)
Definition reset (self : AudioBuffer) : AudioBuffer :=
  update self [] false 0 0.

(** [webrtcvad.Vad(3).is_speech(frame, sample_rate)]: the verdict of the
    external detector, [None] when it raises (a frame that is not 10, 20 or
    30 ms long at a supported rate). *)
Class Vad : Type := vad_is_speech : bytes -> Z -> option bool.

Section WithVad.

Context `{Vad}.

(** The classification of a frame after the energy gate, lines 160-169 of
    [add_frame]; it reads the sample rate and the energy threshold only. *)
Definition classify (rate threshold : Z) (frame : bytes) : result bool :=
  let is_speech := default true (vad_is_speech frame rate) in
  let* e := _calculate_energy frame in
  Ok (if is_speech && energy_lt e threshold then false else is_speech).

(** Lines 183 and 203: [len(audio_data) / (self.sample_rate * 2)], the
    duration written to the log before an utterance is returned.  The
    division raises for a sample rate of zero; the quotient, which only the
    log reads, is kept exact. *)
Definition duration_seconds (audio_data : bytes) (sample_rate : Z) : result Q :=
  if sample_rate * 2 =? 0 then Raise ZeroDivisionError
  else Ok (inject_Z (Z.of_nat (length audio_data)) / inject_Z (sample_rate * 2))%Q.

(** [AudioBuffer.add_frame]: the new state of the object and the returned
    value ([None] or the complete audio).  When the division of the
    duration raises, the call leaves by the exception before [reset] and
    [return]: no utterance is returned. *)
Definition add_frame (self : AudioBuffer) (frame : bytes)
    : result (AudioBuffer * option bytes) :=
  let* is_speech := classify (sample_rate self) (min_energy_threshold self) frame in
  if is_speech then
    let recorded := if is_speaking self then recorded_frames self else 0 in
    let self := update self (buffer self ++ [frame]) true 0 (recorded + 1) in
    if max_recording_frames self <=? recorded_frames self then
      let audio_data := join (buffer self) in
      let* seconds := duration_seconds audio_data (sample_rate self) in
      Ok (reset self, Some audio_data)
    else Ok (self, None)
  else if is_speaking self then
    let self := update self (buffer self ++ [frame]) (is_speaking self)
                       (silence_frames self + 1) (recorded_frames self) in
    if max_silence_frames self <=? silence_frames self then
      let audio_data := join (buffer self) in
      let* seconds := duration_seconds audio_data (sample_rate self) in
      Ok (reset self, Some audio_data)
    else Ok (self, None)
  else Ok (self, None).

(** The driver's loop over the frames of a stream with the detector enabled:
    one [add_frame] per frame, in arrival order; the values returned are
    collected, one per frame. *)
Fixpoint feed (self : AudioBuffer) (frames : list bytes)
    : result (AudioBuffer * list (option bytes)) :=
  match frames with
  | [] => Ok (self, [])
  | frame :: rest =>
      let* (self1, out) := add_frame self frame in
      let* (self2, outs) := feed self1 rest in
      Ok (self2, out :: outs)
  end.

(** A frame is speech (resp. non-speech) for an object when the gate of
    [add_frame] classifies it so. *)
Definition speech (self : AudioBuffer) (frame : bytes) : Prop :=
  classify (sample_rate self) (min_energy_threshold self) frame = Ok true.

Definition non_speech (self : AudioBuffer) (frame : bytes) : Prop :=
  classify (sample_rate self) (min_energy_threshold self) frame = Ok false.

(** The state right after [__init__] or [reset]. *)
Definition idle (self : AudioBuffer) : Prop :=
  buffer self = [] /\ is_speaking self = false /\
  silence_frames self = 0 /\ recorded_frames self = 0.

(** The frames of a list that the gate classifies as speech, and the
    others, counted. *)
Definition speechb (self : AudioBuffer) (frame : bytes) : bool :=
  match classify (sample_rate self) (min_energy_threshold self) frame with
  | Ok b => b
  | Raise _ => false
  end.

Definition count_speech (self : AudioBuffer) (chunk : list bytes) : nat :=
  length (List.filter (speechb self) chunk).

Definition count_non_speech (self : AudioBuffer) (chunk : list bytes) : nat :=
  length (List.filter (fun f => negb (speechb self f)) chunk).

(** The states [feed] can reach from an idle object [self0] on the frames
    [hist]: either idle again, or speaking, and then the buffer is the end
    of [hist] from the speech frame [f0] on, closed by the current run of
    silence [sil]; the two counters count that run and the speech frames
    before it. *)
Inductive tracks (self0 : AudioBuffer) (hist : list bytes) : AudioBuffer -> Prop :=
  | tracks_idle : tracks self0 hist (reset self0)
  | tracks_speaking (pre : list bytes) (f0 : bytes) (body sil : list bytes) :
      hist = pre ++ (f0 :: body) ++ sil ->
      speech self0 f0 ->
      Forall (non_speech self0) sil ->
      Z.of_nat (count_speech self0 (f0 :: body)) < max_recording_frames self0 ->
      tracks self0 hist
        (update self0 ((f0 :: body) ++ sil) true (Z.of_nat (length sil))
                (Z.of_nat (count_speech self0 (f0 :: body)))).

(** What holds of an utterance [u] returned on the frame [f], the last of
    [hist]: it is the end of [hist] from a speech frame on; returned on a
    speech frame (the forced cutoff) it holds as many speech frames as the
    cap says, returned on a non-speech frame (the end of speech) it holds
    more frames than the silence limit. *)
Definition emitted (self0 : AudioBuffer) (hist : list bytes) (f u : bytes) : Prop :=
  exists (pre : list bytes) (f0 : bytes) (rest : list bytes),
    hist = pre ++ f0 :: rest /\
    speech self0 f0 /\
    u = join (f0 :: rest) /\
    (speech self0 f ->
       Z.of_nat (count_speech self0 (f0 :: rest)) = Z.max 1 (max_recording_frames self0)) /\
    (non_speech self0 f ->
       1 + max_silence_frames self0 <= Z.of_nat (length (f0 :: rest))).

End WithVad.

(** Detectors and frames of the examples.  [vad_rejects] raises on every
    frame, as the detector does on the four-byte frames below, which are not
    10, 20 or 30 ms long; [vad_flags] reports speech on every frame. *)
Definition vad_rejects : Vad := fun _ _ => None.
Definition vad_flags : Vad := fun _ _ => Some true.

(** Two samples of amplitude 1000, of amplitude 100, and of amplitude 0. *)
Definition loud : bytes := [xe8; x03; xe8; x03]%byte.
Definition soft : bytes := [x64; x00; x64; x00]%byte.
Definition quiet : bytes := [x00; x00; x00; x00]%byte.

(** The object of the add-on: [AudioBuffer(sample_rate=16000)]. *)
Definition fresh : AudioBuffer := init 16000 (1 # 2).

End Segmenter.

(** ** Text

    The [str] methods the program calls, on text whose characters are ASCII:
    a character above 127 is never white space here and [lower] leaves it
    as it is. *)

Module PyStr.

Local Open Scope string_scope.

(** The methods of [str] on the texts whose characters are code points
    below U+0100, a character being its code point. *)

(** [c.isspace()]: the ASCII white space, U+0085 and U+00A0. *)
Definition isspace (c : ascii) : bool :=
  let n := nat_of_ascii c in
  ((9 <=? n) && (n <=? 13) || (28 <=? n) && (n <=? 32)
   || (n =? 133) || (n =? 160))%nat.

(** [s.lstrip(chars)] and [s.rstrip(chars)], the set [chars] as a test. *)
Fixpoint lstrip_by (p : ascii -> bool) (s : string) : string :=
  match s with
  | EmptyString => EmptyString
  | String c rest => if p c then lstrip_by p rest else s
  end.

Fixpoint rstrip_by (p : ascii -> bool) (s : string) : string :=
  match s with
  | EmptyString => EmptyString
  | String c rest =>
      match rstrip_by p rest with
      | EmptyString => if p c then EmptyString else String c EmptyString
      | kept => String c kept
      end
  end.

(** [s.strip()] *)
Definition strip (s : string) : string := rstrip_by isspace (lstrip_by isspace s).

Fixpoint mem (c : ascii) (chars : string) : bool :=
  match chars with
  | EmptyString => false
  | String d rest => Ascii.eqb c d || mem c rest
  end.

(** [s.rstrip(chars)] *)
Definition rstrip (chars : string) (s : string) : string :=
  rstrip_by (fun c => mem c chars) s.

(** The lower case of a character: [A]-[Z], and the capital letters
    U+00C0-U+00DE but the sign U+00D7, have it 32 places further. *)
Definition lower_char (c : ascii) : ascii :=
  let n := nat_of_ascii c in
  if ((65 <=? n) && (n <=? 90)
      || (192 <=? n) && (n <=? 222) && negb (n =? 215))%nat
  then ascii_of_nat (n + 32) else c.

(** [s.lower()] *)
Fixpoint lower (s : string) : string :=
  match s with
  | EmptyString => EmptyString
  | String c rest => String (lower_char c) (lower rest)
  end.

(** [s.split()]: the maximal runs of characters that are not white space;
    [word] is the run being read. *)
Fixpoint split_from (word : string) (s : string) : list string :=
  match s with
  | EmptyString => match word with EmptyString => [] | _ => [word] end
  | String c rest =>
      if isspace c
      then match word with
           | EmptyString => split_from EmptyString rest
           | _ => word :: split_from EmptyString rest
           end
      else split_from (word ++ String c EmptyString) rest
  end.

Definition split (s : string) : list string := split_from EmptyString s.

(** Truth value of an optional string: [None] and [''] are false. *)
Definition truthy (o : option string) : bool :=
  match o with
  | Some (String _ _) => true
  | _ => false
  end.

End PyStr.

(** ** The transcription client of the add-on: [WyomingClient.send_audio]

    One call is run against a script of what the server does during the
    call.  Time is counted in seconds, as exact rationals, from the moment
    the client has sent [AudioStop]. *)

Module Wyoming.

Import PyStr.

(** The events the client writes. *)
Inductive event_out : Type :=
  | AudioStart (rate width channels : Z)
  | AudioChunk (rate width channels : Z) (audio : bytes)
  | AudioStop.

(** An event the client reads: its type and, for a transcript, its text. *)
Record event_in : Type := { type : string; text : string }.

(** What one [read_event] gives: an event, the end of the stream
    ([read_event] returns [None]), or a message that cannot be decoded
    ([read_event] raises). *)
Inductive reply : Type :=
  | Event (e : event_in)
  | Closed
  | Malformed.

(** The server during one call: whether it accepts the connection, how many
    writes succeed before one raises ([None]: all of them), and the replies,
    each with the delay after which it arrives, counted from the
    [read_event] that gets it; after the last one the server stays silent. *)
Record server : Type := {
  accepts : bool;
  write_budget : option nat;
  inbox : list (Q * reply)
}.

(** What the connection sees during one call. *)
Inductive action : Type :=
  | Connect
  | Write (e : event_out)
  | Disconnect.

(** What a call gives: the returned value, the time of the return, and the
    actions on the connection. *)
Record outcome : Type := {
  value : option string;
  elapsed : Q;
  wire : list action
}.

(** [audio_data[i:i + chunk_size] for i in range(0, len(audio_data),
    chunk_size)], for a positive [chunk_size]. *)
Fixpoint slices (fuel : nat) (chunk_size : nat) (audio_data : bytes) : list bytes :=
  match fuel with
  | O => []
  | S fuel =>
      match audio_data with
      | [] => []
      | _ => take chunk_size audio_data ::
             slices fuel chunk_size (drop chunk_size audio_data)
      end
  end.

(** Steps 1 to 3: the events to write, in order, and the exception that
    stops the writing after them, if any: with a zero [chunk_size] the
    division of line 67 raises once [AudioStart] is written; a negative one
    gives an empty [range]. *)
Definition outgoing (audio_data : bytes) (sample_rate sample_width channels : Z)
    : list event_out * option exn :=
  let chunk_size := 1024 * sample_width * channels in
  let start := AudioStart sample_rate sample_width channels in
  if chunk_size =? 0 then ([start], Some ZeroDivisionError)
  else
    let chunks :=
      if chunk_size <? 0 then []
      else slices (length audio_data) (Z.to_nat chunk_size) audio_data in
    ((start :: map (AudioChunk sample_rate sample_width channels) chunks)
       ++ [AudioStop], None)%list.

(** [client.write_event] over the events: what reaches the connection, and
    whether a write raised. *)
Fixpoint write_events (budget : option nat) (events : list event_out)
    : list action * option exn :=
  match events with
  | [] => ([], None)
  | e :: rest =>
      match budget with
      | Some O => ([], Some OSError)
      | _ =>
          let '(written, raised) := write_events (pred <$> budget) rest in
          (Write e :: written, raised)
      end
  end.

(** Lines 93-94: [max(30.0, min(60.0, audio_duration * 0.5))]. *)
Definition response_timeout (audio_data : bytes) : Q :=
  let audio_duration := Z.of_nat (length audio_data) # 32000 in
  Qmax 30 (Qmin 60 (audio_duration * (1 # 2))).

Definition Qltb (a b : Q) : bool := negb (Qle_bool b a).

(** Step 4, the loop of lines 98-118, at time [now]: the value returned or
    the exception raised, and the time at which the loop is left.
    [asyncio.wait_for(client.read_event(), timeout=5.0)] raises
    [TimeoutError] when the next reply needs five seconds or more. *)
Fixpoint await_transcript (timeout now : Q) (inbox : list (Q * reply))
    : result (option string) * Q :=
  if Qltb timeout now then (Ok None, now)
  else
    match inbox with
    | [] => (Raise TimeoutError, now + 5)
    | (delay, r) :: rest =>
        if Qle_bool 5 delay then (Raise TimeoutError, now + 5)
        else
          match r with
          | Closed => (Ok None, now + delay)
          | Malformed => (Raise ValueError, now + delay)
          | Event event =>
              if String.eqb (type event) "transcript" then
                let text := strip (text event) in
                if negb (String.eqb text EmptyString) then (Ok (Some text), now + delay)
                else (Ok None, now + delay)
              else await_transcript timeout (now + delay) rest
          end
    end%Q.

(** [send_audio]: a connection of its own ([async with]), the writes, the
    wait; whatever is raised on the way is caught and the call returns
    [None]. *)
Definition send_audio (audio_data : bytes) (sample_rate sample_width channels : Z)
    (srv : server) : outcome :=
  if negb (accepts srv) then {| value := None; elapsed := 0; wire := [] |}
  else
    let '(events, stopped) := outgoing audio_data sample_rate sample_width channels in
    let '(written, raised) := write_events (write_budget srv) events in
    match raised, stopped with
    | None, None =>
        let '(r, t) := await_transcript (response_timeout audio_data) 0 (inbox srv) in
        {| value := match r with Ok v => v | Raise _ => None end;
           elapsed := t;
           wire := (Connect :: written) ++ [Disconnect] |}
    | _, _ =>
        {| value := None; elapsed := 0;
           wire := (Connect :: written) ++ [Disconnect] |}
    end%list.

(** Servers and inputs of the examples. *)
Definition silent : server :=
  {| accepts := true; write_budget := None; inbox := [] |}.

Definition answers (t : string) : server :=
  {| accepts := true; write_budget := None;
     inbox := [(1%Q, Event {| type := "transcript"; text := t |})] |}.

(** A server that closes the stream one second after the audio. *)
Definition closes_early : server :=
  {| accepts := true; write_budget := None; inbox := [(1%Q, Closed)] |}.

(** Two seconds of audio at 16 kHz, 16 bits, one channel. *)
Definition two_seconds : bytes := replicate (Z.to_nat 64000) x00%byte.

End Wyoming.

(** ** The transcription client of [app.py]: a socket kept in the object *)

Module Legacy.

(** [self.socket]: [None], or a socket object, connected or not. *)
Record WyomingClient : Type := { socket : option bool }.

(** The messages [_send_message] frames and sends. *)
Inductive message : Type :=
  | Transcribe (rate width channels : Z)
  | AudioChunkHex (chunk : bytes)
  | AudioStopMsg.

(** What [_receive_message] meets: the peer has closed ([recv] returns
    [b'']), an error inside it (a socket error, a short header, bytes that
    are not JSON), or a decoded value: an object with its ["type"] and the
    ["text"] of its ["data"], or a value that is no object, with its truth
    value ([[]], [0], the empty string, [false] and [null] are false). *)
Inductive incoming : Type :=
  | NoData
  | Garbage
  | Object (type : option string) (text : option string)
  | NotAnObject (truthy : bool).

(** The server during one call. *)
Record server : Type := {
  accepts : bool;
  send_budget : option nat;
  answer : incoming
}.

Inductive action : Type :=
  | NewSocket
  | Connected
  | ConnectFailed
  | SendAll (m : message)
  | Recv
  | Close.

(** [connect]: the socket object is stored before the connection is tried,
    and stays there when the connection fails. *)
Definition connect (self : WyomingClient) (srv : server)
    : WyomingClient * bool * list action :=
  if accepts srv then ({| socket := Some true |}, true, [NewSocket; Connected])
  else ({| socket := Some false |}, false, [NewSocket; ConnectFailed]).

(** [disconnect] *)
Definition disconnect (self : WyomingClient) : WyomingClient * list action :=
  match socket self with
  | Some _ => ({| socket := None |}, [Close])
  | None => (self, [])
  end.

(** [sendall] for each message in turn: it raises on a socket that is not
    connected, and when the server's budget is spent. *)
Fixpoint send_messages (connected : bool) (budget : option nat)
    (messages : list message) : list action * option exn :=
  match messages with
  | [] => ([], None)
  | m :: rest =>
      if negb connected then ([], Some OSError)
      else
        match budget with
        | Some O => ([], Some OSError)
        | _ =>
            let '(sent, raised) := send_messages connected (pred <$> budget) rest in
            (SendAll m :: sent, raised)
        end
  end.

(** The messages of one call, in order: the start of the transcription, the
    audio in chunks of 8192 bytes, the end of the audio. *)
Definition outgoing (audio_data : bytes) (sample_rate sample_width channels : Z)
    : list message :=
  (Transcribe sample_rate sample_width channels ::
   map AudioChunkHex
       (Wyoming.slices (length audio_data) (Z.to_nat 8192) audio_data))
  ++ [AudioStopMsg].

(** [send_audio] of [app.py]: the new state of the client, the returned
    value and the actions on the socket.  The test on the reply is
    [response and response.get("type") == "transcript"]: a false value ends
    it, and the call returns [None]; a true value that is no object has no
    [get], and the [AttributeError] is caught with the others, which closes
    the socket. *)
Definition send_audio (self : WyomingClient) (audio_data : bytes)
    (sample_rate sample_width channels : Z) (srv : server)
    : WyomingClient * option string * list action :=
  let '(self1, ready, opened) :=
    match socket self with
    | Some _ => (self, true, [])
    | None => connect self srv
    end in
  if negb ready then (self1, None, opened)
  else
    let messages := outgoing audio_data sample_rate sample_width channels in
    let connected := default false (socket self1) in
    match send_messages connected (send_budget srv) messages with
    | (sent, Some _) =>
        let '(self2, closed) := disconnect self1 in
        (self2, None, opened ++ sent ++ closed)
    | (sent, None) =>
        match answer srv with
        | NoData | Garbage => (self1, None, opened ++ sent ++ [Recv])
        | Object type text =>
            if bool_decide (type = Some "transcript"%string)
            then (self1, Some (default EmptyString text), opened ++ sent ++ [Recv])
            else (self1, None, opened ++ sent ++ [Recv])
        | NotAnObject false => (self1, None, opened ++ sent ++ [Recv])
        | NotAnObject true =>
            let '(self2, closed) := disconnect self1 in
            (self2, None, opened ++ sent ++ [Recv] ++ closed)
        end
    end.

(** Servers of the examples. *)
Definition healthy (t : string) : server :=
  {| accepts := true; send_budget := None;
     answer := Object (Some "transcript"%string) (Some t) |}.

Definition breaks_after (n : nat) : server :=
  {| accepts := true; send_budget := Some n; answer := NoData |}.

Definition hangs_up : server :=
  {| accepts := true; send_budget := None; answer := NoData |}.

End Legacy.

(** ** The action dispatcher: [_execute_action], [_execute_actions] *)

Module Dispatcher.

Import PyStr.
Local Open Scope string_scope.

(** One entry of a command's action list, a dictionary read with [get]. *)
Record action_config : Type := {
  action : option string;
  entity_id : option string;
  service_data : string + gmap string string
}.

(** One entry of the configured [commands]: ["pattern"], then either
    ["actions"] (a list; a value that is not a list stands for the list that
    holds it) or the old ["action"], ["entity_id"] and ["service_data"]. *)
Record command : Type := {
  pattern : option string;
  actions : option (list action_config);
  legacy_action : option string;
  legacy_entity_id : option string;
  legacy_service_data : option (string + gmap string string)
}.

Record request : Type := {
  url : string;
  json : gmap string string;
  authorization : string
}.

Record response : Type := { ok : bool; status_code : Z; text : string }.

(** The collaborators: [requests.post] and [json.loads], which may raise. *)
Class Http : Type := post : request -> result response.
Class Json : Type := json_loads : string -> result (gmap string string).

(** What an execution leaves behind: the requests sent and what is logged
    at level info and above, one constructor per report. *)
Inductive event : Type :=
  | WarnNoSupervisorToken
  | ErrNoToken
  | ErrInvalidAction (action : string)
  | HttpPost (req : request)
  | InfoExecuted
  | ErrFailed (status : Z)
  | ErrException (e : exn)
  | ErrNoActionField.

(** [os.environ.get(name)] taken as present, as the check at the start of
    [main] reports it: ['Present' if os.environ.get(name) else 'Missing']. *)
Definition present (environ : gmap string string) (name : string) : bool :=
  truthy (environ !! name).

(** Lines 440-443: the token the action is sent with. *)
Definition get_token (environ : gmap string string) : option string :=
  let token := environ !! "SUPERVISOR_TOKEN" in
  if negb (truthy token) then environ !! "HASSIO_TOKEN" else token.

(** The credential in the words of the specification: the names are tried
    in a fixed order, and the first one present gives it. *)
Fixpoint first_present (environ : gmap string string) (names : list string)
    : option string :=
  match names with
  | [] => None
  | name :: rest =>
      if present environ name then environ !! name
      else first_present environ rest
  end.

Definition spec_credential (environ : gmap string string) : option string :=
  first_present environ ["SUPERVISOR_TOKEN"; "HASSIO_TOKEN"].

(** [action.split(".", 1)] unpacked into two names: the text before the
    first dot and the text after it; [None] without a dot ([ValueError]). *)
Fixpoint split_dot (s : string) : option (string * string) :=
  match s with
  | EmptyString => None
  | String c rest =>
      if Ascii.eqb c "."%char then Some (EmptyString, rest)
      else match split_dot rest with
           | Some (domain, service) => Some (String c domain, service)
           | None => None
           end
  end.

Section WithCollaborators.

Context `{Http} `{Json}.

(** The body of the [try] block of [_execute_action]: the events it leaves
    and the exception that ends it, if any. *)
Definition execute_action_body (environ : gmap string string)
    (action_config : action_config) : list event * option exn :=
  let warned :=
    if negb (truthy (environ !! "SUPERVISOR_TOKEN"))
    then [WarnNoSupervisorToken] else [] in
  let token := get_token environ in
  if negb (truthy token) then ((warned ++ [ErrNoToken])%list, None)
  else
    match action action_config with
    | None => (warned, Some AttributeError)
    | Some act =>
        match split_dot act with
        | None => ((warned ++ [ErrInvalidAction act])%list, None)
        | Some (domain, service) =>
            let url := "http://supervisor/core/api/services/" ++ domain ++ "/" ++ service in
            let payload : gmap string string :=
              match entity_id action_config with
              | Some (String _ _ as e) => {[ "entity_id" := e ]}
              | _ => ∅
              end in
            let data :=
              match service_data action_config with
              | inl str => json_loads str
              | inr dict => Ok dict
              end in
            match data with
            | Raise e => (warned, Some e)
            | Ok data =>
                let req := {| url := url;
                              json := data ∪ payload;
                              authorization := "Bearer " ++ default EmptyString token |} in
                match post req with
                | Raise e => ((warned ++ [HttpPost req])%list, Some e)
                | Ok resp =>
                    ((warned ++ [HttpPost req;
                                 if ok resp then InfoExecuted
                                 else ErrFailed (status_code resp)])%list, None)
                end
            end
        end
    end.

(** [_execute_action]: the [except Exception] clause logs what the body
    raised, and the call returns. *)
Definition _execute_action (environ : gmap string string)
    (action_config : action_config) : list event :=
  match execute_action_body environ action_config with
  | (events, None) => events
  | (events, Some e) => (events ++ [ErrException e])%list
  end.

(** The loop of [_execute_actions] over the action list of a command. *)
Fixpoint execute_each (environ : gmap string string)
    (actions_list : list action_config) : list event :=
  match actions_list with
  | [] => []
  | action_config :: rest =>
      (_execute_action environ action_config ++ execute_each environ rest)%list
  end.

(** [_execute_actions]: the new format (["actions"]) or the old one
    (["action"], with its own target and data). *)
Definition _execute_actions (environ : gmap string string) (command : command)
    : list event :=
  match actions command with
  | Some actions_list => execute_each environ actions_list
  | None =>
      match legacy_action command with
      | Some act =>
          execute_each environ
            [ {| action := Some act;
                 entity_id := legacy_entity_id command;
                 service_data := default (inr ∅) (legacy_service_data command) |} ]
      | None => [ErrNoActionField]
      end
  end.

End WithCollaborators.

(** Collaborators and inputs of the examples. *)
Definition http_ok : Http :=
  fun _ => Ok {| ok := true; status_code := 200; text := "[]" |}.
Definition json_none : Json := fun _ => Raise ValueError.

Definition light_on : action_config :=
  {| action := Some "light.turn_on";
     entity_id := Some "light.kitchen";
     service_data := inr ∅ |}.

End Dispatcher.

(** ** The command matcher: [_process_command] *)

Module Matcher.

Import PyStr.
Import Dispatcher.
Local Open Scope string_scope.

(** [words.index(word)]: the first position of [word]; [None] when the word
    does not occur ([ValueError]). *)
Fixpoint index (word : string) (words : list string) : option nat :=
  match words with
  | [] => None
  | w :: rest => if String.eqb w word then Some 0%nat else S <$> index word rest
  end.

(** [word in words] *)
Definition contains (words : list string) (word : string) : bool :=
  existsb (String.eqb word) words.

(** [sorted(indices)] *)
Fixpoint insert_sorted (n : nat) (l : list nat) : list nat :=
  match l with
  | [] => [n]
  | m :: rest => if (n <=? m)%nat then n :: l else m :: insert_sorted n rest
  end.

Definition sorted (l : list nat) : list nat := fold_right insert_sorted [] l.

(** One turn of the loop of [_process_command]: whether the command with
    this pattern is executed for [text_clean]. *)
Definition matches (text_clean : string) (command_pattern : string) : bool :=
  let pattern := strip (lower command_pattern) in
  let text_words := split text_clean in
  let pattern_words := split pattern in
  if String.eqb text_clean pattern then true
  else if forallb (contains text_words) pattern_words then
    match mapM (fun word => index word text_words) pattern_words with
    | Some indices => bool_decide (indices = sorted indices)
    | None => false
    end
  else false.

(** The loop over the commands: the first command that matches is the one
    executed; a command without ["pattern"] raises [KeyError]. *)
Fixpoint first_match (text_clean : string) (commands : list command)
    : result (option command) :=
  match commands with
  | [] => Ok None
  | command :: rest =>
      match pattern command with
      | None => Raise KeyError
      | Some p =>
          if matches text_clean p then Ok (Some command)
          else first_match text_clean rest
      end
  end.

(** [_process_command]: the command whose actions are executed, if any. *)
Definition _process_command (text : string) (commands : list command)
    : result (option command) :=
  let text_clean := rstrip ".,!?" (strip text) in
  first_match text_clean commands.

(** The matcher as its caller [_transcribe_and_process] runs it on the text
    [send_audio] returned: nothing for an empty text, else
    [text.strip().lower()], then [_process_command]. *)
Definition match_transcript (transcript : string) (commands : list command)
    : result (option command) :=
  if truthy (Some transcript)
  then _process_command (lower (strip transcript)) commands
  else Ok None.

(** The matching rule in the words of the specification: the normalized
    transcript equals the normalized pattern, or the words of the pattern
    are a subsequence of the words of the transcript. *)
Definition normalize (s : string) : string := rstrip ".,!?" (strip (lower s)).

Definition spec_matches (transcript command_pattern : string) : Prop :=
  normalize transcript = normalize command_pattern \/
  sublist (split (normalize command_pattern)) (split (normalize transcript)).

(** A command of the examples: a pattern and one action. *)
Definition rule (p : string) : command :=
  {| pattern := Some p;
     actions := Some [light_on];
     legacy_action := None;
     legacy_entity_id := None;
     legacy_service_data := None |}.

End Matcher.

(** ** The limits the segmenter keeps *)

Module Limits.

Import Segmenter.

(** The counters of an object between two calls of [add_frame]: while it is
    speaking both stay under their limits, and the buffer holds no more than
    [max_silence_frames] frames for each speech frame counted, less the
    silence still allowed. *)
Definition within_limits (self : AudioBuffer) : Prop :=
  if is_speaking self then
    0 <= silence_frames self < max_silence_frames self /\
    1 <= recorded_frames self < max_recording_frames self /\
    Z.of_nat (length (buffer self))
      + (max_silence_frames self - 1 - silence_frames self)
      <= recorded_frames self * max_silence_frames self
  else idle self.

(** The largest number of frames an utterance can hold: every speech frame
    under the cap followed by the longest silence that does not end the
    utterance, and the frame that ends it. *)
Definition longest_utterance (self : AudioBuffer) : Z :=
  (Z.max 1 (max_recording_frames self) - 1) * max_silence_frames self + 1.

End Limits.

(** ** The driver: from decoded audio to frames, [_process_audio_stream] *)

Module Driver.

Import Segmenter.

(** Line 300: [int(sample_rate * 0.03) * 2]; [samples_per_frame] stands for
    the truncated float product, which [samples_of_rate] below computes. *)
Definition frame_size (samples_per_frame : Z) : Z := samples_per_frame * 2.

(** The float product of line 300 on IEEE 754 doubles.  [float_0_03] is the
    double written [0.03], that is 0x1.eb851eb851eb8p-6; [float_of_int] is
    the conversion of the integer factor, rounded to the nearest double;
    [int_of_float] is [int(x)], which drops the fraction. *)
Definition float_0_03 : SpecFloat.spec_float :=
  SpecFloat.S754_finite false 8646911284551352 (-58).

Definition float_of_int (n : Z) : SpecFloat.spec_float :=
  SpecFloat.binary_normalize 53 1024 n 0 false.

Definition int_of_float (x : SpecFloat.spec_float) : option Z :=
  match x with
  | SpecFloat.S754_zero _ => Some 0
  | SpecFloat.S754_finite s m e =>
      let a := if 0 <=? e then Z.pos m * 2 ^ e else Z.pos m / 2 ^ (- e) in
      Some (if s then - a else a)
  | _ => None
  end.

(** [int(sample_rate * 0.03)]; [None] is [OverflowError], for a rate too
    large to be converted to a float. *)
Definition samples_of_rate (sample_rate : Z) : option Z :=
  match float_of_int sample_rate with
  | SpecFloat.S754_infinity _ | SpecFloat.S754_nan => None
  | x => int_of_float (SpecFloat.SFmul 53 1024 x float_0_03)
  end.

(** Lines 302-306: the slices [audio_bytes[i:i + frame_size]] for [i] in
    [range(0, len(audio_bytes), frame_size)], less those shorter than
    [frame_size]; a zero step makes [range] raise. *)
Definition frames (frame_size : Z) (audio_bytes : bytes) : result (list bytes) :=
  if frame_size =? 0 then Raise ValueError
  else if frame_size <? 0 then Ok []
  else
    Ok (List.filter (fun chunk => negb (Z.of_nat (length chunk) <? frame_size))
          (Wyoming.slices (length audio_bytes) (Z.to_nat frame_size) audio_bytes)).

(** [if complete_audio:] on what [add_frame] returned. *)
Definition truthy (complete_audio : option bytes) : bool :=
  match complete_audio with
  | Some (_ :: _) => true
  | _ => false
  end.

Section WithVad.

Context `{Vad}.

(** Lines 302-326 with the detector enabled, for one block of decoded
    audio: the object after its frames, and the utterances handed to
    [_transcribe_and_process], in order. *)
Definition process_audio (self : AudioBuffer) (samples_per_frame : Z)
    (audio_bytes : bytes) : result (AudioBuffer * list bytes) :=
  let* chunks := frames (frame_size samples_per_frame) audio_bytes in
  let* (self', outs) := feed self chunks in
  Ok (self', omap id (List.filter truthy outs)).

End WithVad.

End Driver.

(** ** The requests among the events of the dispatcher *)

Module Requests.

Import Dispatcher.

(** The requests sent, in order, among the events of an execution. *)
Definition posted (events : list event) : list request :=
  omap (fun e => match e with HttpPost req => Some req | _ => None end) events.

End Requests.

(** ** The framing of [app.py]: [_send_message], [_receive_message]

    A message travels as four bytes, its length as a little-endian
    unsigned integer, followed by that many bytes of JSON.  The JSON text is
    taken as it is: [json.dumps] and [json.loads] stay outside. *)

Module LegacyWire.

Definition byte_of (z : Z) : byte :=
  default x00%byte (Byte.of_N (Z.to_N (z mod 256))).

(** [struct.pack("<I", n)]; [None] is [struct.error], for a number that does
    not fit in 32 bits. *)
Definition pack_u32 (n : Z) : option bytes :=
  if (0 <=? n) && (n <? 2 ^ 32)
  then Some [byte_of n; byte_of (n / 256); byte_of (n / 65536);
             byte_of (n / 16777216)]
  else None.

(** [struct.unpack("<I", size_data)[0]]; [None] is [struct.error], for a
    buffer that is not four bytes long. *)
Definition unpack_u32 (size_data : bytes) : option Z :=
  match size_data with
  | [b0; b1; b2; b3] =>
      Some (Z.of_N (Byte.to_N b0) + 256 * Z.of_N (Byte.to_N b1)
            + 65536 * Z.of_N (Byte.to_N b2) + 16777216 * Z.of_N (Byte.to_N b3))
  | _ => None
  end.

(** What [_send_message] hands to [sendall] for the encoded message
    [data]. *)
Definition frame (data : bytes) : option bytes :=
  header ← pack_u32 (Z.of_nat (length data));
  Some (header ++ data).

(** The bytes a socket will deliver, in the pieces in which they arrive;
    after the last piece the peer has closed.  [recv n] takes at most [n]
    bytes of the first piece: what it returns, and what is left. *)
Definition recv (n : nat) (stream : list bytes) : bytes * list bytes :=
  match stream with
  | [] => ([], [])
  | piece :: rest =>
      if (length piece <=? n)%nat then (piece, rest)
      else (take n piece, drop n piece :: rest)
  end.

(** The loop of lines 123-128: [recv(size - len(data))] until [data] has
    [size] bytes; an empty [recv] ends it with [None]. *)
Fixpoint read_body (size : nat) (data : bytes) (stream : list bytes)
    : option bytes * list bytes :=
  if (size <=? length data)%nat then (Some data, stream)
  else
    match stream with
    | [] => (None, [])
    | piece :: rest =>
        let wanted := (size - length data)%nat in
        if (length piece <=? wanted)%nat then
          match piece with
          | [] => (None, rest)
          | _ => read_body size (data ++ piece) rest
          end
        else (Some (data ++ take wanted piece), drop wanted piece :: rest)
    end.

(** [_receive_message], up to the bytes it gives to [json.loads]: [None]
    when it returns [None] before (closed stream, or [struct.error] on a
    header of fewer than four bytes, caught by its [except]). *)
Definition _receive_message (stream : list bytes) : option bytes * list bytes :=
  let '(size_data, stream1) := recv 4 stream in
  match size_data with
  | [] => (None, stream1)
  | _ =>
      match unpack_u32 size_data with
      | None => (None, stream1)
      | Some size => read_body (Z.to_nat size) [] stream1
      end
  end.

End LegacyWire.

(** ** The segmenter of [app.py]: no energy gate, no cap *)

Module LegacySegmenter.

Record AudioBuffer : Type := mkAudioBuffer {
  sample_rate : Z;
  buffer : list bytes;
  vad_threshold : Q;
  is_speaking : bool;
  silence_frames : Z;
  max_silence_frames : Z
}.

(** [AudioBuffer.__init__] *)
Definition init (sample_rate : Z) (vad_threshold : Q) : AudioBuffer :=
  {| sample_rate := sample_rate;
     buffer := [];
     vad_threshold := vad_threshold;
     is_speaking := false;
     silence_frames := 0;
     max_silence_frames := 20 |}.

Definition update (self : AudioBuffer) (buf : list bytes) (speaking : bool)
    (silence : Z) : AudioBuffer :=
  {| sample_rate := sample_rate self;
     buffer := buf;
     vad_threshold := vad_threshold self;
     is_speaking := speaking;
     silence_frames := silence;
     max_silence_frames := max_silence_frames self |}.

(** [AudioBuffer.reset] *)
Definition reset (self : AudioBuffer) : AudioBuffer :=
  update self [] false 0.

Section WithVad.

Context `{Segmenter.Vad}.

(** The verdict on a frame: the detector's, or speech when it raises. *)
Definition is_speech (self : AudioBuffer) (frame : bytes) : bool :=
  default true (Segmenter.vad_is_speech frame (sample_rate self)).

(** [AudioBuffer.add_frame] of [app.py]; nothing in it can raise. *)
Definition add_frame (self : AudioBuffer) (frame : bytes)
    : AudioBuffer * option bytes :=
  if is_speech self frame then
    (update self (buffer self ++ [frame]) true 0, None)
  else if is_speaking self then
    let self := update self (buffer self ++ [frame]) (is_speaking self)
                       (silence_frames self + 1) in
    if max_silence_frames self <=? silence_frames self then
      let audio_data := join (buffer self) in
      (reset self, Some audio_data)
    else (self, None)
  else (self, None).

(** One [add_frame] per frame, in arrival order. *)
Fixpoint feed (self : AudioBuffer) (frames : list bytes)
    : AudioBuffer * list (option bytes) :=
  match frames with
  | [] => (self, [])
  | frame :: rest =>
      let '(self1, out) := add_frame self frame in
      let '(self2, outs) := feed self1 rest in
      (self2, out :: outs)
  end.

(** An utterance as [add_frame] returns it after the frames [hist]: the end
    of [hist] from a speech frame on, made of frames that end with a speech
    frame, and then of the silence that closes it. *)
Definition closed_by_silence (self0 : AudioBuffer) (hist : list bytes)
    (u : bytes) : Prop :=
  exists (pre : list bytes) (f0 : bytes) (body : list bytes) (f1 : bytes)
         (sil : list bytes),
    hist = pre ++ (f0 :: body) ++ sil /\
    is_speech self0 f0 = true /\
    last (f0 :: body) = Some f1 /\ is_speech self0 f1 = true /\
    Forall (fun f => is_speech self0 f = false) sil /\
    Z.of_nat (length sil) = max_silence_frames self0 /\
    u = join ((f0 :: body) ++ sil).

(** The states reached from an idle object on the frames [hist]. *)
Inductive tracks (self0 : AudioBuffer) (hist : list bytes) : AudioBuffer -> Prop :=
  | tracks_idle : tracks self0 hist (reset self0)
  | tracks_speaking (pre : list bytes) (f0 : bytes) (body : list bytes)
      (f1 : bytes) (sil : list bytes) :
      hist = pre ++ (f0 :: body) ++ sil ->
      is_speech self0 f0 = true ->
      last (f0 :: body) = Some f1 -> is_speech self0 f1 = true ->
      Forall (fun f => is_speech self0 f = false) sil ->
      Z.of_nat (length sil) < max_silence_frames self0 ->
      tracks self0 hist
        (update self0 ((f0 :: body) ++ sil) true (Z.of_nat (length sil))).

End WithVad.

(** The object of [app.py]: [AudioBuffer(sample_rate=16000)]. *)
Definition fresh : AudioBuffer := init 16000 (1 # 2).

End LegacySegmenter.

(** ** From an utterance to the requests: [_transcribe_and_process] *)

Module Pipeline.

Import PyStr.
Import Dispatcher.

Section WithCollaborators.

Context `{Http} `{Json}.

(** [_transcribe_and_process]: the events the dispatcher leaves, and the
    exception its [except] clause logs, if any.  The division of line 346
    raises for a sample rate of zero, before anything is sent; the client is
    called with its default width and channels. *)
Definition _transcribe_and_process (environ : gmap string string)
    (commands : list command) (audio_data : bytes) (sample_rate : Z)
    (srv : Wyoming.server) : list event * option exn :=
  if sample_rate * 2 =? 0 then ([], Some ZeroDivisionError)
  else
    match Wyoming.value (Wyoming.send_audio audio_data sample_rate 2 1 srv) with
    | Some text =>
        match Matcher.match_transcript text commands with
        | Ok (Some command) => (_execute_actions environ command, None)
        | Ok None => ([], None)
        | Raise e => ([], Some e)
        end
    | None => ([], None)
    end.

End WithCollaborators.

End Pipeline.

(** * Properties *)

(** ** The segmenter *)

Lemma length_join_uniform (chunks : list bytes) (n : nat) :
  Forall (fun c => length c = n) chunks ->
  length (join chunks) = (length chunks * n)%nat.
Proof.
  unfold join. induction 1 as [|c chunks Hc _ IH]; [reflexivity|].
  cbn [concat length]. rewrite length_app, Hc, IH. lia.
Qed.

Section SegmenterFacts.

Import Segmenter.
Context `{Vad}.

(** *** Equations of [add_frame] and [feed] *)

Lemma update_self (self : AudioBuffer) :
  update self (buffer self) (is_speaking self) (silence_frames self)
         (recorded_frames self) = self.
Proof. destruct self; reflexivity. Qed.

Lemma idle_reset (self : AudioBuffer) : idle (reset self).
Proof. repeat split. Qed.

Lemma reset_idle (self : AudioBuffer) : idle self -> reset self = self.
Proof.
  destruct self; unfold idle, reset, update; simpl.
  intros (-> & -> & -> & ->); reflexivity.
Qed.

(** The division of the duration returns for every sample rate but zero,
    and a block that it opens returns what follows it, if it returns. *)
Lemma duration_seconds_returns {A : Type} (audio_data : bytes) (rate : Z)
    (k : result A) :
  rate <> 0 ->
  (let* seconds := duration_seconds audio_data rate in k) = k.
Proof.
  intros Hrate. unfold duration_seconds.
  destruct (Z.eqb_spec (rate * 2) 0) as [Hz|_]; [lia|reflexivity].
Qed.

Lemma duration_seconds_returned {A : Type} (audio_data : bytes) (rate : Z)
    (k : result A) (a : A) :
  (let* seconds := duration_seconds audio_data rate in k) = Ok a -> k = Ok a.
Proof.
  unfold duration_seconds. destruct (rate * 2 =? 0); [discriminate|].
  intros Hk. exact Hk.
Qed.

Lemma duration_seconds_zero {A : Type} (audio_data : bytes) (k : result A) :
  (let* seconds := duration_seconds audio_data 0 in k) = Raise ZeroDivisionError.
Proof. reflexivity. Qed.

(** A speech frame, in full: the division stands before the return of the
    utterance. *)
Lemma add_frame_speech_div (self : AudioBuffer) (buf : list bytes) (spk : bool)
    (s r : Z) (f : bytes) :
  speech self f ->
  add_frame (update self buf spk s r) f =
    let recorded := (if spk then r else 0) + 1 in
    if max_recording_frames self <=? recorded
    then let* seconds := duration_seconds (join (buf ++ [f])) (sample_rate self) in
         Ok (reset self, Some (join (buf ++ [f])))
    else Ok (update self (buf ++ [f]) true 0 recorded, None).
Proof.
  unfold speech, add_frame; simpl; intros ->; simpl.
  destruct (max_recording_frames self <=? _); reflexivity.
Qed.

Lemma add_frame_non_speech_div (self : AudioBuffer) (buf : list bytes)
    (s r : Z) (f : bytes) :
  non_speech self f ->
  add_frame (update self buf true s r) f =
    if max_silence_frames self <=? s + 1
    then let* seconds := duration_seconds (join (buf ++ [f])) (sample_rate self) in
         Ok (reset self, Some (join (buf ++ [f])))
    else Ok (update self (buf ++ [f]) true (s + 1) r, None).
Proof.
  unfold non_speech, add_frame; simpl; intros ->; simpl.
  destruct (max_silence_frames self <=? _); reflexivity.
Qed.

(** The same for a sample rate that is not zero. *)
Lemma add_frame_speech (self : AudioBuffer) (buf : list bytes) (spk : bool)
    (s r : Z) (f : bytes) :
  sample_rate self <> 0 ->
  speech self f ->
  add_frame (update self buf spk s r) f =
    let recorded := (if spk then r else 0) + 1 in
    if max_recording_frames self <=? recorded
    then Ok (reset self, Some (join (buf ++ [f])))
    else Ok (update self (buf ++ [f]) true 0 recorded, None).
Proof.
  intros Hrate Hf. rewrite (add_frame_speech_div _ _ _ _ _ _ Hf).
  cbv zeta. rewrite (duration_seconds_returns _ _ _ Hrate). reflexivity.
Qed.

Lemma add_frame_non_speech (self : AudioBuffer) (buf : list bytes)
    (s r : Z) (f : bytes) :
  sample_rate self <> 0 ->
  non_speech self f ->
  add_frame (update self buf true s r) f =
    if max_silence_frames self <=? s + 1
    then Ok (reset self, Some (join (buf ++ [f])))
    else Ok (update self (buf ++ [f]) true (s + 1) r, None).
Proof.
  intros Hrate Hf. rewrite (add_frame_non_speech_div _ _ _ _ _ Hf).
  rewrite (duration_seconds_returns _ _ _ Hrate). reflexivity.
Qed.

(** And for a call that returns, whatever the sample rate. *)
Lemma add_frame_speech_returned (self : AudioBuffer) (buf : list bytes)
    (spk : bool) (s r : Z) (f : bytes) (res : AudioBuffer * option bytes) :
  speech self f ->
  add_frame (update self buf spk s r) f = Ok res ->
  (let recorded := (if spk then r else 0) + 1 in
   if max_recording_frames self <=? recorded
   then Ok (reset self, Some (join (buf ++ [f])))
   else Ok (update self (buf ++ [f]) true 0 recorded, None)) = Ok res.
Proof.
  intros Hf. rewrite (add_frame_speech_div _ _ _ _ _ _ Hf). cbv zeta.
  destruct (max_recording_frames self <=? _); [|trivial].
  apply duration_seconds_returned.
Qed.

Lemma add_frame_non_speech_returned (self : AudioBuffer) (buf : list bytes)
    (s r : Z) (f : bytes) (res : AudioBuffer * option bytes) :
  non_speech self f ->
  add_frame (update self buf true s r) f = Ok res ->
  (if max_silence_frames self <=? s + 1
   then Ok (reset self, Some (join (buf ++ [f])))
   else Ok (update self (buf ++ [f]) true (s + 1) r, None)) = Ok res.
Proof.
  intros Hf. rewrite (add_frame_non_speech_div _ _ _ _ _ Hf).
  destruct (max_silence_frames self <=? _); [|trivial].
  apply duration_seconds_returned.
Qed.

Lemma add_frame_idle_non_speech (self : AudioBuffer) (f : bytes) :
  is_speaking self = false -> non_speech self f ->
  add_frame self f = Ok (self, None).
Proof.
  unfold non_speech, add_frame; intros Hs ->; simpl; rewrite Hs; reflexivity.
Qed.

Lemma feed_app (self : AudioBuffer) (xs ys : list bytes) :
  feed self (xs ++ ys) =
    let* (self1, o1) := feed self xs in
    let* (self2, o2) := feed self1 ys in
    Ok (self2, o1 ++ o2).
Proof.
  revert self; induction xs as [|x xs IH]; intros self; simpl.
  - destruct (feed self ys) as [[self2 o2]|e]; reflexivity.
  - destruct (add_frame self x) as [[self1 out]|e]; simpl; [|reflexivity].
    rewrite IH.
    destruct (feed self1 xs) as [[self2 o1]|e]; simpl; [|reflexivity].
    destruct (feed self2 ys) as [[self3 o2]|e]; reflexivity.
Qed.

(** Non-speech frames met while not speaking are dropped. *)
Lemma feed_idle_non_speech (self : AudioBuffer) (pre : list bytes) :
  is_speaking self = false -> Forall (non_speech self) pre ->
  feed self pre = Ok (self, replicate (length pre) None).
Proof.
  intros Hs; induction 1 as [|f pre Hf _ IH]; simpl; [reflexivity|].
  rewrite (add_frame_idle_non_speech _ _ Hs Hf); simpl.
  rewrite IH; reflexivity.
Qed.

(** A run of speech frames that stays under the recording cap. *)
Lemma feed_speech_run (self : AudioBuffer) (sp buf : list bytes) (r : Z) :
  Forall (speech self) sp ->
  r + Z.of_nat (length sp) < max_recording_frames self ->
  feed (update self buf true 0 r) sp =
    Ok (update self (buf ++ sp) true 0 (r + Z.of_nat (length sp)),
        replicate (length sp) None).
Proof.
  intros Hsp; revert buf r; induction Hsp as [|f sp Hf _ IH]; intros buf r Hr.
  - simpl. rewrite app_nil_r, Z.add_0_r. reflexivity.
  - cbn [feed]. rewrite (add_frame_speech_div _ _ _ _ _ _ Hf). cbv beta iota zeta.
    cbn [length] in Hr |- *.
    destruct (Z.leb_spec (max_recording_frames self) (r + 1)); [lia|].
    cbn [bind]. rewrite IH by lia. cbn [bind replicate].
    replace (r + 1 + Z.of_nat (length sp)) with (r + Z.of_nat (S (length sp)))
      by lia.
    rewrite <- app_assoc. reflexivity.
Qed.

(** A run of non-speech frames, while speaking, that stays under the
    silence limit. *)
Lemma feed_silence_run (self : AudioBuffer) (sil buf : list bytes) (s r : Z) :
  Forall (non_speech self) sil ->
  s + Z.of_nat (length sil) < max_silence_frames self ->
  feed (update self buf true s r) sil =
    Ok (update self (buf ++ sil) true (s + Z.of_nat (length sil)) r,
        replicate (length sil) None).
Proof.
  intros Hsil; revert buf s; induction Hsil as [|f sil Hf _ IH]; intros buf s Hs.
  - simpl. rewrite app_nil_r, Z.add_0_r. reflexivity.
  - cbn [feed]. rewrite (add_frame_non_speech_div _ _ _ _ _ Hf).
    cbn [length] in Hs |- *.
    destruct (Z.leb_spec (max_silence_frames self) (s + 1)); [lia|].
    cbn [bind]. rewrite IH by lia. cbn [bind replicate].
    replace (s + 1 + Z.of_nat (length sil)) with (s + Z.of_nat (S (length sil)))
      by lia.
    rewrite <- app_assoc. reflexivity.
Qed.

Lemma add_frame_speech_idle (self : AudioBuffer) (f : bytes) :
  sample_rate self <> 0 ->
  idle self -> speech self f ->
  add_frame self f =
    if max_recording_frames self <=? 1
    then Ok (reset self, Some (join [f]))
    else Ok (update self [f] true 0 1, None).
Proof.
  intros Hrate (Hb & Hs & _ & _) Hf.
  rewrite <- (update_self self) at 1. rewrite Hb, Hs.
  apply (add_frame_speech self [] false _ _ f Hrate Hf).
Qed.

(** The last frame of a silence run that reaches the limit. *)
Lemma add_frame_silence_end (self : AudioBuffer) (buf : list bytes)
    (s r : Z) (f : bytes) :
  sample_rate self <> 0 ->
  non_speech self f -> max_silence_frames self <= s + 1 ->
  add_frame (update self buf true s r) f =
    Ok (reset self, Some (join (buf ++ [f]))).
Proof.
  intros Hrate Hf Hs. rewrite (add_frame_non_speech _ _ _ _ _ Hrate Hf).
  destruct (Z.leb_spec (max_silence_frames self) (s + 1)); [reflexivity|lia].
Qed.

(** One utterance, from the first speech frame met while idle to the frame
    that completes the silence run. *)
Lemma feed_speech_then_silence (self : AudioBuffer) (sp sil : list bytes) :
  sample_rate self <> 0 ->
  idle self ->
  Forall (speech self) sp -> sp <> [] ->
  Z.of_nat (length sp) < max_recording_frames self ->
  Forall (non_speech self) sil ->
  Z.of_nat (length sil) = max_silence_frames self ->
  0 < max_silence_frames self ->
  feed self (sp ++ sil) =
    Ok (reset self,
        replicate (length sp + length sil - 1) None ++ [Some (join (sp ++ sil))]).
Proof.
  intros Hrate Hidle Hsp Hne Hcap Hsil Hlen Hpos.
  destruct sp as [|f0 sp]; [congruence|]. clear Hne.
  apply Forall_cons in Hsp as [Hf0 Hsp]. cbn [length] in Hcap.
  destruct sil as [|fl sil _] using rev_ind; [simpl in Hlen; lia|].
  apply Forall_app in Hsil as [Hsil Hfl]. apply Forall_cons in Hfl as [Hfl _].
  rewrite length_app in Hlen |- *. cbn [length] in Hlen |- *.
  cbn [app feed]. rewrite (add_frame_speech_idle _ _ Hrate Hidle Hf0).
  destruct (Z.leb_spec (max_recording_frames self) 1); [lia|]. cbn [bind].
  rewrite feed_app, (feed_speech_run self sp [f0] 1 Hsp) by lia. cbn [bind].
  rewrite feed_app, (feed_silence_run self sil _ 0 _ Hsil) by lia. cbn [bind feed].
  rewrite (add_frame_silence_end _ _ _ _ _ Hrate Hfl) by lia. cbn [bind].
  do 2 f_equal.
  replace (S (length sp) + (length sil + 1) - 1)%nat
    with (S (length sp + length sil)) by lia.
  cbn [replicate app]. f_equal.
  rewrite replicate_add, <- !app_assoc. reflexivity.
Qed.

(** *** The states reached by [feed] *)

Lemma speech_speechb (self : AudioBuffer) (f : bytes) :
  speech self f -> speechb self f = true.
Proof. unfold speech, speechb; intros ->; reflexivity. Qed.

Lemma non_speech_speechb (self : AudioBuffer) (f : bytes) :
  non_speech self f -> speechb self f = false.
Proof. unfold non_speech, speechb; intros ->; reflexivity. Qed.

Lemma speech_not_non_speech (self : AudioBuffer) (f : bytes) :
  speech self f -> non_speech self f -> False.
Proof. unfold speech, non_speech; congruence. Qed.

Lemma count_speech_app (self : AudioBuffer) (a b : list bytes) :
  count_speech self (a ++ b) = (count_speech self a + count_speech self b)%nat.
Proof. unfold count_speech. rewrite List.filter_app, length_app. reflexivity. Qed.

Lemma count_speech_cons (self : AudioBuffer) (f : bytes) (l : list bytes) :
  speech self f -> count_speech self (f :: l) = S (count_speech self l).
Proof.
  intros Hf. unfold count_speech. cbn [List.filter].
  rewrite (speech_speechb _ _ Hf). reflexivity.
Qed.

Lemma count_speech_silence (self : AudioBuffer) (sil : list bytes) :
  Forall (non_speech self) sil -> count_speech self sil = 0%nat.
Proof.
  unfold count_speech. induction 1 as [|f sil Hf _ IH]; [reflexivity|].
  cbn [List.filter]. rewrite (non_speech_speechb _ _ Hf). exact IH.
Qed.

Lemma count_speech_split (self : AudioBuffer) (l : list bytes) :
  length l = (count_speech self l + count_non_speech self l)%nat.
Proof.
  unfold count_speech, count_non_speech. induction l as [|f l IH]; [reflexivity|].
  cbn [List.filter]. destruct (speechb self f); cbn [negb length]; lia.
Qed.

(** With a positive threshold the gate lets no empty frame through. *)
Lemma speech_nonempty (self : AudioBuffer) (f : bytes) :
  0 < min_energy_threshold self -> speech self f -> f <> [].
Proof.
  intros Hthr Hf ->. unfold speech, classify in Hf. cbn in Hf.
  unfold energy_lt in Hf. cbn in Hf.
  destruct (Z.ltb_spec 0 (min_energy_threshold self)); [|lia].
  destruct (default true (vad_is_speech [] (sample_rate self))); discriminate.
Qed.

Lemma tracks_speaking_eq (self0 : AudioBuffer) (hist pre : list bytes)
    (f0 : bytes) (body sil buf : list bytes) (s r : Z) :
  hist = pre ++ (f0 :: body) ++ sil ->
  speech self0 f0 ->
  Forall (non_speech self0) sil ->
  buf = (f0 :: body) ++ sil ->
  s = Z.of_nat (length sil) ->
  r = Z.of_nat (count_speech self0 (f0 :: body)) ->
  r < max_recording_frames self0 ->
  tracks self0 hist (update self0 buf true s r).
Proof. intros -> Hf0 Hsil -> -> -> Hr. econstructor; eauto. Qed.

(** One call of [add_frame] keeps the object in a tracked state, and what it
    returns is a well-formed utterance. *)
Lemma add_frame_tracks (self0 self self' : AudioBuffer) (hist : list bytes)
    (f : bytes) (out : option bytes) :
  tracks self0 hist self ->
  add_frame self f = Ok (self', out) ->
  tracks self0 (hist ++ [f]) self' /\
  (forall u, out = Some u -> emitted self0 (hist ++ [f]) f u).
Proof.
  intros Htr Hadd.
  destruct (classify (sample_rate self0) (min_energy_threshold self0) f)
    as [[|]|e] eqn:Hc.
  - (* a speech frame *)
    destruct Htr as [|pre f0 body sil Hhist Hf0 Hsil Hr].
    + unfold reset in Hadd. apply (add_frame_speech_returned self0 _ _ _ _ f _ Hc) in Hadd.
      cbv beta iota zeta in Hadd.
      destruct (Z.leb_spec (max_recording_frames self0) (0 + 1));
        injection Hadd as <- <-.
      * split; [constructor|]. intros u [= <-].
        exists hist, f, []. repeat split; trivial.
        -- intros _. rewrite (count_speech_cons _ _ _ Hc). cbn. lia.
        -- intros Hn. destruct (speech_not_non_speech _ _ Hc Hn).
      * split; [|discriminate].
        apply (tracks_speaking_eq self0 _ hist f [] []); trivial.
        rewrite (count_speech_cons _ _ _ Hc). cbn. lia.
    + apply (add_frame_speech_returned self0 _ _ _ _ f _ Hc) in Hadd.
      cbv beta iota zeta in Hadd.
      pose proof (count_speech_cons self0 f0 body Hf0) as Hcount.
      assert (Hall : count_speech self0 (f0 :: body ++ sil ++ [f]) =
                     S (count_speech self0 (f0 :: body))).
      { change (f0 :: body ++ sil ++ [f]) with ((f0 :: body) ++ sil ++ [f]).
        rewrite !count_speech_app, (count_speech_silence _ _ Hsil).
        rewrite (count_speech_cons _ f [] Hc). cbn. lia. }
      destruct (Z.leb_spec (max_recording_frames self0)
                  (Z.of_nat (count_speech self0 (f0 :: body)) + 1));
        injection Hadd as <- <-.
      * split; [constructor|]. intros u [= <-].
        exists pre, f0, (body ++ sil ++ [f]). repeat split; trivial.
        -- rewrite Hhist, <- !app_assoc. reflexivity.
        -- rewrite <- app_assoc. reflexivity.
        -- intros _. rewrite Hall. lia.
        -- intros Hn. destruct (speech_not_non_speech _ _ Hc Hn).
      * split; [|discriminate].
        apply (tracks_speaking_eq self0 _ pre f0 (body ++ sil ++ [f]) []); trivial;
          rewrite ?Hhist, ?app_nil_r, ?Hall, <- ?app_assoc; cbn [app];
          rewrite <- ?app_assoc; try reflexivity; lia.
  - (* a non-speech frame *)
    destruct Htr as [|pre f0 body sil Hhist Hf0 Hsil Hr].
    + rewrite (add_frame_idle_non_speech (reset self0) f eq_refl Hc) in Hadd.
      injection Hadd as <- <-. split; [constructor|discriminate].
    + apply (add_frame_non_speech_returned self0 _ _ _ f _ Hc) in Hadd.
      destruct (Z.leb_spec (max_silence_frames self0) (Z.of_nat (length sil) + 1));
        injection Hadd as <- <-.
      * split; [constructor|]. intros u [= <-].
        exists pre, f0, (body ++ sil ++ [f]). repeat split; trivial.
        -- rewrite Hhist, <- !app_assoc. reflexivity.
        -- rewrite <- app_assoc. reflexivity.
        -- intros Hs. destruct (speech_not_non_speech _ _ Hs Hc).
        -- intros _. cbn [length]. rewrite !length_app. cbn [length]. lia.
      * split; [|discriminate].
        apply (tracks_speaking_eq self0 _ pre f0 body (sil ++ [f])); trivial;
          [ rewrite Hhist, <- !app_assoc; reflexivity
          | apply Forall_app; split; [assumption|];
            constructor; [assumption|constructor]
          | rewrite <- !app_assoc; reflexivity
          | rewrite length_app; cbn [length]; lia ].
  - (* the frame cannot be decoded *)
    exfalso. unfold add_frame in Hadd.
    replace (classify (sample_rate self) (min_energy_threshold self) f)
      with (@Raise bool e) in Hadd; [discriminate|].
    destruct Htr; symmetry; exact Hc.
Qed.

Lemma feed_snoc (self self' : AudioBuffer) (hist : list bytes) (f : bytes)
    (outs' : list (option bytes)) :
  feed self (hist ++ [f]) = Ok (self', outs') ->
  exists self1 outs out,
    feed self hist = Ok (self1, outs) /\
    add_frame self1 f = Ok (self', out) /\
    outs' = outs ++ [out].
Proof.
  rewrite feed_app.
  destruct (feed self hist) as [[self1 outs]|e]; cbn [bind feed]; [|discriminate].
  destruct (add_frame self1 f) as [[self2 out]|e] eqn:Hadd; cbn [bind];
    [|discriminate].
  intros [= <- <-]. exists self1, outs, out. repeat split. exact Hadd.
Qed.

Lemma feed_length (self self' : AudioBuffer) (frames : list bytes)
    (outs : list (option bytes)) :
  feed self frames = Ok (self', outs) -> length outs = length frames.
Proof.
  revert self self' outs; induction frames as [|f frames IH];
    intros self self' outs; cbn [feed].
  - intros [= <- <-]. reflexivity.
  - destruct (add_frame self f) as [[self1 out]|e]; cbn [bind]; [|discriminate].
    destruct (feed self1 frames) as [[self2 outs2]|e] eqn:Hfeed; cbn [bind];
      [|discriminate].
    intros [= <- <-]. cbn [length]. f_equal. exact (IH _ _ _ Hfeed).
Qed.

(** Every state reached from an idle object is tracked, and every utterance
    returned on the way is well formed. *)
Lemma feed_tracks (self0 self : AudioBuffer) (frames : list bytes)
    (outs : list (option bytes)) :
  feed (reset self0) frames = Ok (self, outs) ->
  tracks self0 frames self /\
  (forall (i : nat) (u f : bytes),
     outs !! i = Some (Some u) -> frames !! i = Some f ->
     emitted self0 (take (S i) frames) f u).
Proof.
  revert self outs; induction frames as [|f hist IH] using rev_ind;
    intros self outs Hfeed.
  - injection Hfeed as <- <-. split; [constructor|]. intros i u f Hi. discriminate.
  - apply feed_snoc in Hfeed as (self1 & outs1 & out & Hhist & Hadd & ->).
    pose proof (feed_length _ _ _ _ Hhist) as Hlen.
    destruct (IH _ _ Hhist) as [Htr Hem].
    destruct (add_frame_tracks _ _ _ _ _ _ Htr Hadd) as [Htr' Hout].
    split; [exact Htr'|]. intros i u g Hi Hg.
    destruct (Nat.lt_trichotomy i (length hist)) as [Hlt|[->|Hgt]].
    + rewrite lookup_app_l in Hi by lia. rewrite lookup_app_l in Hg by lia.
      rewrite take_app_le by lia. exact (Hem _ _ _ Hi Hg).
    + rewrite <- Hlen in Hi. rewrite list_lookup_middle in Hi by reflexivity.
      rewrite list_lookup_middle in Hg by reflexivity.
      injection Hi as Hi. injection Hg as <-.
      rewrite take_ge by (rewrite length_app; cbn [length]; lia).
      exact (Hout _ Hi).
    + rewrite lookup_ge_None_2 in Hg by (rewrite length_app; cbn [length]; lia).
      discriminate.
Qed.

(** C6.  A frame that the detector reports as speech, but whose RMS energy
    is below [min_energy_threshold], is classified as non-speech; fed to an
    object that is not speaking, it returns [None] and leaves the object as
    it was, so it never starts an utterance. *)
Theorem low_energy_speech_is_gated (self : AudioBuffer) (frame : bytes)
    (e : energy) :
  vad_is_speech frame (sample_rate self) = Some true ->
  _calculate_energy frame = Ok e ->
  energy_lt e (min_energy_threshold self) = true ->
  non_speech self frame /\
  (is_speaking self = false -> add_frame self frame = Ok (self, None)).
Proof.
  intros Hvad He Hlt.
  assert (Hns : non_speech self frame).
  { unfold non_speech, classify. rewrite Hvad, He. cbn. rewrite Hlt. reflexivity. }
  split; [exact Hns|].
  intros Hs. apply add_frame_idle_non_speech; assumption.
Qed.

(** C1, amended.  Fed to an idle object whose sample rate is not zero: any
    number of non-speech frames, then a run of at least one and fewer than
    [max_recording_frames] speech frames, then [max_silence_frames]
    non-speech frames, then any further non-speech frames.  [add_frame]
    returns exactly one utterance, on the frame that completes the silence
    run; it is the concatenation of the frames from the first speech frame
    through that frame, so its length is the sum of their lengths; and the
    object is idle again from then on. *)
Theorem silence_end_returns_one_utterance (self : AudioBuffer)
    (pre sp sil extra : list bytes) :
  sample_rate self <> 0 ->
  idle self ->
  Forall (non_speech self) pre ->
  Forall (speech self) sp -> sp <> [] ->
  Z.of_nat (length sp) < max_recording_frames self ->
  Forall (non_speech self) sil ->
  Z.of_nat (length sil) = max_silence_frames self ->
  0 < max_silence_frames self ->
  Forall (non_speech self) extra ->
  feed self (pre ++ sp ++ sil ++ extra) =
    Ok (reset self,
        replicate (length pre + length sp + length sil - 1) None ++
        Some (join (sp ++ sil)) :: replicate (length extra) None) /\
  length (join (sp ++ sil)) = list_sum (map length (sp ++ sil)) /\
  idle (reset self).
Proof.
  intros Hrate Hidle Hpre Hsp Hne Hcap Hsil Hlen Hpos Hextra.
  split; [|split; [apply length_concat|apply idle_reset]].
  assert (Hs : is_speaking self = false) by apply Hidle.
  rewrite feed_app, (feed_idle_non_speech _ _ Hs Hpre). cbn [bind].
  rewrite app_assoc, feed_app.
  rewrite (feed_speech_then_silence _ _ _ Hrate Hidle Hsp Hne Hcap Hsil Hlen Hpos).
  cbn [bind].
  rewrite (feed_idle_non_speech (reset self) extra eq_refl Hextra). cbn [bind].
  do 2 f_equal.
  assert (length sp <> 0%nat) by (destruct sp; [congruence|discriminate]).
  replace (length pre + length sp + length sil - 1)%nat
    with (length pre + (length sp + length sil - 1))%nat by lia.
  rewrite replicate_add, <- !app_assoc. reflexivity.
Qed.


(** C8.  Whatever frames an idle object with a positive energy threshold
    is fed, no utterance it returns is empty; and an utterance returned on a
    non-speech frame (the end of speech) is the concatenation of the last
    frames fed, at least [1 + max_silence_frames] of them, hence that many
    times [frame_size] bytes when every frame has that size. *)
Theorem returned_utterance_is_not_empty (self self' : AudioBuffer)
    (frames : list bytes) (outs : list (option bytes)) (i : nat) (u : bytes) :
  idle self ->
  0 < min_energy_threshold self ->
  feed self frames = Ok (self', outs) ->
  outs !! i = Some (Some u) ->
  u <> [] /\
  (forall f, frames !! i = Some f -> non_speech self f ->
     exists pre chunk,
       take (S i) frames = pre ++ chunk /\ u = join chunk /\
       1 + max_silence_frames self <= Z.of_nat (length chunk) /\
       forall frame_size : nat,
         Forall (fun g => length g = frame_size) frames ->
         (1 + max_silence_frames self) * Z.of_nat frame_size
           <= Z.of_nat (length u)).
Proof.
  intros Hidle Hthr Hfeed Hi.
  rewrite <- (reset_idle _ Hidle) in Hfeed.
  destruct (feed_tracks _ _ _ _ Hfeed) as [_ Hem].
  assert (Hf : is_Some (frames !! i)).
  { apply lookup_lt_is_Some. rewrite <- (feed_length _ _ _ _ Hfeed).
    apply lookup_lt_is_Some. eauto. }
  destruct Hf as [f Hf].
  destruct (Hem _ _ _ Hi Hf) as (pre & f0 & rest & Htake & Hf0 & -> & _ & Hsil).
  split.
  - pose proof (speech_nonempty _ _ Hthr Hf0) as Hne.
    unfold join. cbn [concat]. destruct f0; [congruence|discriminate].
  - intros g Hg Hns. rewrite Hf in Hg. injection Hg as <-.
    specialize (Hsil Hns).
    exists pre, (f0 :: rest). repeat split; trivial.
    intros frame_size Hsize.
    apply (Forall_take _ (S i)) in Hsize. rewrite Htake in Hsize.
    apply Forall_app in Hsize as [_ Hchunk].
    rewrite (length_join_uniform _ _ Hchunk). nia.
Qed.

(** C9.  Fed frames of [frame_size] bytes from the idle state, an utterance
    returned on a speech frame (the forced cutoff) is the concatenation of
    the last frames fed, of which exactly [max_recording_frames] (one, when
    the cap is below one) are speech frames; the non-speech frames buffered
    between them are not counted, so the utterance holds at least
    [max_recording_frames * frame_size] bytes, and more as soon as one
    non-speech frame is among them. *)
Theorem forced_cutoff_counts_speech_only (self self' : AudioBuffer)
    (frames : list bytes) (outs : list (option bytes)) (i : nat) (u f : bytes)
    (frame_size : nat) :
  idle self ->
  Forall (fun g => length g = frame_size) frames ->
  feed self frames = Ok (self', outs) ->
  outs !! i = Some (Some u) ->
  frames !! i = Some f ->
  speech self f ->
  exists pre chunk,
    take (S i) frames = pre ++ chunk /\ u = join chunk /\
    Z.of_nat (count_speech self chunk) = Z.max 1 (max_recording_frames self) /\
    Z.of_nat (length u) =
      (Z.of_nat (count_speech self chunk) + Z.of_nat (count_non_speech self chunk))
      * Z.of_nat frame_size /\
    max_recording_frames self * Z.of_nat frame_size <= Z.of_nat (length u) /\
    ((0 < count_non_speech self chunk)%nat -> (0 < frame_size)%nat ->
     max_recording_frames self * Z.of_nat frame_size < Z.of_nat (length u)).
Proof.
  intros Hidle Hsize Hfeed Hi Hf Hsp.
  rewrite <- (reset_idle _ Hidle) in Hfeed.
  destruct (feed_tracks _ _ _ _ Hfeed) as [_ Hem].
  destruct (Hem _ _ _ Hi Hf) as (pre & f0 & rest & Htake & Hf0 & -> & Hcap & _).
  specialize (Hcap Hsp).
  assert (Hlen : length (join (f0 :: rest)) = (length (f0 :: rest) * frame_size)%nat).
  { assert (Hchunk : Forall (fun g => length g = frame_size) (f0 :: rest)).
    { apply (Forall_take _ (S i)) in Hsize. rewrite Htake in Hsize.
      apply Forall_app in Hsize. apply Hsize. }
    exact (length_join_uniform _ _ Hchunk). }
  pose proof (count_speech_split self (f0 :: rest)) as Hsplit.
  exists pre, (f0 :: rest). repeat split; trivial.
  - rewrite Hlen. lia.
  - rewrite Hlen. nia.
  - intros Hns Hfs. rewrite Hlen. nia.
Qed.

End SegmenterFacts.

Section SegmenterExamples.

Import Segmenter.

Lemma loud_is_speech : speech (H := vad_rejects) fresh loud.
Proof. reflexivity. Qed.

Lemma quiet_is_non_speech : non_speech (H := vad_rejects) fresh quiet.
Proof. reflexivity. Qed.

Lemma low_energy_speech_is_gated_witness :
  non_speech (H := vad_flags) fresh soft /\
  (is_speaking fresh = false ->
   add_frame (H := vad_flags) fresh soft = Ok (fresh, None)).
Proof.
  apply (low_energy_speech_is_gated (H := vad_flags) fresh soft (Energy 20000 2));
    reflexivity.
Defined.

Lemma silence_end_returns_one_utterance_witness :
  feed (H := vad_rejects) fresh
       ([quiet] ++ [loud; loud] ++ replicate 30 quiet ++ [quiet]) =
    Ok (reset fresh,
        replicate (1 + 2 + 30 - 1) None ++
        Some (join ([loud; loud] ++ replicate 30 quiet)) :: replicate 1 None) /\
  length (join ([loud; loud] ++ replicate 30 quiet)) =
    list_sum (map length ([loud; loud] ++ replicate 30 quiet)) /\
  idle (reset fresh).
Proof.
  apply (silence_end_returns_one_utterance (H := vad_rejects) fresh
           [quiet] [loud; loud] (replicate 30 quiet) [quiet]).
  - discriminate.
  - repeat split.
  - repeat constructor.
  - repeat constructor.
  - discriminate.
  - vm_compute; reflexivity.
  - apply Forall_replicate; reflexivity.
  - reflexivity.
  - vm_compute; reflexivity.
  - repeat constructor.
Defined.

(** C1, as stated, fails on a speech run that reaches the recording cap:
    1000 speech frames and then 30 non-speech frames, fed to the fresh
    object.  The utterance is returned on frame 1000 and holds the speech
    frames only; the frame that completes the silence run returns nothing. *)
Lemma capped_run_is_cut_before_the_silence :
  let sp := replicate 1000 loud in
  let sil := replicate 30 quiet in
  Forall (speech (H := vad_rejects) fresh) sp /\
  Forall (non_speech (H := vad_rejects) fresh) sil /\
  Z.of_nat (length sil) = max_silence_frames fresh /\
  feed (H := vad_rejects) fresh (sp ++ sil) =
    Ok (fresh, replicate 999 None ++ Some (join sp) :: replicate 30 None) /\
  feed (H := vad_rejects) fresh (sp ++ sil) <>
    Ok (fresh, replicate 1029 None ++ [Some (join (sp ++ sil))]).
Proof.
  intros sp sil.
  assert (Hfeed : feed (H := vad_rejects) fresh (sp ++ sil) =
            Ok (fresh, replicate 999 None ++ Some (join sp) :: replicate 30 None))
    by (vm_compute; reflexivity).
  split; [|split; [|split; [|split]]].
  - apply Forall_replicate; reflexivity.
  - apply Forall_replicate; reflexivity.
  - reflexivity.
  - exact Hfeed.
  - rewrite Hfeed. intros Heq.
    assert (Hl : (replicate 999 None ++ Some (join sp) :: replicate 30 None)
                   !! 1029%nat =
                 (replicate 1029 None ++ [Some (join (sp ++ sil))]) !! 1029%nat)
      by congruence.
    vm_compute in Hl. discriminate.
Qed.



Lemma returned_utterance_is_not_empty_witness :
  join (loud :: replicate 30 quiet) <> [] /\
  (forall f, (loud :: replicate 30 quiet) !! 30%nat = Some f ->
     non_speech (H := vad_rejects) fresh f ->
     exists pre chunk,
       take 31 (loud :: replicate 30 quiet) = pre ++ chunk /\
       join (loud :: replicate 30 quiet) = join chunk /\
       1 + max_silence_frames fresh <= Z.of_nat (length chunk) /\
       forall frame_size : nat,
         Forall (fun g => length g = frame_size) (loud :: replicate 30 quiet) ->
         (1 + max_silence_frames fresh) * Z.of_nat frame_size
           <= Z.of_nat (length (join (loud :: replicate 30 quiet)))).
Proof.
  apply (returned_utterance_is_not_empty (H := vad_rejects) fresh fresh
           (loud :: replicate 30 quiet)
           (replicate 30 None ++ [Some (join (loud :: replicate 30 quiet))])
           30 (join (loud :: replicate 30 quiet))).
  - repeat split.
  - vm_compute; reflexivity.
  - vm_compute; reflexivity.
  - reflexivity.
Defined.

Lemma forced_cutoff_counts_speech_only_witness :
  let frames := [loud; quiet] ++ replicate 999 loud in
  exists pre chunk,
    take 1001 frames = pre ++ chunk /\ join frames = join chunk /\
    Z.of_nat (count_speech (H := vad_rejects) fresh chunk) =
      Z.max 1 (max_recording_frames fresh) /\
    Z.of_nat (length (join frames)) =
      (Z.of_nat (count_speech (H := vad_rejects) fresh chunk) +
       Z.of_nat (count_non_speech (H := vad_rejects) fresh chunk)) * Z.of_nat 4 /\
    max_recording_frames fresh * Z.of_nat 4 <= Z.of_nat (length (join frames)) /\
    ((0 < count_non_speech (H := vad_rejects) fresh chunk)%nat -> (0 < 4)%nat ->
     max_recording_frames fresh * Z.of_nat 4 < Z.of_nat (length (join frames))).
Proof.
  intros frames.
  apply (forced_cutoff_counts_speech_only (H := vad_rejects) fresh fresh frames
           (replicate 1000 None ++ [Some (join frames)]) 1000 (join frames) loud 4).
  - repeat split.
  - apply Forall_app; split; [repeat constructor|].
    apply Forall_replicate; reflexivity.
  - vm_compute; reflexivity.
  - reflexivity.
  - reflexivity.
  - reflexivity.
Defined.

End SegmenterExamples.

(** ** The command matcher *)

Section MatcherFacts.

Import PyStr Dispatcher Matcher.
Local Open Scope string_scope.

(** The first command whose pattern matches is the one executed. *)
Lemma first_match_found (text_clean p : string) (c : command)
    (before rest : list command) :
  Forall (fun b => exists q, pattern b = Some q /\ matches text_clean q = false)
         before ->
  pattern c = Some p -> matches text_clean p = true ->
  first_match text_clean (before ++ c :: rest) = Ok (Some c).
Proof.
  intros Hbefore Hp Hm. induction Hbefore as [|b before (q & Hq & Hno) _ IH].
  - cbn [app first_match]. rewrite Hp, Hm. reflexivity.
  - cbn [app first_match]. rewrite Hq, Hno. exact IH.
Qed.

(** Without a matching pattern there is no command to execute. *)
Lemma first_match_none (text_clean : string) (commands : list command) :
  Forall (fun b => exists q, pattern b = Some q /\ matches text_clean q = false)
         commands ->
  first_match text_clean commands = Ok None.
Proof.
  induction 1 as [|b commands (q & Hq & Hno) _ IH]; [reflexivity|].
  cbn [first_match]. rewrite Hq, Hno. exact IH.
Qed.

(** The two transcripts of the specification. *)
Lemma light_on_in_order :
  match_transcript "please turn light on now" [rule "light on"] =
    Ok (Some (rule "light on")) /\
  match_transcript "please turn light on now" [rule "on light"] = Ok None.
Proof. split; vm_compute; reflexivity. Qed.

(** A pattern that repeats a word matches a transcript that says it once:
    the two positions found are equal, and [sorted] keeps them as they are. *)
Lemma repeated_pattern_word_matches_once :
  match_transcript "light on" [rule "light light on"] =
    Ok (Some (rule "light light on")) /\
  ~ sublist (split (normalize "light light on")) (split (normalize "light on")).
Proof.
  split; [vm_compute; reflexivity|].
  vm_compute. intros Hs. apply sublist_length in Hs. cbn in Hs. lia.
Qed.

(** C3.  On the transcript "light please turn on light" and the single rule
    "turn on light", the words of the pattern are a subsequence of the words
    of the transcript (the last three), so the rule matches as the claim has
    it; [_process_command] looks each word up at its first position, finds
    "light" before "turn", and executes no command. *)
Theorem first_position_hides_an_ordered_match :
  spec_matches "light please turn on light" "turn on light" /\
  match_transcript "light please turn on light" [rule "turn on light"] = Ok None.
Proof.
  split; [|vm_compute; reflexivity].
  right. vm_compute.
  do 2 apply sublist_cons. do 3 apply sublist_skip. apply sublist_nil.
Qed.

End MatcherFacts.

(** ** The transcription client of the add-on *)

Section WyomingFacts.

Import PyStr Wyoming.

(** The response timeout lies between 30 and 60 seconds. *)
Lemma response_timeout_bounds (audio_data : bytes) :
  (30 <= response_timeout audio_data)%Q /\ (response_timeout audio_data <= 60)%Q.
Proof.
  unfold response_timeout. split.
  - apply Q.le_max_l.
  - apply Q.max_lub; [discriminate|apply Q.le_min_l].
Qed.

Lemma timeout_not_passed_at_start (audio_data : bytes) :
  Qltb (response_timeout audio_data) 0 = false.
Proof.
  unfold Qltb. destruct (response_timeout_bounds audio_data) as [Hlo _].
  assert (Hle : (0 <= response_timeout audio_data)%Q)
    by (eapply Qle_trans; [|exact Hlo]; discriminate).
  apply Qle_bool_iff in Hle. rewrite Hle. reflexivity.
Qed.

Lemma write_events_unlimited (events : list event_out) :
  write_events None events = (map Write events, None).
Proof.
  induction events as [|e events IH]; [reflexivity|].
  cbn [write_events fmap option_fmap option_map map]. rewrite IH. reflexivity.
Qed.

(** The loop never returns an empty text. *)
Lemma await_transcript_not_empty (timeout now : Q) (inbox : list (Q * reply))
    (t : string) :
  (await_transcript timeout now inbox).1 = Ok (Some t) -> t <> EmptyString.
Proof.
  revert now; induction inbox as [|[delay r] inbox IH]; intros now; cbn [await_transcript].
  - destruct (Qltb timeout now); discriminate.
  - destruct (Qltb timeout now); [discriminate|].
    destruct (Qle_bool 5 delay); [discriminate|].
    destruct r as [e| |]; [|discriminate|discriminate].
    destruct (String.eqb (type e) "transcript"); [|apply IH].
    destruct (String.eqb_spec (strip (text e)) EmptyString) as [Heq|Hne]; cbn [negb fst].
    + discriminate.
    + intros [= <-]. exact Hne.
Qed.

(** Every path of [send_audio] that does not reach the loop returns [None];
    the others return what the loop gives. *)
Lemma send_audio_value (audio_data : bytes) (sample_rate sample_width channels : Z)
    (srv : server) :
  value (send_audio audio_data sample_rate sample_width channels srv) = None \/
  Ok (value (send_audio audio_data sample_rate sample_width channels srv)) =
    (await_transcript (response_timeout audio_data) 0 (inbox srv)).1.
Proof.
  unfold send_audio. destruct (accepts srv); cbn [negb]; [|left; reflexivity].
  destruct (outgoing _ _ _ _) as [events stopped].
  destruct (write_events _ _) as [written raised].
  destruct raised, stopped; try (left; reflexivity).
  destruct (await_transcript _ _ _) as [[v|e] t]; cbn [value fst].
  - right; reflexivity.
  - left; reflexivity.
Qed.

(** Whatever the audio, a server that never replies is given up after five
    seconds at most, before the response timeout. *)
Lemma silent_server_is_given_up_early (audio_data : bytes)
    (sample_rate sample_width channels : Z) :
  let o := send_audio audio_data sample_rate sample_width channels silent in
  value o = None /\
  (elapsed o <= 5)%Q /\
  (elapsed o < response_timeout audio_data)%Q.
Proof.
  cbv zeta. unfold send_audio, silent. cbn [accepts negb write_budget inbox].
  destruct (response_timeout_bounds audio_data) as [Hlo _].
  destruct (outgoing _ _ _ _) as [events stopped].
  rewrite write_events_unlimited.
  destruct stopped as [e|]; cbn [value elapsed].
  - repeat split; [discriminate|].
    eapply Qlt_le_trans; [|exact Hlo]. reflexivity.
  - cbn [await_transcript]. rewrite timeout_not_passed_at_start.
    cbn [value elapsed]. repeat split; [discriminate|].
    eapply Qlt_le_trans; [|exact Hlo]. reflexivity.
Qed.

(** C4.  A two-second utterance sent to a server that accepts it and then
    never replies: the response timeout computed from the duration is 30 s,
    but the first [read_event], bounded by [wait_for] to five seconds,
    raises [TimeoutError]; the call returns [None] five seconds after the
    send, not thirty. *)
Theorem silent_server_returns_after_five_seconds :
  let o := send_audio two_seconds 16000 2 1 silent in
  Qeq (response_timeout two_seconds) 30 /\
  value o = None /\
  Qeq (elapsed o) 5 /\
  Qlt (elapsed o) 30.
Proof. cbv zeta. repeat apply conj; vm_compute; reflexivity. Qed.

(** C10.  [send_audio] never returns the empty string; when the first reply
    of the server is a transcript whose text is empty once stripped, it
    returns [None]. *)
Theorem empty_transcript_is_none (audio_data : bytes)
    (sample_rate sample_width channels : Z) (srv : server) :
  value (send_audio audio_data sample_rate sample_width channels srv)
    <> Some EmptyString /\
  (forall (delay : Q) (e : event_in) (rest : list (Q * reply)),
     inbox srv = (delay, Event e) :: rest ->
     type e = "transcript"%string ->
     strip (text e) = EmptyString ->
     value (send_audio audio_data sample_rate sample_width channels srv) = None).
Proof.
  pose proof (send_audio_value audio_data sample_rate sample_width channels srv)
    as Hvalue.
  split.
  - destruct Hvalue as [->|Hloop]; [discriminate|].
    intros Hempty. rewrite Hempty in Hloop. symmetry in Hloop.
    exact (await_transcript_not_empty _ _ _ _ Hloop eq_refl).
  - intros delay e rest Hinbox Htype Htext.
    destruct Hvalue as [Hnone|Hloop]; [exact Hnone|].
    rewrite Hinbox in Hloop. cbn [await_transcript] in Hloop.
    rewrite timeout_not_passed_at_start, Htype, Htext in Hloop. cbn in Hloop.
    destruct (Qle_bool 5 delay); cbn in Hloop; congruence.
Qed.

End WyomingFacts.

Lemma empty_transcript_is_none_witness :
  Wyoming.value (Wyoming.send_audio Wyoming.two_seconds 16000 2 1
                   (Wyoming.answers "  "%string)) <> Some EmptyString /\
  Wyoming.value (Wyoming.send_audio Wyoming.two_seconds 16000 2 1
                   (Wyoming.answers "  "%string)) = None.
Proof.
  destruct (empty_transcript_is_none Wyoming.two_seconds 16000 2 1
              (Wyoming.answers "  "%string)) as [Hne Hnone].
  split; [exact Hne|].
  apply (Hnone 1%Q {| Wyoming.type := "transcript"; Wyoming.text := "  " |} []);
    reflexivity.
Defined.

(** ** Connections of the two clients *)

Section ConnectionFacts.

Lemma write_events_are_writes (budget : option nat)
    (events : list Wyoming.event_out) :
  exists written,
    (Wyoming.write_events budget events).1 = map Wyoming.Write written.
Proof.
  revert budget; induction events as [|e events IH]; intros budget.
  - exists []. reflexivity.
  - cbn [Wyoming.write_events].
    destruct (IH (pred <$> budget)) as [written Hw].
    destruct (Wyoming.write_events (pred <$> budget) events) as [ws raised].
    cbn [fst] in Hw. subst ws.
    destruct budget as [[|n]|]; cbn [fst];
      [exists []|exists (e :: written)|exists (e :: written)]; reflexivity.
Qed.

Lemma write_events_raise (n : nat) (events : list Wyoming.event_out) :
  (n < length events)%nat ->
  (Wyoming.write_events (Some n) events).2 = Some OSError.
Proof.
  revert n; induction events as [|e events IH]; intros n Hn; cbn [length] in Hn.
  - lia.
  - cbn [Wyoming.write_events]. destruct n as [|n]; [reflexivity|].
    cbn [fmap option_fmap option_map pred].
    specialize (IH n ltac:(lia)).
    destruct (Wyoming.write_events (Some n) events) as [ws raised].
    exact IH.
Qed.

Lemma send_messages_unlimited (messages : list Legacy.message) :
  Legacy.send_messages true None messages = (map Legacy.SendAll messages, None).
Proof.
  induction messages as [|m messages IH]; [reflexivity|].
  cbn [Legacy.send_messages negb fmap option_fmap option_map map].
  rewrite IH. reflexivity.
Qed.

Lemma send_messages_raise (n : nat) (messages : list Legacy.message) :
  (n < length messages)%nat ->
  Legacy.send_messages true (Some n) messages =
    (map Legacy.SendAll (take n messages), Some OSError).
Proof.
  revert n; induction messages as [|m messages IH]; intros n Hn; cbn [length] in Hn.
  - lia.
  - cbn [Legacy.send_messages negb]. destruct n as [|n]; [reflexivity|].
    cbn [fmap option_fmap option_map pred]. rewrite IH by lia. reflexivity.
Qed.

(** A stream closed, or a message that cannot be decoded, in place of the
    first reply: the call returns [None]. *)
Lemma first_reply_ends_the_call (audio_data : bytes)
    (sample_rate sample_width channels : Z) (srv : Wyoming.server)
    (delay : Q) (r : Wyoming.reply) (rest : list (Q * Wyoming.reply)) :
  Wyoming.inbox srv = (delay, r) :: rest ->
  r = Wyoming.Closed \/ r = Wyoming.Malformed ->
  Wyoming.value
    (Wyoming.send_audio audio_data sample_rate sample_width channels srv) = None.
Proof.
  intros Hin Hr.
  destruct (send_audio_value audio_data sample_rate sample_width channels srv)
    as [Hnone|Hloop]; [exact Hnone|].
  rewrite Hin in Hloop. cbn [Wyoming.await_transcript] in Hloop.
  rewrite timeout_not_passed_at_start in Hloop.
  destruct (Qle_bool 5 delay), Hr as [-> | ->]; cbn in Hloop; congruence.
Qed.

(** C5, amended.  The client of the add-on opens a connection in every
    call and closes it before the call returns, whatever happened in
    between, so that no call finds a connection left by another; a refused
    connection, a write that raises, a stream closed before the transcript
    and a message that cannot be decoded all make the call return [None].
    The client of [app.py] keeps its socket: a call that sends everything and
    gets a transcript leaves it open, opening and closing nothing; a send
    that raises closes it and returns [None]; and a call made without a
    socket starts by creating one and connecting it. *)
Theorem connection_per_call_and_kept_socket (audio_data : bytes)
    (sample_rate sample_width channels : Z)
    (srv : Wyoming.server) (old : Legacy.server) :
  let o := Wyoming.send_audio audio_data sample_rate sample_width channels srv in
  let events := (Wyoming.outgoing audio_data sample_rate sample_width channels).1 in
  let messages := Legacy.outgoing audio_data sample_rate sample_width channels in
  let call := fun socket =>
    Legacy.send_audio {| Legacy.socket := socket |} audio_data sample_rate
                      sample_width channels old in
  (Wyoming.accepts srv = true ->
   exists written,
     Wyoming.wire o =
       Wyoming.Connect :: map Wyoming.Write written ++ [Wyoming.Disconnect]) /\
  (Wyoming.accepts srv = false \/
   (exists n, Wyoming.write_budget srv = Some n /\ (n < length events)%nat) \/
   (exists delay rest, Wyoming.inbox srv = (delay, Wyoming.Closed) :: rest) \/
   (exists delay rest, Wyoming.inbox srv = (delay, Wyoming.Malformed) :: rest) ->
   Wyoming.value o = None) /\
  (forall text,
     Legacy.send_budget old = None ->
     Legacy.answer old = Legacy.Object (Some "transcript"%string) text ->
     call (Some true) =
       ({| Legacy.socket := Some true |}, Some (default EmptyString text),
        map Legacy.SendAll messages ++ [Legacy.Recv])) /\
  (forall n,
     Legacy.send_budget old = Some n -> (n < length messages)%nat ->
     call (Some true) =
       ({| Legacy.socket := None |}, None,
        map Legacy.SendAll (take n messages) ++ [Legacy.Close])) /\
  (Legacy.accepts old = true ->
   exists rest, (call None).2 = Legacy.NewSocket :: Legacy.Connected :: rest).
Proof.
  cbv zeta. repeat apply conj.
  - (* a connection of its own, opened and closed *)
    intros Hacc. unfold Wyoming.send_audio. rewrite Hacc. cbn [negb].
    destruct (Wyoming.outgoing _ _ _ _) as [events stopped].
    destruct (write_events_are_writes (Wyoming.write_budget srv) events)
      as [written Hw].
    destruct (Wyoming.write_events _ _) as [ws raised]. cbn [fst] in Hw. subst ws.
    exists written.
    destruct raised, stopped; try reflexivity.
    destruct (Wyoming.await_transcript _ _ _) as [r t]. reflexivity.
  - (* transport errors return None *)
    intros [Hacc|[(n & Hn & Hlt)|[(delay & rest & Hin)|(delay & rest & Hin)]]].
    + unfold Wyoming.send_audio. rewrite Hacc. reflexivity.
    + unfold Wyoming.send_audio. destruct (Wyoming.accepts srv); [|reflexivity].
      cbn [negb].
      destruct (Wyoming.outgoing _ _ _ _) as [events stopped]. cbn [fst] in Hlt.
      pose proof (write_events_raise n events Hlt) as Hraise. rewrite Hn.
      destruct (Wyoming.write_events _ _) as [ws raised]. cbn [snd] in Hraise.
      subst raised. reflexivity.
    + apply (first_reply_ends_the_call _ _ _ _ _ delay Wyoming.Closed rest Hin).
      left; reflexivity.
    + apply (first_reply_ends_the_call _ _ _ _ _ delay Wyoming.Malformed rest Hin).
      right; reflexivity.
  - (* the socket is kept by a call that succeeds *)
    intros text Hbudget Hanswer. unfold Legacy.send_audio.
    cbn [Legacy.socket negb default]. unfold default.
    rewrite Hbudget, send_messages_unlimited, Hanswer.
    rewrite bool_decide_eq_true_2 by reflexivity. reflexivity.
  - (* a send that raises closes the socket *)
    intros n Hbudget Hlt. unfold Legacy.send_audio.
    cbn [Legacy.socket negb default]. unfold default.
    rewrite Hbudget, send_messages_raise by exact Hlt.
    reflexivity.
  - (* without a socket the call connects first *)
    intros Hacc. unfold Legacy.send_audio, Legacy.connect.
    cbn [Legacy.socket]. rewrite Hacc. cbn [negb Legacy.socket default].
    destruct (Legacy.send_messages _ _ _) as [sent [e|]].
    + eexists. reflexivity.
    + destruct (Legacy.answer old) as [| |ty tx|[|]]; try (eexists; reflexivity).
      destruct (bool_decide _); eexists; reflexivity.
Qed.

End ConnectionFacts.

Section ConnectionExamples.

Import Wyoming.

Lemma connection_per_call_and_kept_socket_witness :
  (exists written,
     wire (send_audio two_seconds 16000 2 1 closes_early) =
       Connect :: map Write written ++ [Disconnect]) /\
  value (send_audio two_seconds 16000 2 1 closes_early) = None /\
  Legacy.send_audio {| Legacy.socket := Some true |} two_seconds 16000 2 1
                    (Legacy.healthy "turn on light") =
    ({| Legacy.socket := Some true |}, Some "turn on light"%string,
     map Legacy.SendAll (Legacy.outgoing two_seconds 16000 2 1) ++ [Legacy.Recv]) /\
  Legacy.send_audio {| Legacy.socket := Some true |} two_seconds 16000 2 1
                    (Legacy.breaks_after 1) =
    ({| Legacy.socket := None |}, None,
     map Legacy.SendAll (take 1 (Legacy.outgoing two_seconds 16000 2 1))
       ++ [Legacy.Close]) /\
  (exists rest,
     (Legacy.send_audio {| Legacy.socket := None |} two_seconds 16000 2 1
                        (Legacy.healthy "turn on light")).2 =
       Legacy.NewSocket :: Legacy.Connected :: rest).
Proof.
  destruct (connection_per_call_and_kept_socket two_seconds 16000 2 1
              closes_early (Legacy.healthy "turn on light"))
    as (Hown & Hnone & Hkept & _ & Hfresh).
  destruct (connection_per_call_and_kept_socket two_seconds 16000 2 1
              closes_early (Legacy.breaks_after 1))
    as (_ & _ & _ & Hclosed & _).
  repeat apply conj.
  - apply Hown. reflexivity.
  - apply Hnone. right; right; left. exists 1%Q, []. reflexivity.
  - apply (Hkept (Some "turn on light"%string)); reflexivity.
  - apply (Hclosed 1%nat); [reflexivity|vm_compute; lia].
  - apply Hfresh. reflexivity.
Defined.

(** The client of [app.py] after the peer has closed the stream instead of
    answering: [_receive_message] returns [None] and the socket stays. *)
Lemma legacy_client_keeps_the_socket_after_a_hang_up :
  Legacy.send_audio {| Legacy.socket := Some true |} two_seconds 16000 2 1
                    Legacy.hangs_up =
    ({| Legacy.socket := Some true |}, None,
     map Legacy.SendAll (Legacy.outgoing two_seconds 16000 2 1) ++ [Legacy.Recv]).
Proof. vm_compute; reflexivity. Qed.

(** C5, as stated, fails on the client of the add-on: two calls in a row to
    a server that answers each of them.  The first call returns the
    transcript and still ends by closing its connection; the second begins
    by opening another. *)
Lemma addon_client_reconnects_for_every_call :
  let first := send_audio two_seconds 16000 2 1 (answers "turn on light") in
  let second := send_audio two_seconds 16000 2 1 (answers "turn on light") in
  value first = Some "turn on light"%string /\
  last (wire first) = Some Disconnect /\
  head (wire second) = Some Connect.
Proof. vm_compute. repeat apply conj; reflexivity. Qed.

End ConnectionExamples.

(** ** The action dispatcher *)

Section DispatcherFacts.

Import PyStr Dispatcher Requests.
Local Open Scope string_scope.
Context `{Http} `{Json}.

Lemma get_token_truthy (environ : gmap string string) :
  truthy (get_token environ) =
    present environ "SUPERVISOR_TOKEN" || present environ "HASSIO_TOKEN".
Proof.
  unfold get_token, present.
  destruct (truthy (environ !! "SUPERVISOR_TOKEN")) eqn:Hs; cbn [negb orb];
    [exact Hs|reflexivity].
Qed.

(** The token [_execute_action] takes is the credential of the
    specification whenever it is one the action can be sent with. *)
Lemma get_token_spec_credential (environ : gmap string string) :
  (truthy (get_token environ) = true ->
   get_token environ = spec_credential environ) /\
  (truthy (get_token environ) = false -> spec_credential environ = None).
Proof.
  unfold get_token, spec_credential, first_present, present.
  destruct (truthy (environ !! "SUPERVISOR_TOKEN")) eqn:Hs; cbn [negb].
  - split; [reflexivity|]. intros Hno. rewrite Hs in Hno. discriminate.
  - split; intros Hh; rewrite Hh; reflexivity.
Qed.

Lemma spec_credential_truthy (environ : gmap string string) (token : string) :
  spec_credential environ = Some token ->
  get_token environ = Some token /\ truthy (Some token) = true.
Proof.
  intros Hspec. destruct (get_token_spec_credential environ) as [Hyes Hno].
  destruct (truthy (get_token environ)) eqn:Htoken.
  - rewrite <- (Hyes eq_refl) in Hspec. rewrite Hspec in Htoken. auto.
  - rewrite (Hno eq_refl) in Hspec. discriminate.
Qed.

(** [split_dot] cuts at the first dot. *)
Lemma split_dot_Some (s domain service : string) :
  split_dot s = Some (domain, service) ->
  s = domain ++ "." ++ service /\ mem "."%char domain = false.
Proof.
  revert domain; induction s as [|c s IH]; intros domain; cbn [split_dot];
    [discriminate|].
  destruct (Ascii.eqb_spec c "."%char) as [->|Hc].
  - intros [= <- <-]. split; reflexivity.
  - destruct (split_dot s) as [[d sv]|]; [|discriminate].
    intros [= <- <-]. destruct (IH d eq_refl) as [-> Hd].
    split; [reflexivity|]. cbn [mem]. rewrite Hd.
    destruct (Ascii.eqb_spec "."%char c) as [Heq|_]; [congruence|reflexivity].
Qed.

Lemma split_dot_None (s : string) :
  split_dot s = None -> mem "."%char s = false.
Proof.
  induction s as [|c s IH]; cbn [split_dot mem]; [reflexivity|].
  destruct (Ascii.eqb_spec c "."%char) as [->|Hc]; [discriminate|].
  destruct (split_dot s) as [[d sv]|]; [discriminate|].
  intros _. rewrite (IH eq_refl).
  destruct (Ascii.eqb_spec "."%char c) as [Heq|_]; [congruence|reflexivity].
Qed.

Lemma mem_append (c : ascii) (a b : string) :
  mem c (a ++ b) = mem c a || mem c b.
Proof.
  induction a as [|d a IH]; [reflexivity|].
  change (String d a ++ b) with (String d (a ++ b)).
  cbn [mem]. rewrite IH, orb_assoc. reflexivity.
Qed.

Lemma posted_app (a b : list event) : posted (a ++ b) = (posted a ++ posted b)%list.
Proof. apply omap_app. Qed.

(** Every request of [_execute_action] carries the token of [get_token]. *)
Lemma execute_action_requests (environ : gmap string string)
    (action_config : action_config) (req : request) :
  In (HttpPost req) (_execute_action environ action_config) ->
  truthy (get_token environ) = true /\
  authorization req = "Bearer " ++ default EmptyString (get_token environ).
Proof.
  unfold _execute_action, execute_action_body.
  set (token := get_token environ).
  set (warned := if negb (truthy (environ !! "SUPERVISOR_TOKEN"))
                 then [WarnNoSupervisorToken] else []).
  assert (Hwarned : ~ In (HttpPost req) warned)
    by (subst warned; destruct (negb _); cbn; intuition discriminate).
  destruct (truthy token); cbn [negb].
  2:{ rewrite in_app_iff. cbn. intuition discriminate. }
  destruct (action action_config) as [act|].
  2:{ rewrite in_app_iff. cbn. intuition discriminate. }
  destruct (split_dot act) as [[domain service]|].
  2:{ rewrite in_app_iff. cbn. intuition discriminate. }
  match goal with
  | |- context [match ?d with Ok _ => _ | Raise _ => _ end] =>
      destruct d as [data|e]
  end.
  2:{ rewrite in_app_iff. cbn. intuition discriminate. }
  match goal with
  | |- context [post ?r] => set (sent := r); destruct (post sent) as [resp|e]
  end.
  - rewrite in_app_iff. cbn. intros [Hw|[[= <-]|[Hlog|[]]]].
    + destruct (Hwarned Hw).
    + split; reflexivity.
    + destruct (ok resp); discriminate.
  - rewrite !in_app_iff. cbn. intros [[Hw|[[= <-]|[]]]|[Hex|[]]].
    + destruct (Hwarned Hw).
    + split; reflexivity.
    + discriminate.
Qed.

(** An action that names a service, with data that can be read and a token
    to send it with, posts one request, which carries that token. *)
Lemma execute_action_posts (environ : gmap string string)
    (action_config : action_config) (act : string)
    (data : gmap string string) :
  truthy (get_token environ) = true ->
  action action_config = Some act ->
  mem "."%char act = true ->
  match service_data action_config with
  | inl str => json_loads str
  | inr dict => Ok dict
  end = Ok data ->
  exists req,
    posted (_execute_action environ action_config) = [req] /\
    authorization req = "Bearer " ++ default EmptyString (get_token environ).
Proof.
  intros Htoken Hact Hdot Hdata.
  unfold _execute_action, execute_action_body.
  set (warned := if negb (truthy (environ !! "SUPERVISOR_TOKEN"))
                 then [WarnNoSupervisorToken] else []).
  assert (Hwarned : posted warned = [])
    by (subst warned; destruct (negb _); reflexivity).
  rewrite Htoken, Hact. cbn [negb].
  destruct (split_dot act) as [[domain service]|] eqn:Hsplit.
  2:{ rewrite (split_dot_None _ Hsplit) in Hdot. discriminate. }
  rewrite Hdata.
  match goal with
  | |- context [post ?r] => set (sent := r); destruct (post sent) as [resp|e]
  end; exists sent.
  - rewrite posted_app, Hwarned. cbn. destruct (ok resp); split; reflexivity.
  - rewrite !posted_app, Hwarned. split; reflexivity.
Qed.

(** C7.  The credential of an action is read from the environment under
    two names tried in a fixed order, [SUPERVISOR_TOKEN] and then
    [HASSIO_TOKEN], and the first one present is used: an action that names
    a service and whose data can be read sends one request, with that
    credential in its [Authorization] header, and no request is ever sent
    with anything else.  When neither name is present the action sends no
    request: it reports the error and returns, and the actions that follow
    it in the list are executed as usual. *)
Theorem token_is_first_present_variable (environ : gmap string string)
    (action_config : action_config) :
  (forall act data token,
     action action_config = Some act ->
     mem "."%char act = true ->
     match service_data action_config with
     | inl str => json_loads str
     | inr dict => Ok dict
     end = Ok data ->
     spec_credential environ = Some token ->
     exists req,
       posted (_execute_action environ action_config) = [req] /\
       authorization req = "Bearer " ++ token) /\
  (forall req,
     In (HttpPost req) (_execute_action environ action_config) ->
     exists token,
       spec_credential environ = Some token /\
       authorization req = "Bearer " ++ token) /\
  (present environ "SUPERVISOR_TOKEN" = false ->
   present environ "HASSIO_TOKEN" = false ->
   spec_credential environ = None /\
   _execute_action environ action_config = [WarnNoSupervisorToken; ErrNoToken] /\
   forall rest,
     execute_each environ (action_config :: rest) =
       ([WarnNoSupervisorToken; ErrNoToken] ++ execute_each environ rest)%list).
Proof.
  repeat apply conj.
  - intros act data token Hact Hdot Hdata Hspec.
    destruct (spec_credential_truthy _ _ Hspec) as [Hget Htruthy].
    destruct (execute_action_posts environ action_config act data)
      as (req & Hposted & Hauth); trivial.
    { rewrite Hget. exact Htruthy. }
    exists req. split; [exact Hposted|]. rewrite Hauth, Hget. reflexivity.
  - intros req Hin.
    destruct (execute_action_requests _ _ _ Hin) as [Htruthy Hauth].
    destruct (get_token_spec_credential environ) as [Hyes _].
    specialize (Hyes Htruthy).
    destruct (get_token environ) as [token|] eqn:Hget; [|discriminate].
    exists token. split; [symmetry; exact Hyes|exact Hauth].
  - intros Hs Hh.
    assert (Hnone : truthy (get_token environ) = false)
      by (rewrite get_token_truthy, Hs, Hh; reflexivity).
    assert (Hskip : _execute_action environ action_config =
                    [WarnNoSupervisorToken; ErrNoToken]).
    { unfold _execute_action, execute_action_body. rewrite Hnone.
      unfold present in Hs. rewrite Hs. reflexivity. }
    split; [exact (proj2 (get_token_spec_credential environ) Hnone)|].
    split; [exact Hskip|]. intros rest. cbn [execute_each]. rewrite Hskip.
    reflexivity.
Qed.

End DispatcherFacts.

Section DispatcherExamples.

Import Dispatcher Requests.
Local Open Scope string_scope.

Lemma token_is_first_present_variable_witness :
  (exists req,
     posted (_execute_action (H := http_ok) (H0 := json_none)
               {[ "SUPERVISOR_TOKEN" := "abc"; "HASSIO_TOKEN" := "xyz" ]}
               light_on) = [req] /\
     authorization req = "Bearer abc") /\
  (exists req,
     posted (_execute_action (H := http_ok) (H0 := json_none)
               {[ "SUPERVISOR_TOKEN" := ""; "HASSIO_TOKEN" := "xyz" ]}
               light_on) = [req] /\
     authorization req = "Bearer xyz") /\
  _execute_action (H := http_ok) (H0 := json_none) ∅ light_on =
    [WarnNoSupervisorToken; ErrNoToken] /\
  _execute_actions (H := http_ok) (H0 := json_none) ∅
    (Matcher.rule "turn on light") = [WarnNoSupervisorToken; ErrNoToken].
Proof.
  destruct (token_is_first_present_variable (H := http_ok) (H0 := json_none)
              {[ "SUPERVISOR_TOKEN" := "abc"; "HASSIO_TOKEN" := "xyz" ]} light_on)
    as (Hfirst & _ & _).
  destruct (token_is_first_present_variable (H := http_ok) (H0 := json_none)
              {[ "SUPERVISOR_TOKEN" := ""; "HASSIO_TOKEN" := "xyz" ]} light_on)
    as (Hsecond & _ & _).
  destruct (token_is_first_present_variable (H := http_ok) (H0 := json_none)
              ∅ light_on)
    as (_ & _ & Hnone).
  repeat apply conj.
  - apply (Hfirst "light.turn_on" ∅ "abc"); vm_compute; reflexivity.
  - apply (Hsecond "light.turn_on" ∅ "xyz"); vm_compute; reflexivity.
  - apply Hnone; vm_compute; reflexivity.
  - destruct Hnone as (_ & _ & Hrest); [vm_compute; reflexivity ..|].
    exact (Hrest []).
Defined.

End DispatcherExamples.

(** * Further properties of the code *)

(** ** The segmenter: frames, gate and limits *)

Section SegmenterLimits.

Import Segmenter.
Context `{Vad}.

(** Lists taken two items at a time, as [array_h] reads a frame. *)
Lemma pair_induction {A : Type} (P : list A -> Prop) :
  P [] -> (forall a, P [a]) -> (forall a b l, P l -> P (a :: b :: l)) ->
  forall l, P l.
Proof.
  intros Hnil Hone Hstep.
  assert (Hboth : forall l, P l /\ forall a, P (a :: l)).
  { induction l as [|b l [IH1 IH2]]; split; auto. }
  intros l; apply Hboth.
Qed.

Lemma array_h_even (frame : bytes) :
  Nat.even (length frame) = true ->
  exists samples, array_h frame = Ok samples /\
                  (2 * length samples = length frame)%nat.
Proof.
  induction frame as [| a | a b frame IH] using pair_induction; cbn [length].
  - intros _. exists []. split; reflexivity.
  - discriminate.
  - intros Heven. destruct (IH Heven) as (samples & Hs & Hlen).
    exists (int16 a b :: samples). cbn [array_h]. rewrite Hs. cbn [bind length].
    split; [reflexivity|lia].
Qed.

Lemma array_h_odd (frame : bytes) :
  Nat.even (length frame) = false -> array_h frame = Raise ValueError.
Proof.
  induction frame as [| a | a b frame IH] using pair_induction; cbn [length].
  - discriminate.
  - reflexivity.
  - intros Hodd. cbn [array_h]. rewrite (IH Hodd). reflexivity.
Qed.

Lemma add_frame_odd (self : AudioBuffer) (frame : bytes) :
  Nat.even (length frame) = false -> add_frame self frame = Raise ValueError.
Proof.
  intros Hlen. unfold add_frame, classify, _calculate_energy.
  rewrite (array_h_odd _ Hlen). reflexivity.
Qed.

(** On a frame with an even number of bytes [add_frame] returns, keeping
    the sample rate, unless the sample rate is zero and the frame closes an
    utterance: then the division of the duration raises. *)
Lemma add_frame_even_cases (self : AudioBuffer) (frame : bytes) :
  Nat.even (length frame) = true ->
  (exists self' out,
     add_frame self frame = Ok (self', out) /\
     sample_rate self' = sample_rate self) \/
  (add_frame self frame = Raise ZeroDivisionError /\ sample_rate self = 0).
Proof.
  intros Hlen. unfold add_frame, classify, _calculate_energy, duration_seconds.
  destruct (array_h_even _ Hlen) as (samples & -> & _). cbn [bind].
  cbn [sample_rate update reset].
  match goal with |- context [if ?c then _ else _] => destruct c end.
  - destruct (_ <=? _); [|left; eauto].
    destruct (Z.eqb_spec (sample_rate self * 2) 0) as [Hz|_]; cbn [bind];
      [right; split; [reflexivity|lia]|left; eauto].
  - destruct (is_speaking self); [|left; eauto].
    destruct (_ <=? _); [|left; eauto].
    destruct (Z.eqb_spec (sample_rate self * 2) 0) as [Hz|_]; cbn [bind];
      [right; split; [reflexivity|lia]|left; eauto].
Qed.

Lemma add_frame_even (self : AudioBuffer) (frame : bytes) :
  sample_rate self <> 0 ->
  Nat.even (length frame) = true ->
  exists self' out,
    add_frame self frame = Ok (self', out) /\
    sample_rate self' = sample_rate self.
Proof.
  intros Hrate Hlen.
  destruct (add_frame_even_cases self frame Hlen) as [Hok|[_ Hzero]];
    [exact Hok|contradiction].
Qed.

(** X1.  [add_frame] raises [ValueError] on every frame with an odd number
    of bytes, whatever the detector says and whatever the state.  On a
    frame with an even number of bytes it returns when the sample rate is
    not zero; the only other exception it can raise is the
    [ZeroDivisionError] of the duration, on a frame with an even number of
    bytes and for a sample rate of zero. *)
Theorem add_frame_raises_on_odd_frames (self : AudioBuffer) (frame : bytes) :
  (Nat.even (length frame) = false -> add_frame self frame = Raise ValueError) /\
  (Nat.even (length frame) = true -> sample_rate self <> 0 ->
   exists self' out, add_frame self frame = Ok (self', out)) /\
  (forall e, add_frame self frame = Raise e ->
     (e = ValueError /\ Nat.even (length frame) = false) \/
     (e = ZeroDivisionError /\ Nat.even (length frame) = true /\
      sample_rate self = 0)).
Proof.
  split; [apply add_frame_odd|]. split.
  - intros Hlen Hrate.
    destruct (add_frame_even self frame Hrate Hlen) as (self' & out & Hadd & _).
    eauto.
  - intros e Hadd. destruct (Nat.even (length frame)) eqn:Hlen.
    + right.
      destruct (add_frame_even_cases self frame Hlen)
        as [(self' & out & Hok & _)|[Hraise Hzero]].
      * rewrite Hok in Hadd. discriminate.
      * rewrite Hraise in Hadd. injection Hadd as <-. auto.
    + left. rewrite (add_frame_odd self frame Hlen) in Hadd.
      injection Hadd as <-. auto.
Qed.

(** The sum of the squares of samples that are all below the threshold. *)
Lemma sum_squares_below (samples : list Z) (threshold : Z) :
  samples <> [] ->
  Forall (fun s => Z.abs s < threshold) samples ->
  fold_right (fun s acc => s * s + acc) 0 samples
    < threshold * threshold * Z.of_nat (length samples).
Proof.
  intros Hne Hall. induction Hall as [|s samples Hs Hall IH]; [congruence|].
  cbn [fold_right length].
  destruct samples as [|s' samples].
  - cbn. nia.
  - specialize (IH ltac:(discriminate)). cbn [fold_right length] in IH |- *. nia.
Qed.

(** X2.  With a positive energy threshold, a frame all of whose samples are
    smaller in absolute value than the threshold is non-speech, whatever
    the detector says of it; so is the empty frame. *)
Theorem quiet_frames_are_never_speech (self : AudioBuffer) (frame : bytes)
    (samples : list Z) :
  0 < min_energy_threshold self ->
  array_h frame = Ok samples ->
  Forall (fun s => Z.abs s < min_energy_threshold self) samples ->
  non_speech self frame.
Proof.
  intros Hthr Hsamples Hall. unfold non_speech, classify, _calculate_energy.
  rewrite Hsamples. cbn [bind].
  assert (Hlt : energy_lt
            (Energy (fold_right (fun s acc => s * s + acc) 0 samples)
                    (Z.of_nat (length samples)))
            (min_energy_threshold self) = true).
  { unfold energy_lt. cbn [n_samples sum_squares].
    destruct (Z.ltb_spec 0 (min_energy_threshold self)); [|lia].
    destruct samples as [|s samples]; [reflexivity|].
    destruct (Z.eqb_spec (Z.of_nat (length (s :: samples))) 0) as [Hzero|_];
      [cbn [length] in Hzero; lia|].
    cbn [andb]. apply Z.ltb_lt. apply sum_squares_below; [discriminate|exact Hall]. }
  rewrite Hlt. destruct (default true _); reflexivity.
Qed.

End SegmenterLimits.

Section SegmenterPace.

Import Segmenter Limits.
Context `{Vad}.

(** A frame fed to an object reached from an idle one is classified. *)
Lemma tracked_frame_is_classified (self0 self self' : AudioBuffer)
    (hist : list bytes) (f : bytes) (out : option bytes) :
  tracks self0 hist self ->
  add_frame self f = Ok (self', out) ->
  speech self0 f \/ non_speech self0 f.
Proof.
  intros Htr Hadd. unfold speech, non_speech.
  destruct (classify (sample_rate self0) (min_energy_threshold self0) f)
    as [[|]|e] eqn:Hc; [left; reflexivity|right; reflexivity|].
  exfalso. unfold add_frame in Hadd.
  replace (classify (sample_rate self) (min_energy_threshold self) f)
    with (@Raise bool e) in Hadd; [discriminate|].
  destruct Htr; symmetry; exact Hc.
Qed.

(** The fields of an object written by [update], read back. *)
Ltac speaking_limits :=
  cbn [update reset is_speaking silence_frames max_silence_frames
       recorded_frames max_recording_frames buffer].

Ltac speaking_limits_in H :=
  cbn [update reset is_speaking silence_frames max_silence_frames
       recorded_frames max_recording_frames buffer] in H.

(** One call of [add_frame] keeps the counters within their limits, and an
    utterance it returns is the buffer and the frame, no longer than
    [longest_utterance]. *)
Lemma add_frame_within_limits (self0 self self' : AudioBuffer)
    (hist : list bytes) (f : bytes) (out : option bytes) :
  0 < max_silence_frames self0 ->
  tracks self0 hist self ->
  within_limits self ->
  add_frame self f = Ok (self', out) ->
  within_limits self' /\
  (forall u, out = Some u ->
     u = join (buffer self ++ [f]) /\
     Z.of_nat (length (buffer self ++ [f])) <= longest_utterance self0).
Proof.
  intros Hpos Htr Hlim Hadd. unfold longest_utterance.
  destruct (tracked_frame_is_classified _ _ _ _ _ _ Htr Hadd) as [Hc|Hc];
    destruct Htr as [|pre f0 body sil Hhist Hf0 Hsil Hr].
  - unfold reset in Hadd. apply (add_frame_speech_returned self0 _ _ _ _ f _ Hc) in Hadd.
    cbv beta iota zeta in Hadd.
    destruct (Z.leb_spec (max_recording_frames self0) (0 + 1));
      injection Hadd as <- <-.
    + split; [repeat split|]. intros u [= <-]. split; [reflexivity|].
      cbn [reset update buffer app length]. nia.
    + split; [|discriminate]. unfold within_limits. speaking_limits.
      cbn [app length]. lia.
  - apply (add_frame_speech_returned self0 _ _ _ _ f _ Hc) in Hadd.
    cbv beta iota zeta in Hadd.
    set (r := Z.of_nat (count_speech self0 (f0 :: body))) in *.
    set (buf := (f0 :: body) ++ sil) in *. clearbody r buf.
    unfold within_limits in Hlim. speaking_limits_in Hlim.
    destruct (Z.leb_spec (max_recording_frames self0) (r + 1));
      injection Hadd as <- <-.
    + split; [repeat split|]. intros u [= <-]. split; [reflexivity|].
      speaking_limits. rewrite length_app. cbn [length]. nia.
    + split; [|discriminate]. unfold within_limits. speaking_limits.
      rewrite length_app. cbn [length]. nia.
  - rewrite (add_frame_idle_non_speech (reset self0) f eq_refl Hc) in Hadd.
    injection Hadd as <- <-. split; [exact Hlim|discriminate].
  - apply (add_frame_non_speech_returned self0 _ _ _ f _ Hc) in Hadd.
    set (r := Z.of_nat (count_speech self0 (f0 :: body))) in *.
    set (buf := (f0 :: body) ++ sil) in *. clearbody r buf.
    unfold within_limits in Hlim. speaking_limits_in Hlim.
    destruct (Z.leb_spec (max_silence_frames self0) (Z.of_nat (length sil) + 1));
      injection Hadd as <- <-.
    + split; [repeat split|]. intros u [= <-]. split; [reflexivity|].
      speaking_limits. rewrite length_app. cbn [length]. nia.
    + split; [|discriminate]. unfold within_limits. speaking_limits.
      rewrite length_app. cbn [length]. nia.
Qed.

(** The limits hold all along a run, and bound every utterance returned. *)
Lemma feed_within_limits (self0 self : AudioBuffer) (frames : list bytes)
    (outs : list (option bytes)) :
  0 < max_silence_frames self0 ->
  feed (reset self0) frames = Ok (self, outs) ->
  within_limits self /\
  (forall (i : nat) (u : bytes),
     outs !! i = Some (Some u) ->
     exists pre chunk,
       take (S i) frames = pre ++ chunk /\ u = join chunk /\
       Z.of_nat (length chunk) <= longest_utterance self0).
Proof.
  intros Hpos. revert self outs; induction frames as [|f hist IH] using rev_ind;
    intros self outs Hfeed.
  - injection Hfeed as <- <-. split; [repeat split|]. intros i u Hi. discriminate.
  - apply feed_snoc in Hfeed as (self1 & outs1 & out & Hhist & Hadd & ->).
    pose proof (feed_length _ _ _ _ Hhist) as Hlen.
    destruct (IH _ _ Hhist) as [Hlim Hout].
    destruct (feed_tracks _ _ _ _ Hhist) as [Htr _].
    destruct (add_frame_within_limits _ _ _ _ _ _ Hpos Htr Hlim Hadd)
      as [Hlim' Hnew].
    split; [exact Hlim'|]. intros i u Hi.
    destruct (Nat.lt_trichotomy i (length hist)) as [Hlt|[->|Hgt]].
    + rewrite lookup_app_l in Hi by lia. rewrite take_app_le by lia.
      exact (Hout _ _ Hi).
    + rewrite <- Hlen in Hi. rewrite list_lookup_middle in Hi by reflexivity.
      injection Hi as Hi. destruct (Hnew _ Hi) as [-> Hbound].
      rewrite take_ge by (rewrite length_app; cbn [length]; lia).
      assert (Hsuffix : exists pre, hist = pre ++ buffer self1).
      { destruct Htr as [|pre f0 body sil Hh _ _ _].
        - exists hist. cbn. rewrite app_nil_r. reflexivity.
        - exists pre. exact Hh. }
      destruct Hsuffix as [pre Hpre].
      exists pre, (buffer self1 ++ [f]). repeat split; [|exact Hbound].
      rewrite Hpre at 1. rewrite <- app_assoc. reflexivity.
    + apply lookup_lt_Some in Hi. rewrite length_app in Hi. cbn [length] in Hi. lia.
Qed.

(** X3.  Fed any frames from the idle state, the object keeps its
    configuration, and its counters stay within their limits: not speaking
    it is idle; speaking, the silence run is shorter than
    [max_silence_frames], between one and [max_recording_frames - 1] speech
    frames are counted, and the buffer holds at most [max_silence_frames]
    frames for each of them. *)
Theorem counters_stay_within_limits (self self' : AudioBuffer)
    (frames : list bytes) (outs : list (option bytes)) :
  idle self ->
  0 < max_silence_frames self ->
  feed self frames = Ok (self', outs) ->
  reset self' = reset self /\
  (is_speaking self' = false -> idle self') /\
  (is_speaking self' = true ->
   0 <= silence_frames self' < max_silence_frames self /\
   1 <= recorded_frames self' < max_recording_frames self /\
   Z.of_nat (length (buffer self'))
     <= recorded_frames self' * max_silence_frames self).
Proof.
  intros Hidle Hpos Hfeed. rewrite <- (reset_idle _ Hidle) in Hfeed.
  destruct (feed_tracks _ _ _ _ Hfeed) as [Htr _].
  destruct (feed_within_limits _ _ _ _ Hpos Hfeed) as [Hlim _].
  assert (Hconf : reset self' = reset self) by (destruct Htr; reflexivity).
  assert (Hmsf : max_silence_frames self' = max_silence_frames self)
    by (destruct Htr; reflexivity).
  assert (Hmrf : max_recording_frames self' = max_recording_frames self)
    by (destruct Htr; reflexivity).
  unfold within_limits in Hlim. rewrite Hmsf, Hmrf in Hlim.
  split; [exact Hconf|]. split; intros Hs; rewrite Hs in Hlim.
  - exact Hlim.
  - destruct Hlim as (Hsil & Hrec & Hbuf). repeat split; lia.
Qed.

(** X4.  Fed frames of [frame_size] bytes from the idle state, no utterance
    returned holds more than [(max_recording_frames - 1) *
    max_silence_frames + 1] frames: the cap counts speech frames only, and
    each of them can be followed by a pause just short of the silence
    limit. *)
Theorem utterance_length_is_bounded (self self' : AudioBuffer)
    (frames : list bytes) (outs : list (option bytes)) (i : nat) (u : bytes)
    (frame_size : nat) :
  idle self ->
  0 < max_silence_frames self ->
  Forall (fun g => length g = frame_size) frames ->
  feed self frames = Ok (self', outs) ->
  outs !! i = Some (Some u) ->
  Z.of_nat (length u) <= longest_utterance self * Z.of_nat frame_size.
Proof.
  intros Hidle Hpos Hsize Hfeed Hi. rewrite <- (reset_idle _ Hidle) in Hfeed.
  destruct (feed_within_limits _ _ _ _ Hpos Hfeed) as [_ Hout].
  destruct (Hout _ _ Hi) as (pre & chunk & Htake & -> & Hbound).
  apply (Forall_take _ (S i)) in Hsize. rewrite Htake in Hsize.
  apply Forall_app in Hsize as [_ Hchunk].
  rewrite (length_join_uniform _ _ Hchunk). nia.
Qed.

End SegmenterPace.

Section SegmenterKeeps.

Import Segmenter.
Context `{Vad}.

Lemma count_speech_one (self : AudioBuffer) (f : bytes) :
  (speech self f -> count_speech self [f] = 1%nat) /\
  (non_speech self f -> count_speech self [f] = 0%nat).
Proof.
  split; intros Hf.
  - apply (count_speech_cons _ _ [] Hf).
  - apply count_speech_silence. constructor; [exact Hf|constructor].
Qed.

(** One call of [add_frame] on a tracked object: either the frame is
    dropped, it being non-speech and the object not speaking; or it goes to
    the end of the buffer; or the buffer and the frame are returned as one
    utterance and the buffer is emptied. *)
Lemma add_frame_outcomes (self0 self self' : AudioBuffer) (hist : list bytes)
    (f : bytes) (out : option bytes) :
  tracks self0 hist self ->
  add_frame self f = Ok (self', out) ->
  (non_speech self0 f /\ out = None /\ buffer self' = buffer self) \/
  (out = None /\ buffer self' = buffer self ++ [f]) \/
  (out = Some (join (buffer self ++ [f])) /\ buffer self' = []).
Proof.
  intros Htr Hadd.
  destruct (tracked_frame_is_classified _ _ _ _ _ _ Htr Hadd) as [Hc|Hc];
    destruct Htr as [|pre f0 body sil Hhist Hf0 Hsil Hr].
  - unfold reset in Hadd. apply (add_frame_speech_returned self0 _ _ _ _ f _ Hc) in Hadd.
    cbv beta iota zeta in Hadd.
    destruct (_ <=? _); injection Hadd as <- <-; auto.
  - apply (add_frame_speech_returned self0 _ _ _ _ f _ Hc) in Hadd.
    cbv beta iota zeta in Hadd.
    destruct (_ <=? _); injection Hadd as <- <-; auto.
  - rewrite (add_frame_idle_non_speech (reset self0) f eq_refl Hc) in Hadd.
    injection Hadd as <- <-. auto.
  - apply (add_frame_non_speech_returned self0 _ _ _ f _ Hc) in Hadd.
    destruct (_ <=? _); injection Hadd as <- <-; auto.
Qed.

(** The utterances returned along a run and the buffer left at its end are
    the frames fed, in order, less some non-speech frames. *)
Lemma feed_keeps_speech (self0 self : AudioBuffer) (frames : list bytes)
    (outs : list (option bytes)) :
  feed (reset self0) frames = Ok (self, outs) ->
  exists chunks : list (list bytes),
    omap id outs = map join chunks /\
    sublist (concat chunks ++ buffer self) frames /\
    count_speech self0 (concat chunks ++ buffer self) = count_speech self0 frames.
Proof.
  revert self outs; induction frames as [|f hist IH] using rev_ind;
    intros self outs Hfeed.
  - injection Hfeed as <- <-. exists []. repeat split. constructor.
  - apply feed_snoc in Hfeed as (self1 & outs1 & out & Hhist & Hadd & ->).
    destruct (IH _ _ Hhist) as (chunks & Houts & Hsub & Hcount).
    destruct (feed_tracks _ _ _ _ Hhist) as [Htr _].
    destruct (tracked_frame_is_classified _ _ _ _ _ _ Htr Hadd) as [Hc|Hc];
      destruct (add_frame_outcomes _ _ _ _ _ _ Htr Hadd)
        as [(Hns & -> & Hbuf)|[(-> & Hbuf)|(-> & Hbuf)]];
      try (destruct (speech_not_non_speech _ _ Hc Hns));
      rewrite omap_app, Hbuf; cbn [omap list_omap id].
    + exists chunks. rewrite app_nil_r, app_assoc. split; [exact Houts|]. split.
      * apply sublist_app; [exact Hsub|reflexivity].
      * rewrite !count_speech_app in *. lia.
    + exists (chunks ++ [buffer self1 ++ [f]]).
      rewrite map_app, concat_app. cbn [map concat]. rewrite !app_nil_r.
      split; [rewrite Houts; reflexivity|]. rewrite app_assoc. split.
      * apply sublist_app; [exact Hsub|reflexivity].
      * rewrite !count_speech_app in *. lia.
    + exists chunks. rewrite app_nil_r. split; [exact Houts|]. split.
      * apply sublist_inserts_r. exact Hsub.
      * rewrite !count_speech_app in *.
        rewrite (proj2 (count_speech_one self0 f) Hc). lia.
    + exists chunks. rewrite app_nil_r, app_assoc. split; [exact Houts|]. split.
      * apply sublist_app; [exact Hsub|reflexivity].
      * rewrite !count_speech_app in *. lia.
    + exists (chunks ++ [buffer self1 ++ [f]]).
      rewrite map_app, concat_app. cbn [map concat]. rewrite !app_nil_r.
      split; [rewrite Houts; reflexivity|]. rewrite app_assoc. split.
      * apply sublist_app; [exact Hsub|reflexivity].
      * rewrite !count_speech_app in *. lia.
Qed.

(** X5.  No speech frame is lost and none is returned twice: the utterances
    returned along a run, followed by the buffer left at its end, are the
    frames fed, in the same order, with some frames left out, and as many
    speech frames among them as were fed. *)
Theorem no_speech_frame_is_lost (self self' : AudioBuffer)
    (frames : list bytes) (outs : list (option bytes)) :
  idle self ->
  feed self frames = Ok (self', outs) ->
  exists chunks : list (list bytes),
    omap id outs = map join chunks /\
    sublist (concat chunks ++ buffer self') frames /\
    count_speech self (concat chunks ++ buffer self') = count_speech self frames.
Proof.
  intros Hidle Hfeed. rewrite <- (reset_idle _ Hidle) in Hfeed.
  exact (feed_keeps_speech _ _ _ _ Hfeed).
Qed.

End SegmenterKeeps.

(** ** Slices of a byte string *)

Section SlicesFacts.

Import Wyoming.

Lemma slices_nil (fuel n : nat) : slices fuel n [] = [].
Proof. destruct fuel; reflexivity. Qed.

Lemma slices_cons (fuel n : nat) (b : byte) (rest : bytes) :
  slices (S fuel) n (b :: rest) =
    take n (b :: rest) :: slices fuel n (drop n (b :: rest)).
Proof. reflexivity. Qed.

(** Put end to end, the slices give the byte string back. *)
Lemma slices_join (fuel n : nat) (audio_data : bytes) :
  (0 < n)%nat -> (length audio_data <= fuel)%nat ->
  join (slices fuel n audio_data) = audio_data.
Proof.
  intros Hn. revert audio_data; induction fuel as [|fuel IH]; intros audio_data Hlen.
  - destruct audio_data; [reflexivity|cbn [length] in Hlen; lia].
  - destruct audio_data as [|b rest]; [reflexivity|].
    rewrite slices_cons. unfold join in *. cbn [concat].
    rewrite IH; [apply take_drop|].
    rewrite length_drop. cbn [length] in Hlen |- *. lia.
Qed.

(** No slice is empty or longer than the step, and all but the last are as
    long as the step. *)
Lemma slices_lengths (fuel n : nat) (audio_data : bytes) :
  (0 < n)%nat -> (length audio_data <= fuel)%nat ->
  Forall (fun c => (0 < length c <= n)%nat) (slices fuel n audio_data) /\
  Forall (fun c => length c = n)
         (take (length (slices fuel n audio_data) - 1) (slices fuel n audio_data)).
Proof.
  intros Hn. revert audio_data; induction fuel as [|fuel IH]; intros audio_data Hlen.
  - split; constructor.
  - destruct audio_data as [|b rest]; [split; constructor|].
    rewrite slices_cons.
    assert (Hdrop : (length (drop n (b :: rest)) <= fuel)%nat)
      by (rewrite length_drop; cbn [length] in Hlen |- *; lia).
    destruct (IH _ Hdrop) as [Hall Hfull]. split.
    + constructor; [|exact Hall]. rewrite length_take. cbn [length]. lia.
    + cbn [length]. rewrite Nat.sub_succ, Nat.sub_0_r.
      destruct (slices fuel n (drop n (b :: rest))) as [|c cs] eqn:Hrest;
        [constructor|].
      cbn [length take]. constructor.
      * rewrite length_take. apply Nat.min_l.
        destruct (drop n (b :: rest)) as [|d ds] eqn:Hd;
          [rewrite slices_nil in Hrest; discriminate|].
        assert (Hl : (0 < length (drop n (b :: rest)))%nat)
          by (rewrite Hd; cbn [length]; lia).
        rewrite length_drop in Hl. lia.
      * cbn [length] in Hfull. rewrite Nat.sub_succ, Nat.sub_0_r in Hfull.
        exact Hfull.
Qed.

(** The number of slices, as line 67 computes it. *)
Lemma slices_count (fuel n : nat) (audio_data : bytes) :
  (0 < n)%nat -> (length audio_data <= fuel)%nat ->
  length (slices fuel n audio_data) = ((length audio_data + n - 1) / n)%nat.
Proof.
  intros Hn. revert audio_data; induction fuel as [|fuel IH]; intros audio_data Hlen.
  - destruct audio_data; [|cbn [length] in Hlen; lia].
    cbn [slices length]. symmetry. apply Nat.div_small. lia.
  - destruct audio_data as [|b rest].
    + cbn [slices length]. symmetry. apply Nat.div_small. lia.
    + rewrite slices_cons. cbn [length]. rewrite IH
        by (rewrite length_drop; cbn [length] in Hlen |- *; lia).
      rewrite length_drop. cbn [length].
      destruct (Nat.le_gt_cases n (S (length rest))) as [Hge|Hlt].
      * replace (S (length rest) + n - 1)%nat
          with ((S (length rest) - n + n - 1) + 1 * n)%nat by lia.
        rewrite Nat.div_add by lia. lia.
      * replace (S (length rest) - n)%nat with 0%nat by lia.
        rewrite (Nat.div_small (0 + n - 1) n) by lia.
        apply (Nat.div_unique _ _ 1 (length rest)); lia.
Qed.

(** The slices as long as the step are a beginning of the byte string, and
    what follows them is shorter than the step. *)
Lemma full_slices_prefix (fuel n : nat) (audio_data : bytes) :
  (0 < n)%nat -> (length audio_data <= fuel)%nat ->
  let full := List.filter (fun c => negb (length c <? n)%nat)
                (slices fuel n audio_data) in
  Forall (fun c => length c = n) full /\
  exists tail, audio_data = join full ++ tail /\ (length tail < n)%nat.
Proof.
  intros Hn. revert audio_data; induction fuel as [|fuel IH];
    intros audio_data Hlen; cbv zeta.
  - destruct audio_data; [|cbn [length] in Hlen; lia].
    split; [constructor|]. exists []. split; [reflexivity|exact Hn].
  - destruct audio_data as [|b rest].
    { split; [constructor|]. exists []. split; [reflexivity|exact Hn]. }
    rewrite slices_cons. cbn [List.filter].
    assert (Hdrop : (length (drop n (b :: rest)) <= fuel)%nat)
      by (rewrite length_drop; cbn [length] in Hlen |- *; lia).
    destruct (IH _ Hdrop) as [Hall (tail & Htail & Hshort)].
    destruct (Nat.ltb_spec (length (take n (b :: rest))) n) as [Hlt|Hge];
      cbn [negb].
    + rewrite length_take in Hlt.
      assert (Hnil : drop n (b :: rest) = [])
        by (apply drop_ge; lia).
      rewrite Hnil, slices_nil. cbn [List.filter].
      split; [constructor|]. exists (b :: rest). split; [reflexivity|].
      lia.
    + split.
      * constructor; [|exact Hall]. rewrite length_take in Hge |- *. lia.
      * exists tail. split; [|exact Hshort].
        unfold join in *. cbn [concat]. rewrite <- app_assoc, <- Htail.
        symmetry. apply take_drop.
Qed.

End SlicesFacts.

(** ** The driver *)

Section DriverFacts.

Import Segmenter Driver.
Context `{Vad}.

Lemma frames_positive (samples_per_frame : Z) (audio_bytes : bytes) :
  0 < samples_per_frame ->
  exists chunks tail,
    frames (frame_size samples_per_frame) audio_bytes = Ok chunks /\
    Forall (fun c => Z.of_nat (length c) = frame_size samples_per_frame) chunks /\
    audio_bytes = join chunks ++ tail /\
    Z.of_nat (length tail) < frame_size samples_per_frame.
Proof.
  unfold frames, frame_size. intros Hpos.
  destruct (Z.eqb_spec (samples_per_frame * 2) 0) as [Hz|_]; [lia|].
  destruct (Z.ltb_spec (samples_per_frame * 2) 0) as [Hneg|_]; [lia|].
  set (n := Z.to_nat (samples_per_frame * 2)).
  assert (Hn : (0 < n)%nat) by lia.
  destruct (full_slices_prefix (length audio_bytes) n audio_bytes Hn (le_n _))
    as [Hall (tail & Htail & Hshort)].
  rewrite (List.filter_ext
             (fun chunk => negb (Z.of_nat (length chunk) <? samples_per_frame * 2))
             (fun c => negb (length c <? n)%nat)).
  2:{ intros c. f_equal.
      destruct (Z.ltb_spec (Z.of_nat (length c)) (samples_per_frame * 2)),
               (Nat.ltb_spec (length c) n); lia || reflexivity. }
  eexists _, tail. split; [reflexivity|]. split; [|split; [exact Htail|lia]].
  eapply Forall_impl; [exact Hall|]. cbn. intros c Hc. lia.
Qed.

(** X6.  For a positive number of samples per frame, every frame the driver
    cuts out of a block of decoded audio holds exactly [frame_size] bytes;
    put end to end the frames are the beginning of the block, and the bytes
    after them, fewer than [frame_size], are dropped.  With no sample per
    frame the loop raises [ValueError]. *)
Theorem driver_frames_are_whole (samples_per_frame : Z) (audio_bytes : bytes) :
  (0 < samples_per_frame ->
   exists chunks tail,
     frames (frame_size samples_per_frame) audio_bytes = Ok chunks /\
     Forall (fun c => Z.of_nat (length c) = frame_size samples_per_frame) chunks /\
     audio_bytes = join chunks ++ tail /\
     Z.of_nat (length tail) < frame_size samples_per_frame) /\
  (samples_per_frame = 0 ->
   frames (frame_size samples_per_frame) audio_bytes = Raise ValueError).
Proof.
  split; [apply frames_positive|]. intros ->. reflexivity.
Qed.

Lemma feed_even_frames (self : AudioBuffer) (chunks : list bytes) :
  sample_rate self <> 0 ->
  Forall (fun c => Nat.even (length c) = true) chunks ->
  exists self' outs, feed self chunks = Ok (self', outs).
Proof.
  intros Hrate Hall; revert self Hrate;
    induction Hall as [|c chunks Hc _ IH]; intros self Hrate.
  - exists self, []. reflexivity.
  - cbn [feed].
    destruct (add_frame_even self c Hrate Hc) as (self1 & out & -> & Hsame).
    cbn [bind]. rewrite <- Hsame in Hrate.
    destruct (IH self1 Hrate) as (self2 & outs & ->). cbn [bind].
    eauto.
Qed.

(** The driver computes no frame for a sample rate of zero: the product of
    line 300 is zero, and the [range] of line 302 raises. *)
Lemma samples_of_rate_zero : samples_of_rate 0 = Some 0.
Proof. reflexivity. Qed.

(** Every utterance returned on the way from an idle object with a positive
    threshold passes the test [if complete_audio:]. *)
Lemma returned_utterances_are_truthy (self self' : AudioBuffer)
    (chunks : list bytes) (outs : list (option bytes)) :
  idle self -> 0 < min_energy_threshold self ->
  feed self chunks = Ok (self', outs) ->
  Forall (fun o => o = None \/ truthy o = true) outs.
Proof.
  intros Hidle Hthr Hfeed. rewrite <- (reset_idle _ Hidle) in Hfeed.
  destruct (feed_tracks _ _ _ _ Hfeed) as [_ Hem].
  pose proof (feed_length _ _ _ _ Hfeed) as Hlen.
  apply Forall_lookup. intros i [u|] Hi; [right|left; reflexivity].
  assert (Hf : is_Some (chunks !! i)).
  { apply lookup_lt_is_Some. rewrite <- Hlen. apply lookup_lt_is_Some. eauto. }
  destruct Hf as [f Hf].
  destruct (Hem _ _ _ Hi Hf) as (pre & f0 & rest & _ & Hf0 & -> & _).
  pose proof (speech_nonempty _ _ Hthr Hf0) as Hne.
  unfold join. cbn [concat]. destruct f0; [congruence|reflexivity].
Qed.

Lemma truthy_outputs_are_kept (outs : list (option bytes)) :
  Forall (fun o => o = None \/ truthy o = true) outs ->
  omap id (List.filter truthy outs) = omap id outs /\
  Forall (fun u => u <> []) (omap id outs).
Proof.
  induction 1 as [|o outs [->|Ho] _ [IH1 IH2]]; cbn [List.filter omap list_omap].
  - split; [reflexivity|constructor].
  - split; assumption.
  - rewrite Ho. destruct o as [[|b u]|]; try discriminate.
    change (omap id (Some (b :: u) :: List.filter truthy outs))
      with ((b :: u) :: omap id (List.filter truthy outs)).
    change (omap id (Some (b :: u) :: outs)) with ((b :: u) :: omap id outs).
    split; [f_equal; exact IH1|]. constructor; [discriminate|exact IH2].
Qed.

(** X7.  The frames the driver cuts never make [add_frame] raise.  The
    driver takes the number of samples per frame from the sample rate of the
    configuration, which is the sample rate of its [AudioBuffer]:
    [int(sample_rate * 0.03)].  When that number is positive, a block of
    decoded audio is processed to its end, whatever the state of the object
    and whatever the detector does: every frame has an even number of bytes,
    and the sample rate is not zero. *)
Theorem driver_never_makes_add_frame_raise (self : AudioBuffer)
    (samples_per_frame : Z) (audio_bytes : bytes) :
  samples_of_rate (sample_rate self) = Some samples_per_frame ->
  0 < samples_per_frame ->
  exists self' utterances,
    process_audio self samples_per_frame audio_bytes = Ok (self', utterances).
Proof.
  intros Hsamples Hpos. unfold process_audio.
  assert (Hrate : sample_rate self <> 0).
  { intros Hzero. rewrite Hzero, samples_of_rate_zero in Hsamples.
    injection Hsamples as <-. lia. }
  destruct (frames_positive samples_per_frame audio_bytes Hpos)
    as (chunks & tail & -> & Hall & _ & _).
  cbn [bind].
  assert (Heven : Forall (fun c => Nat.even (length c) = true) chunks).
  { eapply Forall_impl; [exact Hall|]. cbn. unfold frame_size. intros c Hc.
    replace (length c) with (2 * Z.to_nat samples_per_frame)%nat by lia.
    apply Nat.even_spec. exists (Z.to_nat samples_per_frame). reflexivity. }
  destruct (feed_even_frames self chunks Hrate Heven) as (self' & outs & ->).
  cbn [bind]. eauto.
Qed.

(** X8.  The driver keeps one [AudioBuffer] for the whole stream, so a
    block of decoded audio finds it in the state the frames before the block
    left it in.  Whatever those frames [earlier] were, fed to an object that
    was idle with a positive energy threshold, the driver hands over every
    utterance [add_frame] returns in the block, in order: none is empty, so
    none is skipped by the test on the returned value. *)
Theorem driver_hands_over_every_utterance (self0 self self' : AudioBuffer)
    (earlier : list bytes) (outs0 : list (option bytes))
    (samples_per_frame : Z) (audio_bytes : bytes) (utterances : list bytes) :
  idle self0 ->
  0 < min_energy_threshold self0 ->
  feed self0 earlier = Ok (self, outs0) ->
  process_audio self samples_per_frame audio_bytes = Ok (self', utterances) ->
  exists chunks outs,
    frames (frame_size samples_per_frame) audio_bytes = Ok chunks /\
    feed self chunks = Ok (self', outs) /\
    utterances = omap id outs /\
    Forall (fun u => u <> []) utterances.
Proof.
  intros Hidle Hthr Hearlier. unfold process_audio.
  destruct (frames _ _) as [chunks|e] eqn:Hframes; cbn [bind]; [|discriminate].
  destruct (feed self chunks) as [[self1 outs]|e] eqn:Hfeed; cbn [bind];
    [|discriminate].
  intros [= <- <-]. exists chunks, outs. split; [reflexivity|].
  split; [exact Hfeed|].
  assert (Hwhole : feed self0 (earlier ++ chunks) = Ok (self1, outs0 ++ outs)).
  { rewrite feed_app, Hearlier. cbn [bind]. rewrite Hfeed. reflexivity. }
  pose proof (returned_utterances_are_truthy _ _ _ _ Hidle Hthr Hwhole) as Hall.
  apply Forall_app in Hall as [_ Hall].
  destruct (truthy_outputs_are_kept _ Hall) as [Hkept Hne].
  rewrite Hkept. split; [reflexivity|exact Hne].
Qed.

End DriverFacts.

(** ** The transcription client of the add-on: what is written, what is
       awaited *)

Section WyomingWire.

Import PyStr Wyoming.

Lemma write_events_limited (n : nat) (events : list event_out) :
  write_events (Some n) events =
    (map Write (take n events),
     if (n <? length events)%nat then Some OSError else None).
Proof.
  revert n; induction events as [|e events IH]; intros n.
  - destruct n; reflexivity.
  - destruct n as [|n]; [reflexivity|].
    cbn [write_events fmap option_fmap option_map pred]. rewrite IH.
    cbn [take map length]. reflexivity.
Qed.

(** X9.  When the server accepts the connection and every write, and the
    chunk size is positive, the client writes [AudioStart], then the audio
    in chunks, then [AudioStop], and closes the connection: the chunks put
    end to end are the audio, none is empty or longer than the chunk size,
    and their number is the [total_chunks] of line 67. *)
Theorem audio_is_written_whole (audio_data : bytes)
    (sample_rate sample_width channels : Z) (srv : server) :
  accepts srv = true ->
  write_budget srv = None ->
  0 < 1024 * sample_width * channels ->
  exists chunks,
    wire (send_audio audio_data sample_rate sample_width channels srv) =
      Connect :: Write (AudioStart sample_rate sample_width channels)
        :: map (fun c => Write (AudioChunk sample_rate sample_width channels c))
               chunks
        ++ [Write AudioStop; Disconnect] /\
    join chunks = audio_data /\
    Forall (fun c => 0 < Z.of_nat (length c) <= 1024 * sample_width * channels)
           chunks /\
    Z.of_nat (length chunks) =
      (Z.of_nat (length audio_data) + 1024 * sample_width * channels - 1)
        / (1024 * sample_width * channels).
Proof.
  intros Hacc Hbudget Hsize.
  set (cs := 1024 * sample_width * channels) in *.
  set (n := Z.to_nat cs).
  assert (Hn : (0 < n)%nat) by lia.
  exists (slices (length audio_data) n audio_data).
  repeat apply conj.
  - unfold send_audio, outgoing. rewrite Hacc, Hbudget. cbn [negb]. fold cs.
    destruct (Z.eqb_spec cs 0) as [Hz|_]; [lia|].
    destruct (Z.ltb_spec cs 0) as [Hneg|_]; [lia|].
    rewrite write_events_unlimited.
    destruct (await_transcript _ _ _) as [r t]. cbn [wire].
    cbn [map app]. rewrite map_app, map_map, <- app_assoc. reflexivity.
  - apply slices_join; [exact Hn|reflexivity].
  - destruct (slices_lengths (length audio_data) n audio_data Hn (le_n _))
      as [Hall _].
    eapply Forall_impl; [exact Hall|]. cbn. intros c Hc. lia.
  - rewrite (slices_count _ _ _ Hn (le_n _)).
    rewrite Nat2Z.inj_div, Nat2Z.inj_sub, Nat2Z.inj_add by lia.
    f_equal; lia.
Qed.

(** X10.  When a write raises, nothing is written after it: with a budget
    of [n] writes the connection sees the first [n] events of the call and
    is closed, and the call returns [None] unless all events were written. *)
Theorem nothing_is_written_after_a_failed_write (audio_data : bytes)
    (sample_rate sample_width channels : Z) (srv : server) (n : nat) :
  accepts srv = true ->
  write_budget srv = Some n ->
  let events := (outgoing audio_data sample_rate sample_width channels).1 in
  let o := send_audio audio_data sample_rate sample_width channels srv in
  wire o = Connect :: map Write (take n events) ++ [Disconnect] /\
  ((n < length events)%nat -> value o = None).
Proof.
  intros Hacc Hbudget. cbv zeta. unfold send_audio. rewrite Hacc, Hbudget.
  cbn [negb].
  destruct (outgoing _ _ _ _) as [events stopped]. cbn [fst].
  rewrite write_events_limited.
  destruct (Nat.ltb_spec n (length events)) as [Hlt|Hge].
  - split; [|reflexivity]. reflexivity.
  - destruct stopped as [e|].
    + split; [reflexivity|lia].
    + destruct (await_transcript _ _ _) as [r t]. split; [reflexivity|lia].
Qed.

(** The loop is left five seconds after the timeout at the latest. *)
Lemma await_transcript_time (timeout now : Q) (inbox : list (Q * reply)) :
  (now <= timeout + 5)%Q ->
  ((await_transcript timeout now inbox).2 <= timeout + 5)%Q.
Proof.
  revert now; induction inbox as [|[delay r] inbox IH]; intros now Hnow;
    cbn [await_transcript]; unfold Qltb.
  - destruct (Qle_bool now timeout) eqn:Hle; cbn [negb snd]; [|exact Hnow].
    apply Qle_bool_iff in Hle. lra.
  - destruct (Qle_bool now timeout) eqn:Hle; cbn [negb snd]; [|exact Hnow].
    apply Qle_bool_iff in Hle.
    destruct (Qle_bool 5 delay) eqn:Hd; cbn [snd]; [lra|].
    assert (Hdelay : (delay < 5)%Q).
    { apply Qnot_le_lt. intros Hc. apply Qle_bool_iff in Hc. congruence. }
    destruct r as [e| |]; cbn [snd]; try lra.
    destruct (String.eqb (type e) "transcript").
    + destruct (negb _); cbn [snd]; lra.
    + apply IH. lra.
Qed.

(** X11.  Whatever the audio and whatever the server does, [send_audio]
    returns within five seconds after the response timeout, hence within
    65 seconds after the audio was sent. *)
Theorem send_audio_returns_in_time (audio_data : bytes)
    (sample_rate sample_width channels : Z) (srv : server) :
  let o := send_audio audio_data sample_rate sample_width channels srv in
  (elapsed o <= response_timeout audio_data + 5)%Q /\ (elapsed o <= 65)%Q.
Proof.
  cbv zeta. destruct (response_timeout_bounds audio_data) as [Hlo Hhi].
  assert (Hbound : (elapsed (send_audio audio_data sample_rate sample_width
                               channels srv)
                    <= response_timeout audio_data + 5)%Q).
  { unfold send_audio. destruct (accepts srv); cbn [negb elapsed]; [|lra].
    destruct (outgoing _ _ _ _) as [events stopped].
    destruct (write_events _ _) as [written raised].
    destruct raised, stopped; cbn [elapsed]; try lra.
    pose proof (await_transcript_time (response_timeout audio_data) 0
                  (inbox srv) ltac:(lra)) as Htime.
    destruct (await_transcript _ _ _) as [r t]. exact Htime. }
  split; [exact Hbound|lra].
Qed.

(** What the loop returns is the stripped text of the first transcript. *)
Lemma await_transcript_source (timeout now : Q) (inbox : list (Q * reply))
    (t : string) :
  (await_transcript timeout now inbox).1 = Ok (Some t) ->
  exists skipped delay e rest,
    inbox = skipped ++ (delay, Event e) :: rest /\
    Forall (fun dr => exists e', dr.2 = Event e' /\
                                 type e' <> "transcript"%string) skipped /\
    type e = "transcript"%string /\
    t = strip (text e).
Proof.
  revert now; induction inbox as [|[delay r] inbox IH]; intros now;
    cbn [await_transcript].
  - destruct (Qltb timeout now); discriminate.
  - destruct (Qltb timeout now); [discriminate|].
    destruct (Qle_bool 5 delay); [discriminate|].
    destruct r as [e| |]; [|discriminate|discriminate].
    destruct (String.eqb_spec (type e) "transcript") as [Htype|Htype].
    + destruct (negb _); cbn [fst]; [|discriminate].
      intros [= <-]. exists [], delay, e, inbox. repeat split; [constructor|exact Htype].
    + intros Hrest. destruct (IH _ Hrest) as (skipped & d & e' & rest & -> & Hsk & Ht & ->).
      exists ((delay, Event e) :: skipped), d, e', rest.
      repeat split; [|exact Ht]. constructor; [|exact Hsk].
      exists e. split; [reflexivity|exact Htype].
Qed.

(** X12.  A text returned by [send_audio] is the text of the first
    transcript event the server sent, stripped of surrounding white space;
    every event before it was of another type and was ignored. *)
Theorem returned_text_is_the_first_transcript (audio_data : bytes)
    (sample_rate sample_width channels : Z) (srv : server) (t : string) :
  value (send_audio audio_data sample_rate sample_width channels srv) = Some t ->
  exists skipped delay e rest,
    inbox srv = skipped ++ (delay, Event e) :: rest /\
    Forall (fun dr => exists e', dr.2 = Event e' /\
                                 type e' <> "transcript"%string) skipped /\
    type e = "transcript"%string /\
    t = strip (text e).
Proof.
  intros Hvalue.
  destruct (send_audio_value audio_data sample_rate sample_width channels srv)
    as [Hnone|Hloop]; [congruence|].
  rewrite Hvalue in Hloop. symmetry in Hloop.
  exact (await_transcript_source _ _ _ _ Hloop).
Qed.

End WyomingWire.

(** ** The command matcher: order of the words *)

Section MatcherOrder.

Import PyStr Dispatcher Matcher.

Lemma insert_sorted_Forall (P : nat -> Prop) (n : nat) (l : list nat) :
  P n -> Forall P l -> Forall P (insert_sorted n l).
Proof.
  intros Hn; induction 1 as [|m l Hm Hl IH]; cbn [insert_sorted].
  - constructor; [exact Hn|constructor].
  - destruct (n <=? m)%nat; repeat constructor; assumption.
Qed.

Lemma insert_sorted_sorted (n : nat) (l : list nat) :
  StronglySorted le l -> StronglySorted le (insert_sorted n l).
Proof.
  induction 1 as [|m l Hl IH Hm]; cbn [insert_sorted].
  - constructor; [constructor|constructor].
  - destruct (Nat.leb_spec n m) as [Hle|Hgt].
    + constructor; [constructor; assumption|].
      constructor; [exact Hle|]. eapply Forall_impl; [exact Hm|]. cbn. lia.
    + constructor; [exact IH|].
      apply insert_sorted_Forall; [lia|exact Hm].
Qed.

(** [sorted] sorts, and leaves a sorted list as it is: [indices ==
    sorted(indices)] says that the positions do not decrease. *)
Lemma sorted_sorted (l : list nat) : StronglySorted le (sorted l).
Proof.
  induction l as [|n l IH]; [constructor|]. apply insert_sorted_sorted, IH.
Qed.

Lemma sorted_id (l : list nat) : StronglySorted le l -> sorted l = l.
Proof.
  induction 1 as [|n l Hl IH Hn]; [reflexivity|].
  cbn [sorted fold_right]. fold (sorted l). rewrite IH.
  destruct Hn as [|m l Hm _]; [reflexivity|].
  cbn [insert_sorted]. destruct (Nat.leb_spec n m); [reflexivity|lia].
Qed.

Lemma index_lookup (word : string) (words : list string) (i : nat) :
  index word words = Some i -> words !! i = Some word.
Proof.
  revert i; induction words as [|w words IH]; intros i; cbn [index]; [discriminate|].
  destruct (String.eqb_spec w word) as [->|_].
  - intros [= <-]. reflexivity.
  - destruct (index word words) as [j|]; cbn; [|discriminate].
    intros [= <-]. exact (IH j eq_refl).
Qed.

Lemma index_cons_other (word w : string) (words : list string) :
  w <> word -> index word (w :: words) = S <$> index word words.
Proof.
  intros Hne. cbn [index]. destruct (String.eqb_spec w word); [congruence|reflexivity].
Qed.

Lemma contains_elem_of (words : list string) (word : string) :
  word ∈ words -> contains words word = true.
Proof.
  intros Hin. unfold contains. apply existsb_exists. exists word.
  split; [apply list_elem_of_In; exact Hin|apply String.eqb_refl].
Qed.

(** Words found at positions that strictly increase form a subsequence;
    [k] is the number of words of the transcript already passed. *)
Lemma increasing_positions_sublist (text_words pattern_words : list string)
    (indices : list nat) (k : nat) :
  Forall2 (fun w i => (k <= i)%nat /\ text_words !! (i - k)%nat = Some w)
          pattern_words indices ->
  StronglySorted lt indices ->
  sublist pattern_words text_words.
Proof.
  revert pattern_words indices k;
    induction text_words as [|x text_words IH]; intros pattern_words indices k Hpos Hsorted.
  - destruct Hpos as [|w i ws js [_ Hw] _]; [constructor|discriminate].
  - destruct Hpos as [|w i ws js [Hk Hw] Hrest]; [apply sublist_nil_l|].
    apply StronglySorted_inv in Hsorted as [Hsorted Hgt].
    assert (Hlater : Forall2 (fun w j => (S k <= j)%nat /\
                                         text_words !! (j - S k)%nat = Some w)
                             ws js).
    { clear -Hrest Hgt Hk. induction Hrest as [|w' j ws js [Hj Hw'] _ IHr];
        [constructor|].
      apply Forall_cons in Hgt as [Hij Hgt].
      constructor; [|exact (IHr Hgt)]. split; [lia|].
      replace (j - k)%nat with (S (j - S k)) in Hw' by lia. exact Hw'. }
    destruct (Nat.eq_dec i k) as [->|Hne].
    + rewrite Nat.sub_diag in Hw. injection Hw as ->.
      apply sublist_skip. exact (IH _ _ _ Hlater Hsorted).
    + apply sublist_cons. apply (IH (w :: ws) (i :: js) (S k)).
      * constructor; [|exact Hlater]. split; [lia|].
        replace (i - k)%nat with (S (i - S k)) in Hw by lia. exact Hw.
      * constructor; assumption.
Qed.

(** Distinct words have distinct first positions. *)
Lemma distinct_words_distinct_positions (text_words pattern_words : list string)
    (indices : list nat) :
  Forall2 (fun w i => text_words !! i = Some w) pattern_words indices ->
  NoDup pattern_words ->
  StronglySorted le indices ->
  StronglySorted lt indices.
Proof.
  induction 1 as [|w i ws js Hw Hrest IH]; intros Hnodup Hsorted; [constructor|].
  apply NoDup_cons in Hnodup as [Hnotin Hnodup].
  apply StronglySorted_inv in Hsorted as [Hsorted Hle].
  constructor; [exact (IH Hnodup Hsorted)|].
  clear IH Hsorted Hnodup.
  induction Hrest as [|w' j ws js Hw' _ IHr]; [constructor|].
  apply Forall_cons in Hle as [Hij Hle].
  apply not_elem_of_cons in Hnotin as [Hne Hnotin].
  constructor; [|exact (IHr Hnotin Hle)].
  destruct (Nat.eq_dec i j) as [->|Hneq]; [|lia].
  rewrite Hw in Hw'. congruence.
Qed.

(** What a match that is not an exact one checks. *)
Lemma matches_inv (text_clean command_pattern : string) :
  matches text_clean command_pattern = true ->
  text_clean = strip (lower command_pattern) \/
  exists indices,
    Forall2 (fun w i => index w (split text_clean) = Some i)
            (split (strip (lower command_pattern))) indices /\
    StronglySorted le indices.
Proof.
  unfold matches.
  destruct (String.eqb_spec text_clean (strip (lower command_pattern)))
    as [Heq|_]; [left; exact Heq|].
  destruct (forallb _ _); [|discriminate].
  destruct (mapM _ _) as [indices|] eqn:Hmap; [|discriminate].
  intros Hdec. apply bool_decide_eq_true in Hdec.
  right. exists indices. split; [apply mapM_Some; exact Hmap|].
  rewrite Hdec. apply sorted_sorted.
Qed.

(** X13.  When no word occurs twice in the pattern, a command that
    [_process_command] takes for a match is one: the clean text is the
    pattern, or the words of the pattern are a subsequence of the words of
    the text. *)
Theorem match_is_a_subsequence (text_clean command_pattern : string) :
  NoDup (split (strip (lower command_pattern))) ->
  matches text_clean command_pattern = true ->
  text_clean = strip (lower command_pattern) \/
  sublist (split (strip (lower command_pattern))) (split text_clean).
Proof.
  intros Hnodup Hm.
  destruct (matches_inv _ _ Hm) as [Heq|(indices & Hidx & Hsorted)];
    [left; exact Heq|right].
  assert (Hlook : Forall2 (fun w i => split text_clean !! i = Some w)
                          (split (strip (lower command_pattern))) indices).
  { eapply Forall2_impl; [exact Hidx|]. cbn. intros w i. apply index_lookup. }
  apply (increasing_positions_sublist _ _ indices 0).
  - eapply Forall2_impl; [exact Hlook|]. cbn. intros w i Hw.
    split; [lia|]. rewrite Nat.sub_0_r. exact Hw.
  - exact (distinct_words_distinct_positions _ _ _ Hlook Hnodup Hsorted).
Qed.

End MatcherOrder.

Section MatcherComplete.

Import PyStr Dispatcher Matcher.

Lemma StronglySorted_lt_S (l : list nat) :
  StronglySorted lt l -> StronglySorted lt (S <$> l).
Proof.
  induction 1 as [|n l Hl IH Hn]; [constructor|].
  cbn. constructor; [exact IH|].
  apply Forall_fmap. eapply Forall_impl; [exact Hn|]. cbn. lia.
Qed.

Lemma StronglySorted_lt_le (l : list nat) :
  StronglySorted lt l -> StronglySorted le l.
Proof.
  induction 1 as [|n l Hl IH Hn]; constructor; [exact IH|].
  eapply Forall_impl; [exact Hn|]. cbn. lia.
Qed.

(** The first positions of words that all differ from the first word of the
    text are one more than their positions in the rest of the text. *)
Lemma positions_after_other_word (x : string) (text_words ws : list string)
    (indices : list nat) :
  Forall (fun w => x <> w) ws ->
  Forall2 (fun w i => index w text_words = Some i) ws indices ->
  Forall2 (fun w i => index w (x :: text_words) = Some i) ws (S <$> indices).
Proof.
  intros Hne Hidx; induction Hidx as [|w i ws js Hw _ IH]; [constructor|].
  apply Forall_cons in Hne as [Hx Hne].
  rewrite fmap_cons. constructor; [|exact (IH Hne)].
  rewrite (index_cons_other _ _ _ Hx), Hw. reflexivity.
Qed.

(** In a text where no word occurs twice, the words of a subsequence are
    found at positions that strictly increase. *)
Lemma sublist_positions (pattern_words text_words : list string) :
  sublist pattern_words text_words ->
  NoDup text_words ->
  exists indices,
    Forall2 (fun w i => index w text_words = Some i) pattern_words indices /\
    StronglySorted lt indices.
Proof.
  induction 1 as [|x ws text_words Hsub IH|x ws text_words Hsub IH];
    intros Hnodup.
  - exists []. split; constructor.
  - apply NoDup_cons in Hnodup as [Hnotin Hnodup].
    destruct (IH Hnodup) as (indices & Hidx & Hsorted).
    assert (Hne : Forall (fun w => x <> w) ws).
    { apply Forall_forall. intros w Hw ->. apply Hnotin.
      exact (elem_of_sublist _ _ _ Hw Hsub). }
    exists (0%nat :: (S <$> indices)). split.
    + constructor; [cbn [index]; rewrite String.eqb_refl; reflexivity|].
      exact (positions_after_other_word _ _ _ _ Hne Hidx).
    + constructor; [exact (StronglySorted_lt_S _ Hsorted)|].
      apply Forall_fmap, Forall_forall. cbn. lia.
  - apply NoDup_cons in Hnodup as [Hnotin Hnodup].
    destruct (IH Hnodup) as (indices & Hidx & Hsorted).
    assert (Hne : Forall (fun w => x <> w) ws).
    { apply Forall_forall. intros w Hw ->. apply Hnotin.
      exact (elem_of_sublist _ _ _ Hw Hsub). }
    exists (S <$> indices). split.
    + exact (positions_after_other_word _ _ _ _ Hne Hidx).
    + exact (StronglySorted_lt_S _ Hsorted).
Qed.

(** X14.  When no word occurs twice in the clean text, [_process_command]
    misses no ordered match: a pattern whose words are a subsequence of the
    words of the text is matched. *)
Theorem subsequence_is_matched (text_clean command_pattern : string) :
  NoDup (split text_clean) ->
  sublist (split (strip (lower command_pattern))) (split text_clean) ->
  matches text_clean command_pattern = true.
Proof.
  intros Hnodup Hsub. unfold matches.
  destruct (String.eqb _ _); [reflexivity|].
  destruct (sublist_positions _ _ Hsub Hnodup) as (indices & Hidx & Hsorted).
  assert (Hall : forallb (contains (split text_clean))
                         (split (strip (lower command_pattern))) = true).
  { apply forallb_forall. intros w Hw. apply contains_elem_of.
    apply (fun H => elem_of_sublist _ _ w H Hsub). apply list_elem_of_In. exact Hw. }
  rewrite Hall. apply mapM_Some in Hidx. rewrite Hidx.
  apply bool_decide_eq_true. symmetry. apply sorted_id.
  exact (StronglySorted_lt_le _ Hsorted).
Qed.

(** X15.  A command whose pattern holds no word (it is empty, or white
    space only) matches every text: put first in the list, it is executed
    for every transcript, whatever commands follow. *)
Theorem blank_pattern_matches_everything (text_clean p : string)
    (c : command) (rest : list command) :
  split (strip (lower p)) = [] ->
  pattern c = Some p ->
  matches text_clean p = true /\
  first_match text_clean (c :: rest) = Ok (Some c).
Proof.
  intros Hblank Hp.
  assert (Hm : matches text_clean p = true).
  { unfold matches. rewrite Hblank. destruct (String.eqb _ _); reflexivity. }
  split; [exact Hm|]. cbn [first_match]. rewrite Hp, Hm. reflexivity.
Qed.

(** X16.  The commands are tried in the order of the list, up to the first
    one that matches: that one is executed whatever follows it, and a
    command without a pattern raises [KeyError] only if it is reached, that
    is if no command before it matches. *)
Theorem commands_are_tried_in_order (text_clean : string) (c : command)
    (before rest : list command) :
  Forall (fun b => exists q, pattern b = Some q /\ matches text_clean q = false)
         before ->
  (forall p, pattern c = Some p -> matches text_clean p = true ->
     first_match text_clean (before ++ c :: rest) = Ok (Some c)) /\
  (pattern c = None ->
     first_match text_clean (before ++ c :: rest) = Raise KeyError).
Proof.
  intros Hbefore. split.
  - intros p Hp Hm. exact (first_match_found _ _ _ _ rest Hbefore Hp Hm).
  - intros Hp. induction Hbefore as [|b before (q & Hq & Hno) _ IH].
    + cbn [app first_match]. rewrite Hp. reflexivity.
    + cbn [app first_match]. rewrite Hq, Hno. exact IH.
Qed.

End MatcherComplete.

(** ** The command matcher: letter case *)

Section MatcherCase.

Import PyStr Dispatcher Matcher.

Lemma isspace_lower_char (c : ascii) : isspace (lower_char c) = isspace c.
Proof. destruct c as [[] [] [] [] [] [] [] []]; reflexivity. Qed.

Lemma lower_empty (s : string) : lower s = EmptyString -> s = EmptyString.
Proof. destruct s; [reflexivity|discriminate]. Qed.

Lemma lstrip_lower (s : string) :
  lstrip_by isspace (lower s) = lower (lstrip_by isspace s).
Proof.
  induction s as [|c s IH]; [reflexivity|].
  cbn [lower lstrip_by]. rewrite isspace_lower_char.
  destruct (isspace c); [exact IH|reflexivity].
Qed.

Lemma rstrip_lower (s : string) :
  rstrip_by isspace (lower s) = lower (rstrip_by isspace s).
Proof.
  induction s as [|c s IH]; [reflexivity|].
  cbn [lower rstrip_by]. rewrite IH, isspace_lower_char.
  destruct (rstrip_by isspace s) as [|d kept]; cbn [lower]; [|reflexivity].
  destruct (isspace c); reflexivity.
Qed.

Lemma strip_lower (s : string) : strip (lower s) = lower (strip s).
Proof. unfold strip. rewrite lstrip_lower, rstrip_lower. reflexivity. Qed.

(** One turn of the loop depends on the pattern through its lower case
    only. *)
Lemma matches_lower (text_clean p1 p2 : string) :
  lower p1 = lower p2 -> matches text_clean p1 = matches text_clean p2.
Proof. intros Hlow. unfold matches. rewrite Hlow. reflexivity. Qed.

(** Two lists of commands whose patterns are equal once lower-cased, place
    by place: the loop stops at the same place in both. *)
Lemma first_match_lower (text_clean : string) (commands1 commands2 : list command) :
  Forall2 (fun c1 c2 => lower <$> pattern c1 = lower <$> pattern c2)
          commands1 commands2 ->
  match first_match text_clean commands1, first_match text_clean commands2 with
  | Ok (Some c1), Ok (Some c2) =>
      exists i : nat, commands1 !! i = Some c1 /\ commands2 !! i = Some c2
  | Ok None, Ok None => True
  | Raise e1, Raise e2 => e1 = e2
  | _, _ => False
  end.
Proof.
  induction 1 as [|c1 c2 commands1 commands2 Hpat _ IH]; cbn [first_match];
    [exact I|].
  destruct (pattern c1) as [p1|], (pattern c2) as [p2|]; try discriminate;
    [|reflexivity].
  injection Hpat as Hlow. rewrite (matches_lower text_clean p1 p2 Hlow).
  destruct (matches text_clean p2).
  - exists 0%nat. split; reflexivity.
  - destruct (first_match text_clean commands1) as [[d1|]|e1],
             (first_match text_clean commands2) as [[d2|]|e2]; try exact IH.
    destruct IH as (i & Hi1 & Hi2). exists (S i). split; assumption.
Qed.

(** X17.  Matching ignores letter case.  Take two transcripts that are
    equal once lower-cased, and two lists of commands whose patterns are
    equal once lower-cased, place by place: either the matcher executes the
    commands at one and the same place of the two lists, or it executes
    none in both, or it raises the same exception in both. *)
Theorem matching_ignores_case (t1 t2 : string)
    (commands1 commands2 : list command) :
  lower t1 = lower t2 ->
  Forall2 (fun c1 c2 => lower <$> pattern c1 = lower <$> pattern c2)
          commands1 commands2 ->
  match match_transcript t1 commands1, match_transcript t2 commands2 with
  | Ok (Some c1), Ok (Some c2) =>
      exists i : nat, commands1 !! i = Some c1 /\ commands2 !! i = Some c2
  | Ok None, Ok None => True
  | Raise e1, Raise e2 => e1 = e2
  | _, _ => False
  end.
Proof.
  intros Hlow Hcommands. unfold match_transcript, _process_command.
  assert (Htruthy : truthy (Some t1) = truthy (Some t2)).
  { destruct t1, t2; try reflexivity; discriminate. }
  rewrite Htruthy, <- !strip_lower, Hlow.
  destruct (truthy (Some t2)); [|exact I].
  apply first_match_lower. exact Hcommands.
Qed.

End MatcherCase.

(** ** The action dispatcher: the requests it sends *)

Section DispatcherRequests.

Import PyStr Dispatcher Requests.
Local Open Scope string_scope.
Context `{Http} `{Json}.

(** The events of one action: the warning about the first token, if any,
    then either no request at all, or one request, built from the action,
    and the report of its result. *)
Lemma execute_action_events (environ : gmap string string)
    (action_config : action_config) :
  posted (_execute_action environ action_config) = [] \/
  exists act domain service data req,
    action action_config = Some act /\
    split_dot act = Some (domain, service) /\
    match service_data action_config with
    | inl str => json_loads str
    | inr dict => Ok dict
    end = Ok data /\
    truthy (get_token environ) = true /\
    req = {| url := "http://supervisor/core/api/services/" ++ domain ++ "/"
                    ++ service;
             json := data ∪ match entity_id action_config with
                            | Some (String _ _ as e) => {[ "entity_id" := e ]}
                            | _ => ∅
                            end;
             authorization := "Bearer " ++ default EmptyString (get_token environ) |} /\
    posted (_execute_action environ action_config) = [req].
Proof.
  unfold _execute_action, execute_action_body, get_token.
  set (token := if negb (truthy (environ !! "SUPERVISOR_TOKEN"))
                then environ !! "HASSIO_TOKEN"
                else environ !! "SUPERVISOR_TOKEN").
  set (warned := if negb (truthy (environ !! "SUPERVISOR_TOKEN"))
                 then [WarnNoSupervisorToken] else []).
  assert (Hwarned : posted warned = [])
    by (subst warned; destruct (negb _); reflexivity).
  destruct (truthy token) eqn:Htoken; cbn [negb].
  2:{ left. rewrite posted_app, Hwarned. reflexivity. }
  destruct (action action_config) as [act|] eqn:Hact.
  2:{ left. rewrite posted_app, Hwarned. reflexivity. }
  destruct (split_dot act) as [[domain service]|] eqn:Hsplit.
  2:{ left. rewrite posted_app, Hwarned. reflexivity. }
  match goal with
  | |- context [match ?d with Ok _ => _ | Raise _ => _ end] =>
      destruct d as [data|e] eqn:Hdata
  end.
  2:{ left. rewrite posted_app, Hwarned. reflexivity. }
  right. eexists act, domain, service, data, _.
  do 5 (split; [first [reflexivity|eassumption]|]).
  match goal with
  | |- context [post ?r] => destruct (post r) as [resp|e]
  end.
  - rewrite posted_app, Hwarned. cbn. destruct (ok resp); reflexivity.
  - rewrite !posted_app, Hwarned. reflexivity.
Qed.

(** X18.  Every request of an action goes to the service named by the
    action: the action name is cut at its first dot, and the URL is that of
    the service after the dot in the domain before it.  An action name
    without a dot sends nothing. *)
Theorem request_goes_to_the_named_service (environ : gmap string string)
    (action_config : action_config) :
  (forall req,
     In req (posted (_execute_action environ action_config)) ->
     exists domain service,
       action action_config = Some (domain ++ "." ++ service) /\
       mem "."%char domain = false /\
       url req = "http://supervisor/core/api/services/" ++ domain ++ "/"
                 ++ service) /\
  (forall act,
     action action_config = Some act -> mem "."%char act = false ->
     posted (_execute_action environ action_config) = []).
Proof.
  destruct (execute_action_events environ action_config)
    as [Hnone|(act & domain & service & data & req & Hact & Hsplit & _ & _ & -> & Hposted)].
  - rewrite Hnone. split; [intros req []|reflexivity].
  - destruct (split_dot_Some _ _ _ Hsplit) as [Heq Hdot]. rewrite Hposted. split.
    + intros req [<-|[]]. exists domain, service. rewrite Hact, Heq. auto.
    + intros act' Hact' Hnodot. rewrite Hact in Hact'. injection Hact' as <-.
      rewrite Heq, !mem_append in Hnodot.
      destruct (mem "."%char domain); vm_compute in Hnodot; discriminate.
Qed.

(** X19.  The data of the service take precedence over the target: in the
    body of a request, ["entity_id"] is the one given in [service_data]
    when there is one, else the non-empty [entity_id] of the action; every
    other key is as in [service_data]. *)
Theorem service_data_overrides_the_target (environ : gmap string string)
    (action_config : action_config) (data : gmap string string) (req : request) :
  service_data action_config = inr data ->
  In req (posted (_execute_action environ action_config)) ->
  json req !! "entity_id" =
    match data !! "entity_id" with
    | Some v => Some v
    | None => if truthy (entity_id action_config)
              then entity_id action_config else None
    end /\
  (forall key, key <> "entity_id" -> json req !! key = data !! key).
Proof.
  intros Hdata Hreq.
  destruct (execute_action_events environ action_config)
    as [Hnone|(act & domain & service & data' & req' & _ & _ & Hd & _ & -> & Hposted)].
  - rewrite Hnone in Hreq. destruct Hreq.
  - rewrite Hposted in Hreq. destruct Hreq as [<-|[]].
    rewrite Hdata in Hd. injection Hd as <-. cbn [json]. split.
    + rewrite lookup_union.
      destruct (data !! "entity_id") as [v|]; [destruct (_ !! _); reflexivity|].
      destruct (entity_id action_config) as [[|c e]|]; cbn [truthy].
      * rewrite lookup_empty. reflexivity.
      * rewrite lookup_singleton_eq. reflexivity.
      * rewrite lookup_empty. reflexivity.
    + intros key Hkey. rewrite lookup_union.
      assert (Hother : (match entity_id action_config with
                        | Some (String _ _ as e) => {[ "entity_id" := e ]}
                        | _ => ∅
                        end : gmap string string) !! key = None).
      { destruct (entity_id action_config) as [[|c e]|];
          [apply lookup_empty|apply lookup_singleton_ne; congruence|apply lookup_empty]. }
      rewrite Hother. destruct (data !! key); reflexivity.
Qed.

Lemma execute_each_posted (environ : gmap string string)
    (actions_list : list action_config) :
  (length (posted (execute_each environ actions_list)) <= length actions_list)%nat.
Proof.
  induction actions_list as [|a rest IH]; [reflexivity|].
  cbn [execute_each length]. rewrite posted_app, length_app.
  destruct (execute_action_events environ a)
    as [->|(? & ? & ? & ? & ? & _ & _ & _ & _ & _ & ->)]; cbn [length]; lia.
Qed.

(** X20.  An action sends at most one request, and none without a token;
    a command sends at most as many requests as it has actions (one for the
    old format, none for a command without any action field). *)
Theorem at_most_one_request_per_action (environ : gmap string string)
    (action_config : action_config) (command : command) :
  (length (posted (_execute_action environ action_config)) <= 1)%nat /\
  (truthy (get_token environ) = false ->
   posted (_execute_action environ action_config) = []) /\
  (length (posted (_execute_actions environ command))
     <= match actions command with
        | Some actions_list => length actions_list
        | None => match legacy_action command with Some _ => 1 | None => 0 end
        end)%nat.
Proof.
  repeat apply conj.
  - destruct (execute_action_events environ action_config)
      as [->|(? & ? & ? & ? & ? & _ & _ & _ & _ & _ & ->)]; cbn [length]; lia.
  - intros Htoken.
    destruct (execute_action_events environ action_config)
      as [Hnone|(? & ? & ? & ? & ? & _ & _ & _ & Ht & _ & _)];
      [exact Hnone|congruence].
  - unfold _execute_actions.
    destruct (actions command) as [actions_list|];
      [apply execute_each_posted|].
    destruct (legacy_action command) as [act|]; [|cbn; lia].
    apply (execute_each_posted environ [_]).
Qed.

End DispatcherRequests.

(** ** The framing of [app.py] *)

Section LegacyWireFacts.

Import LegacyWire.

Lemma byte_of_value (z : Z) : Z.of_N (Byte.to_N (byte_of z)) = z mod 256.
Proof.
  unfold byte_of.
  assert (Hrange : 0 <= z mod 256 < 256) by (apply Z.mod_pos_bound; lia).
  destruct (Byte.of_N (Z.to_N (z mod 256))) as [b|] eqn:Hb;
    unfold default; cbn [from_option id].
  - apply Byte.to_of_N in Hb. rewrite Hb. lia.
  - apply Byte.of_N_None_iff in Hb. lia.
Qed.

Lemma pack_unpack (n : Z) :
  0 <= n < 2 ^ 32 ->
  exists header,
    pack_u32 n = Some header /\ length header = 4%nat /\
    unpack_u32 header = Some n.
Proof.
  intros Hn. unfold pack_u32.
  destruct (Z.leb_spec 0 n) as [_|Hneg]; [|lia].
  destruct (Z.ltb_spec n (2 ^ 32)) as [_|Hbig]; [|lia]. cbn [andb].
  eexists. split; [reflexivity|]. split; [reflexivity|].
  cbn [unpack_u32]. rewrite !byte_of_value. f_equal.
  change (2 ^ 32) with 4294967296 in Hn.
  Z.div_mod_to_equations. lia.
Qed.

(** What [frame] returns: the header and then the message. *)
Lemma frame_inv (data framed : bytes) :
  frame data = Some framed ->
  exists header,
    framed = header ++ data /\ length header = 4%nat /\
    unpack_u32 header = Some (Z.of_nat (length data)).
Proof.
  unfold frame. intros Hframe.
  destruct (pack_u32 (Z.of_nat (length data))) as [header|] eqn:Hpack;
    [|discriminate].
  injection Hframe as <-. exists header. split; [reflexivity|].
  destruct (Z.lt_ge_cases (Z.of_nat (length data)) (2 ^ 32)) as [Hlt|Hge].
  - destruct (pack_unpack (Z.of_nat (length data)) ltac:(lia))
      as (header' & Hpack' & Hfour & Hunpack).
    rewrite Hpack' in Hpack. injection Hpack as <-. auto.
  - unfold pack_u32 in Hpack.
    destruct (Z.ltb_spec (Z.of_nat (length data)) (2 ^ 32)) as [Hlt|_]; [lia|].
    rewrite andb_false_r in Hpack. discriminate.
Qed.

(** X21.  The length header round-trips: a length below [2 ^ 32] is packed
    into four bytes from which [unpack_u32] reads the same length; a
    message of [2 ^ 32] bytes or more cannot be framed ([struct.error]). *)
Theorem length_header_round_trips (data : bytes) :
  (Z.of_nat (length data) < 2 ^ 32 ->
   exists header,
     frame data = Some (header ++ data) /\ length header = 4%nat /\
     unpack_u32 header = Some (Z.of_nat (length data))) /\
  (2 ^ 32 <= Z.of_nat (length data) -> frame data = None).
Proof.
  unfold frame. split.
  - intros Hlen.
    destruct (pack_unpack (Z.of_nat (length data)) ltac:(lia))
      as (header & Hpack & Hfour & Hunpack).
    exists header. rewrite Hpack. auto.
  - intros Hlen. unfold pack_u32.
    destruct (Z.ltb_spec (Z.of_nat (length data)) (2 ^ 32)) as [Hlt|_]; [lia|].
    rewrite andb_false_r. reflexivity.
Qed.

(** The loop reads exactly the bytes it was told to, however they are cut
    into pieces. *)
Lemma read_body_complete (stream : list bytes) (size : nat)
    (data need more : bytes) :
  Forall (fun piece => piece <> []) stream ->
  concat stream = need ++ more ->
  (length data + length need = size)%nat ->
  exists stream',
    read_body size data stream = (Some (data ++ need), stream') /\
    concat stream' = more.
Proof.
  revert data need; induction stream as [|piece rest IH];
    intros data need Hne Hcat Hsize; cbn [read_body].
  - symmetry in Hcat. apply app_eq_nil in Hcat as [-> ->].
    cbn [length] in Hsize. rewrite Nat.add_0_r in Hsize.
    destruct (Nat.leb_spec size (length data)) as [_|Hlt]; [|lia].
    exists []. rewrite app_nil_r. split; reflexivity.
  - apply Forall_cons in Hne as [Hpiece Hne]. cbn [concat] in Hcat.
    destruct (Nat.leb_spec size (length data)) as [Hle|Hlt].
    + assert (need = []) by (destruct need; [reflexivity|cbn [length] in Hsize; lia]).
      subst need. exists (piece :: rest). rewrite app_nil_r. split; [reflexivity|].
      exact Hcat.
    + replace (size - length data)%nat with (length need) by lia.
      destruct (Nat.leb_spec (length piece) (length need)) as [Hfit|Hbig].
      * destruct piece as [|b piece]; [congruence|].
        assert (Hneed : need = (b :: piece) ++ drop (length (b :: piece)) need).
        { rewrite <- (take_drop (length (b :: piece)) need) at 1. f_equal.
          apply (f_equal (take (length (b :: piece)))) in Hcat.
          rewrite take_app_length, take_app_le in Hcat by lia.
          symmetry. exact Hcat. }
        destruct (IH (data ++ b :: piece) (drop (length (b :: piece)) need) Hne)
          as (stream' & Hread & Hmore).
        -- apply (f_equal (drop (length (b :: piece)))) in Hcat.
           rewrite drop_app_length, drop_app_le in Hcat by lia. exact Hcat.
        -- rewrite length_app, length_drop. lia.
        -- exists stream'. rewrite Hread, <- app_assoc, <- Hneed. auto.
      * exists (drop (length need) piece :: rest). split.
        -- apply (f_equal (take (length need))) in Hcat.
           rewrite take_app_le, take_app_length in Hcat by lia.
           rewrite Hcat. reflexivity.
        -- cbn [concat]. apply (f_equal (drop (length need))) in Hcat.
           rewrite drop_app_le, drop_app_length in Hcat by lia. exact Hcat.
Qed.

(** The loop gives up when the stream ends before the announced length. *)
Lemma read_body_truncated (stream : list bytes) (size : nat) (data : bytes) :
  Forall (fun piece => piece <> []) stream ->
  (length data + length (concat stream) < size)%nat ->
  read_body size data stream = (None, []).
Proof.
  revert data; induction stream as [|piece rest IH]; intros data Hne Hshort;
    cbn [read_body concat] in *.
  - destruct (Nat.leb_spec size (length data)); [cbn [length] in Hshort; lia|].
    reflexivity.
  - apply Forall_cons in Hne as [Hpiece Hne]. rewrite length_app in Hshort.
    destruct (Nat.leb_spec size (length data)); [lia|].
    destruct (Nat.leb_spec (length piece) (size - length data)); [|lia].
    destruct piece as [|b piece]; [congruence|].
    apply IH; [exact Hne|]. rewrite length_app. lia.
Qed.

(** The header read from a stream whose first piece holds it whole. *)
Lemma recv_header (first : bytes) (rest : list bytes) (header tail : bytes) :
  length header = 4%nat -> (4 <= length first)%nat ->
  concat (first :: rest) = header ++ tail ->
  first <> [] -> Forall (fun piece => piece <> []) rest ->
  exists stream1,
    recv 4 (first :: rest) = (header, stream1) /\
    concat stream1 = tail /\
    Forall (fun piece => piece <> []) stream1.
Proof.
  intros Hfour Hfirst Hcat Hne Hrest. cbn [concat] in Hcat. unfold recv.
  assert (Hhead : take 4 first = header).
  { apply (f_equal (take 4)) in Hcat.
    rewrite take_app_le, <- Hfour, take_app_length in Hcat by lia.
    rewrite Hfour in Hcat. exact Hcat. }
  assert (Htail : drop 4 first ++ concat rest = tail).
  { apply (f_equal (drop 4)) in Hcat.
    rewrite drop_app_le, <- Hfour, drop_app_length in Hcat by lia.
    rewrite Hfour in Hcat. exact Hcat. }
  destruct (Nat.leb_spec (length first) 4) as [Hle|Hgt].
  - exists rest. rewrite take_ge in Hhead by lia.
    rewrite drop_ge in Htail by lia. subst header. auto.
  - exists (drop 4 first :: rest). rewrite Hhead. split; [reflexivity|].
    split; [exact Htail|]. constructor; [|exact Hrest].
    intros Hnil. apply (f_equal length) in Hnil.
    rewrite length_drop in Hnil. cbn [length] in Hnil. lia.
Qed.

(** X22.  A message framed by [_send_message] is read back whole by
    [_receive_message], however the stream cuts it into pieces, provided
    the first piece holds the four bytes of the header: the bytes given to
    [json.loads] are the bytes sent, and what follows the message is left
    in the stream. *)
Theorem framed_message_is_received (data framed more : bytes)
    (first : bytes) (rest : list bytes) :
  frame data = Some framed ->
  concat (first :: rest) = framed ++ more ->
  (4 <= length first)%nat ->
  Forall (fun piece => piece <> []) rest ->
  exists stream',
    _receive_message (first :: rest) = (Some data, stream') /\
    concat stream' = more.
Proof.
  intros Hframe Hcat Hfirst Hrest.
  destruct (frame_inv _ _ Hframe) as (header & -> & Hfour & Hunpack).
  rewrite <- app_assoc in Hcat.
  assert (Hne : first <> []) by (intros ->; cbn [length] in Hfirst; lia).
  destruct (recv_header _ _ _ _ Hfour Hfirst Hcat Hne Hrest)
    as (stream1 & Hrecv & Htail & Hpieces).
  unfold _receive_message. rewrite Hrecv.
  destruct header as [|b0 header]; [discriminate|].
  rewrite Hunpack, Nat2Z.id.
  exact (read_body_complete stream1 _ [] data more Hpieces Htail eq_refl).
Qed.

(** X23.  A message whose stream ends before the announced length is given
    up: when the peer closes after the header and only a part of the body,
    [_receive_message] returns [None] and has read all that came. *)
Theorem cut_message_is_given_up (data framed : bytes) (k : nat)
    (first : bytes) (rest : list bytes) :
  frame data = Some framed ->
  (k < length framed)%nat ->
  concat (first :: rest) = take k framed ->
  (4 <= length first)%nat ->
  Forall (fun piece => piece <> []) rest ->
  _receive_message (first :: rest) = (None, []).
Proof.
  intros Hframe Hk Hcat Hfirst Hrest.
  destruct (frame_inv _ _ Hframe) as (header & -> & Hfour & Hunpack).
  rewrite length_app in Hk.
  assert (Hk4 : (4 <= k)%nat).
  { apply (f_equal length) in Hcat. cbn [concat] in Hcat.
    rewrite length_app, length_take, length_app in Hcat. lia. }
  rewrite take_app_ge in Hcat by lia.
  assert (Hne : first <> []) by (intros ->; cbn [length] in Hfirst; lia).
  destruct (recv_header _ _ _ _ Hfour Hfirst Hcat Hne Hrest)
    as (stream1 & Hrecv & Htail & Hpieces).
  unfold _receive_message. rewrite Hrecv.
  destruct header as [|b0 header]; [discriminate|].
  rewrite Hunpack, Nat2Z.id.
  apply read_body_truncated; [exact Hpieces|].
  rewrite Htail, length_take. cbn [length] in *. lia.
Qed.

(** X24.  A header that does not come in one piece loses the message: when
    the first [recv] returns one, two or three bytes, [struct.unpack]
    raises, [_receive_message] returns [None], and the bytes that follow,
    whatever they are, stay unread in the stream. *)
Theorem split_header_loses_the_message (first : bytes) (rest : list bytes) :
  (0 < length first < 4)%nat ->
  _receive_message (first :: rest) = (None, rest).
Proof.
  intros Hlen. unfold _receive_message, recv.
  destruct (Nat.leb_spec (length first) 4) as [_|Hgt]; [|lia].
  destruct first as [|b0 [|b1 [|b2 [|b3 first]]]];
    cbn [length] in Hlen; try lia; reflexivity.
Qed.

End LegacyWireFacts.

(** ** The segmenter of [app.py] *)

Section LegacySegmenterFacts.

Import LegacySegmenter.

Context `{Segmenter.Vad}.

Lemma legacy_feed_app (self : AudioBuffer) (xs ys : list bytes) :
  feed self (xs ++ ys) =
    let '(self1, outs1) := feed self xs in
    let '(self2, outs2) := feed self1 ys in
    (self2, outs1 ++ outs2).
Proof.
  revert self; induction xs as [|x xs IH]; intros self; cbn [app feed].
  - destruct (feed self ys). reflexivity.
  - destruct (add_frame self x) as [self1 out]. rewrite IH.
    destruct (feed self1 xs) as [self2 outs1].
    destruct (feed self2 ys) as [self3 outs2]. reflexivity.
Qed.

Lemma legacy_speech_run (frames : list bytes) (self : AudioBuffer) :
  Forall (fun f => is_speech self f = true) frames ->
  frames <> [] ->
  feed self frames =
    (update self (buffer self ++ frames) true 0,
     repeat None (length frames)).
Proof.
  revert self; induction frames as [|f frames IH]; intros self Hall Hne;
    [congruence|].
  apply Forall_cons in Hall as [Hf Hall]. cbn [feed]. unfold add_frame.
  rewrite Hf. destruct frames as [|g frames].
  - cbn [feed length repeat]. reflexivity.
  - rewrite IH; [|exact Hall|discriminate].
    cbn [length repeat]. unfold update; cbn. rewrite <- app_assoc. reflexivity.
Qed.

(** X25.  The segmenter of [app.py] never cuts continuous speech: as long
    as the detector reports speech, or raises, [add_frame] returns [None]
    and keeps every frame, however many there are. *)
Theorem legacy_speech_is_never_cut (self : AudioBuffer) (frames : list bytes) :
  Forall (fun f => Segmenter.vad_is_speech f (sample_rate self) <> Some false)
         frames ->
  exists self',
    feed self frames = (self', repeat None (length frames)) /\
    buffer self' = buffer self ++ frames.
Proof.
  intros Hall. destruct frames as [|f frames].
  - exists self. cbn. rewrite app_nil_r. auto.
  - eexists. split.
    + apply legacy_speech_run; [|discriminate].
      eapply Forall_impl; [exact Hall|]. cbn. intros g Hg. unfold is_speech.
      destruct (Segmenter.vad_is_speech g (sample_rate self)) as [[|]|];
        [reflexivity|congruence|reflexivity].
    + reflexivity.
Qed.

Lemma legacy_add_frame_tracks (self0 self self' : AudioBuffer)
    (hist : list bytes) (f : bytes) (out : option bytes) :
  1 <= max_silence_frames self0 ->
  tracks self0 hist self ->
  add_frame self f = (self', out) ->
  tracks self0 (hist ++ [f]) self' /\
  (forall u, out = Some u -> closed_by_silence self0 (hist ++ [f]) u).
Proof.
  intros Hmsf Htr Hadd. unfold add_frame in Hadd.
  destruct Htr as [|pre f0 body f1 sil Hhist Hf0 Hlast Hf1 Hsil Hlt].
  - change (is_speech (reset self0) f) with (is_speech self0 f) in Hadd.
    destruct (is_speech self0 f) eqn:Hf.
    + injection Hadd as <- <-. split; [|discriminate].
      replace (update (reset self0) (buffer (reset self0) ++ [f]) true 0)
        with (update self0 ((f :: []) ++ []) true (Z.of_nat (length (@nil bytes))))
        by reflexivity.
      apply (tracks_speaking self0 (hist ++ [f]) hist f [] f []);
        [rewrite app_nil_r; reflexivity|exact Hf|reflexivity|exact Hf
        |constructor|cbn [length]; lia].
    + cbn [is_speaking reset update] in Hadd. injection Hadd as <- <-.
      split; [constructor|discriminate].
  - change (is_speech (update self0 ((f0 :: body) ++ sil) true
                         (Z.of_nat (length sil))) f)
      with (is_speech self0 f) in Hadd.
    destruct (is_speech self0 f) eqn:Hf.
    + injection Hadd as <- <-. split; [|discriminate].
      replace (update _ _ true 0)
        with (update self0 ((f0 :: body ++ sil ++ [f]) ++ []) true
                (Z.of_nat (length (@nil bytes)))).
      2:{ unfold update; cbn. rewrite app_nil_r, <- app_assoc. reflexivity. }
      apply (tracks_speaking self0 (hist ++ [f]) pre f0 (body ++ sil ++ [f]) f []).
      * rewrite Hhist, app_nil_r. cbn [app]. rewrite <- !app_assoc.
        cbn [app]. rewrite <- app_assoc. reflexivity.
      * exact Hf0.
      * change (f0 :: body ++ sil ++ [f]) with ((f0 :: body) ++ sil ++ [f]).
        rewrite app_assoc. apply last_snoc.
      * exact Hf.
      * constructor.
      * cbn [length]. lia.
    + cbn [is_speaking update max_silence_frames silence_frames buffer] in Hadd.
      destruct (Z.leb_spec (max_silence_frames self0) (Z.of_nat (length sil) + 1))
        as [Hend|Hgo]; injection Hadd as <- <-.
      * split; [exact (tracks_idle self0 _)|]. intros u [= <-].
        exists pre, f0, body, f1, (sil ++ [f]).
        split; [rewrite Hhist, <- !app_assoc; reflexivity|].
        split; [exact Hf0|]. split; [exact Hlast|]. split; [exact Hf1|].
        split; [apply Forall_app; split; [exact Hsil|repeat constructor; exact Hf]|].
        split; [rewrite length_app; cbn [length]; lia|].
        rewrite <- app_assoc. reflexivity.
      * split; [|discriminate].
        replace (update _ _ true (Z.of_nat (length sil) + 1))
          with (update self0 ((f0 :: body) ++ sil ++ [f]) true
                  (Z.of_nat (length (sil ++ [f])))).
        2:{ unfold update; cbn. rewrite length_app, <- app_assoc. cbn [length].
            do 2 f_equal. lia. }
        apply (tracks_speaking self0 (hist ++ [f]) pre f0 body f1 (sil ++ [f])).
        -- rewrite Hhist, <- !app_assoc. reflexivity.
        -- exact Hf0.
        -- exact Hlast.
        -- exact Hf1.
        -- apply Forall_app; split; [exact Hsil|repeat constructor; exact Hf].
        -- rewrite length_app; cbn [length]; lia.
Qed.

Lemma legacy_feed_tracks (self0 : AudioBuffer) (frames hist : list bytes)
    (self self' : AudioBuffer) (outs : list (option bytes)) :
  1 <= max_silence_frames self0 ->
  tracks self0 hist self ->
  feed self frames = (self', outs) ->
  length outs = length frames /\
  tracks self0 (hist ++ frames) self' /\
  forall (i : nat) (u : bytes),
    outs !! i = Some (Some u) ->
    closed_by_silence self0 (hist ++ take (S i) frames) u.
Proof.
  intros Hmsf. revert hist self outs.
  induction frames as [|f frames IH]; intros hist self outs Htr Hfeed;
    cbn [feed] in Hfeed.
  - injection Hfeed as <- <-. rewrite app_nil_r.
    split; [reflexivity|]. split; [exact Htr|]. intros i u Hi. destruct i; discriminate.
  - destruct (add_frame self f) as [self1 out] eqn:Hadd.
    destruct (feed self1 frames) as [self2 outs1] eqn:Hrest.
    injection Hfeed as <- <-.
    destruct (legacy_add_frame_tracks _ _ _ _ _ _ Hmsf Htr Hadd) as [Htr1 Hout].
    destruct (IH _ _ _ Htr1 Hrest) as (Hlen & Htr2 & Houts).
    split; [cbn [length]; lia|].
    split; [rewrite <- app_assoc in Htr2; exact Htr2|].
    intros [|i] u Hi.
    + cbn in Hi. injection Hi as ->. cbn [take]. apply Hout. reflexivity.
    + cbn in Hi. specialize (Houts i u Hi).
      rewrite <- app_assoc in Houts. exact Houts.
Qed.

(** X26.  Started idle with a positive silence limit, the segmenter of
    [app.py] returns an utterance only at the end of a run of exactly
    [max_silence_frames] non-speech frames that follows a speech frame:
    the utterance is the frames from a speech frame up to that run,
    put end to end. *)
Theorem legacy_utterance_is_closed_by_silence (self self' : AudioBuffer)
    (frames : list bytes) (outs : list (option bytes)) (i : nat) (u : bytes) :
  self = reset self ->
  1 <= max_silence_frames self ->
  feed self frames = (self', outs) ->
  outs !! i = Some (Some u) ->
  closed_by_silence self (take (S i) frames) u.
Proof.
  intros Hidle Hmsf Hfeed Hi.
  assert (Htr : tracks self [] self) by (rewrite Hidle at 2; constructor).
  destruct (legacy_feed_tracks _ _ _ _ _ _ Hmsf Htr Hfeed) as (_ & _ & Houts).
  exact (Houts i u Hi).
Qed.

End LegacySegmenterFacts.

(** ** The client of [app.py]: what is sent *)

Section LegacyClientFacts.

Import Legacy.

(** X27.  Called without a socket on a server that accepts the connection
    and every send, the client of [app.py] connects, sends the start of the
    transcription, the audio in chunks, the end of the audio, and reads one
    message: the chunks put end to end are the audio, and none is empty or
    longer than 8192 bytes. *)
Theorem legacy_audio_is_sent_whole (audio_data : bytes)
    (sample_rate sample_width channels : Z) (srv : server) :
  accepts srv = true ->
  send_budget srv = None ->
  exists chunks closed,
    (send_audio {| socket := None |} audio_data sample_rate sample_width
                channels srv).2 =
      [NewSocket; Connected;
       SendAll (Transcribe sample_rate sample_width channels)]
      ++ map (fun c => SendAll (AudioChunkHex c)) chunks
      ++ [SendAll AudioStopMsg; Recv] ++ closed /\
    join chunks = audio_data /\
    Forall (fun c => 0 < Z.of_nat (length c) <= 8192) chunks /\
    (closed = [] \/ closed = [Close]).
Proof.
  intros Hacc Hbudget.
  assert (Hn : (0 < Z.to_nat 8192)%nat) by lia.
  exists (Wyoming.slices (length audio_data) (Z.to_nat 8192) audio_data).
  exists (match answer srv with NotAnObject true => [Close] | _ => [] end).
  split; [|split; [|split]].
  - unfold send_audio, connect. cbn [socket]. rewrite Hacc. cbn [negb socket default].
    rewrite Hbudget, send_messages_unlimited. unfold outgoing.
    rewrite map_app, map_cons, map_map.
    destruct (answer srv) as [| |type text|[|]]; cbn [disconnect socket snd];
      try destruct (bool_decide _); cbn [snd app];
      rewrite <- ?app_assoc; reflexivity.
  - apply slices_join; [exact Hn|reflexivity].
  - destruct (slices_lengths (length audio_data) (Z.to_nat 8192) audio_data
                Hn (le_n _)) as [Hall _].
    eapply Forall_impl; [exact Hall|]. cbn beta. intros c Hc. lia.
  - destruct (answer srv) as [| |type text|[|]]; auto.
Qed.

End LegacyClientFacts.

(** ** From an utterance to the requests *)

Section PipelineFacts.

Import PyStr Dispatcher Matcher Requests Pipeline.

Context `{Http} `{Json}.

Lemma first_match_inv (text_clean : string) (commands : list command)
    (c : command) :
  first_match text_clean commands = Ok (Some c) ->
  exists before rest p,
    commands = before ++ c :: rest /\
    Forall (fun b => exists q, pattern b = Some q /\ matches text_clean q = false)
           before /\
    pattern c = Some p /\ matches text_clean p = true.
Proof.
  induction commands as [|b commands IH]; cbn [first_match]; [discriminate|].
  destruct (pattern b) as [q|] eqn:Hq; [|discriminate].
  destruct (matches text_clean q) eqn:Hm.
  - intros [= <-]. exists [], commands, q. repeat split; auto.
  - intros Hrest. destruct (IH Hrest) as (before & rest & p & -> & Hno & Hp & Hyes).
    exists (b :: before), rest, p. repeat split; auto.
    constructor; [exists q; auto|exact Hno].
Qed.

(** X28.  A request is sent for an utterance only when the server returned
    a transcript that is not empty and a command matches it: the request is
    then one of the first matching command, no command before it matches,
    and the utterance gives at most as many requests as that command has
    actions. *)
Theorem requests_need_a_transcript_and_a_match (environ : gmap string string)
    (commands : list command) (audio_data : bytes) (sample_rate : Z)
    (srv : Wyoming.server) (req : request) :
  In req (posted (_transcribe_and_process environ commands audio_data
                    sample_rate srv).1) ->
  exists text before c rest p,
    Wyoming.value (Wyoming.send_audio audio_data sample_rate 2 1 srv) = Some text /\
    text <> EmptyString /\
    commands = before ++ c :: rest /\
    Forall (fun b => exists q, pattern b = Some q /\
                       matches (rstrip ".,!?" (strip (lower (strip text)))) q = false)
           before /\
    pattern c = Some p /\
    matches (rstrip ".,!?" (strip (lower (strip text)))) p = true /\
    (_transcribe_and_process environ commands audio_data sample_rate srv).1 =
      _execute_actions environ c /\
    (length (posted (_execute_actions environ c)) <=
       match actions c with
       | Some actions_list => length actions_list
       | None => 1
       end)%nat.
Proof.
  unfold _transcribe_and_process.
  destruct (sample_rate * 2 =? 0); [intros []|].
  destruct (Wyoming.value _) as [text|]; [|intros []].
  unfold match_transcript, _process_command.
  destruct text as [|ch text]; cbn [truthy]; [intros []|].
  destruct (first_match _ commands) as [[c|]|e] eqn:Hfirst; [|intros []|intros []].
  cbn [fst]. intros _.
  destruct (first_match_inv _ _ _ Hfirst) as (before & rest & p & Hc & Hno & Hp & Hyes).
  exists (String ch text), before, c, rest, p.
  do 7 (split; [first [reflexivity|assumption|discriminate]|]).
  unfold _execute_actions. destruct (actions c) as [actions_list|].
  - apply execute_each_posted.
  - destruct (legacy_action c); [apply execute_each_posted|cbn; lia].
Qed.

End PipelineFacts.

(** * Examples of the further properties *)

Section SegmenterFurtherExamples.

Import Segmenter Limits Driver.

Lemma add_frame_raises_on_odd_frames_witness :
  let capped := update (init 0 (1 # 2)) (replicate 999 loud) true 0 999 in
  add_frame (H := vad_flags) fresh [x01%byte] = Raise ValueError /\
  (exists self' out, add_frame (H := vad_flags) fresh loud = Ok (self', out)) /\
  ((ZeroDivisionError = ValueError /\ Nat.even (length loud) = false) \/
   (ZeroDivisionError = ZeroDivisionError /\ Nat.even (length loud) = true /\
    sample_rate capped = 0)).
Proof.
  intros capped. split; [|split].
  - apply (proj1 (add_frame_raises_on_odd_frames (H := vad_flags) fresh
                    [x01%byte])).
    reflexivity.
  - apply (proj1 (proj2 (add_frame_raises_on_odd_frames (H := vad_flags) fresh
                           loud))).
    + reflexivity.
    + discriminate.
  - apply (proj2 (proj2 (add_frame_raises_on_odd_frames (H := vad_rejects)
                           capped loud))).
    vm_compute; reflexivity.
Defined.

Lemma quiet_frames_are_never_speech_witness :
  non_speech (H := vad_flags) fresh soft.
Proof.
  apply (quiet_frames_are_never_speech (H := vad_flags) fresh soft [100; 100]).
  - reflexivity.
  - reflexivity.
  - repeat constructor.
Defined.

Lemma counters_stay_within_limits_witness :
  let self' := update fresh [loud; quiet] true 1 1 in
  reset self' = reset fresh /\
  (is_speaking self' = false -> idle self') /\
  (is_speaking self' = true ->
   0 <= silence_frames self' < max_silence_frames fresh /\
   1 <= recorded_frames self' < max_recording_frames fresh /\
   Z.of_nat (length (buffer self'))
     <= recorded_frames self' * max_silence_frames fresh).
Proof.
  apply (counters_stay_within_limits (H := vad_rejects) fresh
           (update fresh [loud; quiet] true 1 1) [loud; quiet] [None; None]).
  - repeat split.
  - reflexivity.
  - vm_compute; reflexivity.
Defined.

Lemma utterance_length_is_bounded_witness :
  Z.of_nat (length (join (loud :: replicate 30 quiet)))
    <= longest_utterance fresh * Z.of_nat 4.
Proof.
  apply (utterance_length_is_bounded (H := vad_rejects) fresh fresh
           (loud :: replicate 30 quiet)
           (replicate 30 None ++ [Some (join (loud :: replicate 30 quiet))])
           30 (join (loud :: replicate 30 quiet)) 4).
  - repeat split.
  - reflexivity.
  - repeat constructor.
  - vm_compute; reflexivity.
  - reflexivity.
Defined.

Lemma no_speech_frame_is_lost_witness :
  exists chunks : list (list bytes),
    omap id (replicate 30 None ++ [Some (join (loud :: replicate 30 quiet))]) =
      map join chunks /\
    sublist (concat chunks ++ buffer fresh) (loud :: replicate 30 quiet) /\
    count_speech (H := vad_rejects) fresh (concat chunks ++ buffer fresh) =
      count_speech (H := vad_rejects) fresh (loud :: replicate 30 quiet).
Proof.
  apply (no_speech_frame_is_lost (H := vad_rejects) fresh fresh
           (loud :: replicate 30 quiet)
           (replicate 30 None ++ [Some (join (loud :: replicate 30 quiet))])).
  - repeat split.
  - vm_compute; reflexivity.
Defined.

Lemma driver_frames_are_whole_witness :
  (exists chunks tail,
     frames (frame_size 2) (loud ++ [x01%byte]) = Ok chunks /\
     Forall (fun c => Z.of_nat (length c) = frame_size 2) chunks /\
     loud ++ [x01%byte] = join chunks ++ tail /\
     Z.of_nat (length tail) < frame_size 2) /\
  frames (frame_size 0) loud = Raise ValueError.
Proof.
  split.
  - apply (proj1 (driver_frames_are_whole 2 (loud ++ [x01%byte]))). reflexivity.
  - apply (proj2 (driver_frames_are_whole 0 loud)). reflexivity.
Defined.

Lemma driver_never_makes_add_frame_raise_witness :
  exists self' utterances,
    process_audio (H := vad_rejects) fresh 480 (replicate 2000 x00%byte) =
      Ok (self', utterances).
Proof.
  apply (driver_never_makes_add_frame_raise (H := vad_rejects) fresh 480
           (replicate 2000 x00%byte)).
  - vm_compute; reflexivity.
  - reflexivity.
Defined.

Lemma driver_hands_over_every_utterance_witness :
  exists chunks outs,
    frames (frame_size 2) (join (replicate 30 quiet)) = Ok chunks /\
    feed (H := vad_rejects) (update fresh [loud] true 0 1) chunks =
      Ok (fresh, outs) /\
    [join (loud :: replicate 30 quiet)] = omap id outs /\
    Forall (fun u => u <> []) [join (loud :: replicate 30 quiet)].
Proof.
  apply (driver_hands_over_every_utterance (H := vad_rejects) fresh
           (update fresh [loud] true 0 1) fresh [loud] [None] 2
           (join (replicate 30 quiet))
           [join (loud :: replicate 30 quiet)]).
  - repeat split.
  - reflexivity.
  - vm_compute; reflexivity.
  - vm_compute; reflexivity.
Defined.

End SegmenterFurtherExamples.

Section WyomingFurtherExamples.

Import PyStr Wyoming.

Lemma audio_is_written_whole_witness :
  exists chunks,
    wire (send_audio Segmenter.loud 16000 2 1 silent) =
      Connect :: Write (AudioStart 16000 2 1)
        :: map (fun c => Write (AudioChunk 16000 2 1 c)) chunks
        ++ [Write AudioStop; Disconnect] /\
    join chunks = Segmenter.loud /\
    Forall (fun c => 0 < Z.of_nat (length c) <= 1024 * 2 * 1) chunks /\
    Z.of_nat (length chunks) =
      (Z.of_nat (length Segmenter.loud) + 1024 * 2 * 1 - 1) / (1024 * 2 * 1).
Proof.
  apply (audio_is_written_whole Segmenter.loud 16000 2 1 silent); reflexivity.
Defined.

Lemma nothing_is_written_after_a_failed_write_witness :
  let srv := {| accepts := true; write_budget := Some 1%nat; inbox := [] |} in
  wire (send_audio Segmenter.loud 16000 2 1 srv) =
    [Connect; Write (AudioStart 16000 2 1); Disconnect] /\
  value (send_audio Segmenter.loud 16000 2 1 srv) = None.
Proof.
  intros srv.
  destruct (nothing_is_written_after_a_failed_write Segmenter.loud 16000 2 1 srv 1
              eq_refl eq_refl) as [Hwire Hvalue].
  split; [exact Hwire|]. apply Hvalue. vm_compute; lia.
Defined.

Lemma returned_text_is_the_first_transcript_witness :
  exists skipped delay e rest,
    inbox (answers "ok") = skipped ++ (delay, Event e) :: rest /\
    Forall (fun dr => exists e', dr.2 = Event e' /\
                                 type e' <> "transcript"%string) skipped /\
    type e = "transcript"%string /\
    "ok"%string = strip (text e).
Proof.
  apply (returned_text_is_the_first_transcript Segmenter.loud 16000 2 1 (answers "ok") "ok").
  vm_compute; reflexivity.
Defined.

End WyomingFurtherExamples.

Section MatcherFurtherExamples.

Import PyStr Dispatcher Matcher.
Local Open Scope string_scope.

Lemma match_is_a_subsequence_witness :
  "please turn light on now" = strip (lower "Light On") \/
  sublist (split (strip (lower "Light On"))) (split "please turn light on now").
Proof.
  apply (match_is_a_subsequence "please turn light on now" "Light On").
  - apply (bool_decide_unpack _). vm_compute. exact I.
  - vm_compute; reflexivity.
Defined.

Lemma subsequence_is_matched_witness :
  matches "please turn light on now" "Light On" = true.
Proof.
  apply (subsequence_is_matched "please turn light on now" "Light On").
  - apply (bool_decide_unpack _). vm_compute. exact I.
  - vm_compute.
    repeat first [apply sublist_nil | apply sublist_skip | apply sublist_cons].
Defined.

Lemma blank_pattern_matches_everything_witness :
  matches "open the door" "  " = true /\
  first_match "open the door" [rule "  "; rule "door"] = Ok (Some (rule "  ")).
Proof.
  apply (blank_pattern_matches_everything "open the door" "  " (rule "  ")
           [rule "door"]); reflexivity.
Defined.

Lemma commands_are_tried_in_order_witness :
  first_match "light on" [rule "door"; rule "light on"; rule "on"] =
    Ok (Some (rule "light on")) /\
  first_match "light on"
    [rule "door";
     {| pattern := None; actions := None; legacy_action := None;
        legacy_entity_id := None; legacy_service_data := None |}] =
    Raise KeyError.
Proof.
  assert (Hbefore : Forall (fun b => exists q, pattern b = Some q /\
                                       matches "light on" q = false)
                           [rule "door"]).
  { constructor; [|constructor]. exists "door". split; reflexivity. }
  split.
  - apply (proj1 (commands_are_tried_in_order "light on" (rule "light on")
                    [rule "door"] [rule "on"] Hbefore) "light on");
      reflexivity.
  - apply (proj2 (commands_are_tried_in_order "light on" _ [rule "door"] []
                    Hbefore)).
    reflexivity.
Defined.

(** The witness has a letter outside ASCII: U+00C1 and its lower case
    U+00E1, in a transcript and in a pattern. *)
Lemma matching_ignores_case_witness :
  let upper_agua := String (ascii_of_nat 193) "GUA" in
  let lower_agua := String (ascii_of_nat 225) "gua" in
  match match_transcript upper_agua [rule "door"; rule lower_agua],
        match_transcript lower_agua [rule "DOOR"; rule upper_agua]
  with
  | Ok (Some c1), Ok (Some c2) =>
      exists i : nat,
        [rule "door"; rule lower_agua] !! i = Some c1 /\
        [rule "DOOR"; rule upper_agua] !! i = Some c2
  | Ok None, Ok None => True
  | Raise e1, Raise e2 => e1 = e2
  | _, _ => False
  end.
Proof.
  intros upper_agua lower_agua.
  apply (matching_ignores_case upper_agua lower_agua
           [rule "door"; rule lower_agua] [rule "DOOR"; rule upper_agua]).
  - reflexivity.
  - repeat constructor.
Defined.

End MatcherFurtherExamples.

Section DispatcherFurtherExamples.

Import PyStr Dispatcher Requests.
Local Open Scope string_scope.

Lemma request_goes_to_the_named_service_witness :
  (exists domain service,
     action light_on = Some (domain ++ "." ++ service) /\
     mem "."%char domain = false /\
     url {| url := "http://supervisor/core/api/services/light/turn_on";
            json := ∅ ∪ {[ "entity_id" := "light.kitchen" ]};
            authorization := "Bearer abc" |} =
       "http://supervisor/core/api/services/" ++ domain ++ "/" ++ service) /\
  posted (_execute_action (H := http_ok) (H0 := json_none)
            {[ "SUPERVISOR_TOKEN" := "abc" ]}
            {| action := Some "turn_on"; entity_id := None;
               service_data := inr ∅ |}) = [].
Proof.
  split.
  - apply (proj1 (request_goes_to_the_named_service (H := http_ok)
                    (H0 := json_none) {[ "SUPERVISOR_TOKEN" := "abc" ]}
                    light_on)).
    vm_compute. left. reflexivity.
  - apply (proj2 (request_goes_to_the_named_service (H := http_ok)
                    (H0 := json_none) {[ "SUPERVISOR_TOKEN" := "abc" ]}
                    {| action := Some "turn_on"; entity_id := None;
                       service_data := inr ∅ |}) "turn_on");
      reflexivity.
Defined.

Lemma service_data_overrides_the_target_witness :
  let data : gmap string string := {[ "entity_id" := "light.hall" ]} in
  let req := {| url := "http://supervisor/core/api/services/light/turn_on";
                json := data ∪ {[ "entity_id" := "light.kitchen" ]};
                authorization := "Bearer abc" |} in
  json req !! "entity_id" =
    match data !! "entity_id" with
    | Some v => Some v
    | None => if truthy (Some "light.kitchen")
              then Some "light.kitchen" else None
    end /\
  (forall key, key <> "entity_id" -> json req !! key = data !! key).
Proof.
  intros data req.
  apply (service_data_overrides_the_target (H := http_ok) (H0 := json_none)
           {[ "SUPERVISOR_TOKEN" := "abc" ]}
           {| action := Some "light.turn_on";
              entity_id := Some "light.kitchen";
              service_data := inr data |} data req).
  - reflexivity.
  - vm_compute. left. reflexivity.
Defined.

Lemma at_most_one_request_per_action_witness :
  posted (_execute_action (H := http_ok) (H0 := json_none) ∅ light_on) = [].
Proof.
  destruct (at_most_one_request_per_action (H := http_ok) (H0 := json_none)
              ∅ light_on (Matcher.rule "light on")) as (_ & Hnone & _).
  apply Hnone. reflexivity.
Defined.

End DispatcherFurtherExamples.

Section LegacyFurtherExamples.

Import LegacyWire.

Lemma length_header_round_trips_witness :
  exists header,
    frame [x61; x62; x63]%byte = Some (header ++ [x61; x62; x63]%byte) /\
    length header = 4%nat /\
    unpack_u32 header = Some (Z.of_nat (length [x61; x62; x63]%byte)).
Proof.
  apply (proj1 (length_header_round_trips [x61; x62; x63]%byte)).
  reflexivity.
Defined.

Lemma framed_message_is_received_witness :
  exists stream',
    _receive_message
      ([x03; x00; x00; x00; x61]%byte :: [[x62]%byte; [x63; x64]%byte]) =
      (Some [x61; x62; x63]%byte, stream') /\
    concat stream' = [x64]%byte.
Proof.
  apply (framed_message_is_received [x61; x62; x63]%byte
           [x03; x00; x00; x00; x61; x62; x63]%byte [x64]%byte
           [x03; x00; x00; x00; x61]%byte [[x62]%byte; [x63; x64]%byte]).
  - reflexivity.
  - reflexivity.
  - cbn [length]. lia.
  - repeat constructor; discriminate.
Defined.

Lemma cut_message_is_given_up_witness :
  _receive_message ([x03; x00; x00; x00; x61]%byte :: [[x62]%byte]) = (None, []).
Proof.
  apply (cut_message_is_given_up [x61; x62; x63]%byte
           [x03; x00; x00; x00; x61; x62; x63]%byte 6
           [x03; x00; x00; x00; x61]%byte [[x62]%byte]).
  - reflexivity.
  - cbn [length]. lia.
  - reflexivity.
  - cbn [length]. lia.
  - repeat constructor; discriminate.
Defined.

Lemma split_header_loses_the_message_witness :
  _receive_message
    ([x03; x00]%byte :: [[x00; x00; x61; x62; x63]%byte]) =
    (None, [[x00; x00; x61; x62; x63]%byte]).
Proof.
  apply (split_header_loses_the_message [x03; x00]%byte
           [[x00; x00; x61; x62; x63]%byte]).
  cbn [length]. lia.
Defined.

Lemma legacy_speech_is_never_cut_witness :
  exists self',
    LegacySegmenter.feed (H := Segmenter.vad_rejects) LegacySegmenter.fresh
      (replicate 25 Segmenter.loud) =
      (self', repeat None (length (replicate 25 Segmenter.loud))) /\
    LegacySegmenter.buffer self' =
      LegacySegmenter.buffer LegacySegmenter.fresh ++ replicate 25 Segmenter.loud.
Proof.
  apply (legacy_speech_is_never_cut (H := Segmenter.vad_rejects)
           LegacySegmenter.fresh (replicate 25 Segmenter.loud)).
  apply Forall_replicate. discriminate.
Defined.

Lemma legacy_utterance_is_closed_by_silence_witness :
  let vad : Segmenter.Vad :=
    fun frame _ => Some (match frame with x00%byte :: _ => false | _ => true end) in
  LegacySegmenter.closed_by_silence (H := vad) LegacySegmenter.fresh
    (take 21 (Segmenter.loud :: replicate 20 Segmenter.quiet))
    (join (Segmenter.loud :: replicate 20 Segmenter.quiet)).
Proof.
  intros vad.
  apply (legacy_utterance_is_closed_by_silence (H := vad)
           LegacySegmenter.fresh LegacySegmenter.fresh
           (Segmenter.loud :: replicate 20 Segmenter.quiet)
           (replicate 20 None
              ++ [Some (join (Segmenter.loud :: replicate 20 Segmenter.quiet))])
           20 (join (Segmenter.loud :: replicate 20 Segmenter.quiet))).
  - reflexivity.
  - cbn. lia.
  - vm_compute; reflexivity.
  - reflexivity.
Defined.

Lemma legacy_audio_is_sent_whole_witness :
  exists chunks closed,
    (Legacy.send_audio {| Legacy.socket := None |} Segmenter.loud 16000 2 1
       (Legacy.healthy "ok")).2 =
      [Legacy.NewSocket; Legacy.Connected;
       Legacy.SendAll (Legacy.Transcribe 16000 2 1)]
      ++ map (fun c => Legacy.SendAll (Legacy.AudioChunkHex c)) chunks
      ++ [Legacy.SendAll Legacy.AudioStopMsg; Legacy.Recv] ++ closed /\
    join chunks = Segmenter.loud /\
    Forall (fun c => 0 < Z.of_nat (length c) <= 8192) chunks /\
    (closed = [] \/ closed = [Legacy.Close]).
Proof.
  apply (legacy_audio_is_sent_whole Segmenter.loud 16000 2 1
           (Legacy.healthy "ok")); reflexivity.
Defined.

End LegacyFurtherExamples.

Section PipelineFurtherExamples.

Import PyStr Dispatcher Matcher Requests Pipeline.
Local Open Scope string_scope.

Lemma requests_need_a_transcript_and_a_match_witness :
  let environ : gmap string string := {[ "SUPERVISOR_TOKEN" := "abc" ]} in
  let commands := [rule "door"; rule "light on"] in
  let srv := Wyoming.answers " Please turn the Light on. " in
  exists text before c rest p,
    Wyoming.value (Wyoming.send_audio Segmenter.loud 16000 2 1 srv) = Some text /\
    text <> EmptyString /\
    commands = (before ++ c :: rest)%list /\
    Forall (fun b => exists q, pattern b = Some q /\
                       matches (rstrip ".,!?" (strip (lower (strip text)))) q = false)
           before /\
    pattern c = Some p /\
    matches (rstrip ".,!?" (strip (lower (strip text)))) p = true /\
    (_transcribe_and_process (H := http_ok) (H0 := json_none) environ commands
       Segmenter.loud 16000 srv).1 =
      _execute_actions (H := http_ok) (H0 := json_none) environ c /\
    (length (posted (_execute_actions (H := http_ok) (H0 := json_none) environ c)) <=
       match actions c with
       | Some actions_list => length actions_list
       | None => 1
       end)%nat.
Proof.
  intros environ commands srv.
  apply (requests_need_a_transcript_and_a_match (H := http_ok) (H0 := json_none)
           environ commands Segmenter.loud 16000 srv
           {| url := "http://supervisor/core/api/services/light/turn_on";
              json := ∅ ∪ {[ "entity_id" := "light.kitchen" ]};
              authorization := "Bearer abc" |}).
  vm_compute. left. reflexivity.
Defined.

End PipelineFurtherExamples.
